(** * Flood-depth estimation: the numerical core of [banjir_new3.py] and
      [uji_coba_banjir_TIF.py]

    Both scripts read a DEM band, clean it with [np.nan_to_num], build the
    coordinate meshes with [np.linspace]/[np.meshgrid], and compute

      [water_level = np.maximum(0, inflow_volume - elevation + np.min(elevation))]

    once for the static view and once per animation frame.  The second
    script resizes the band with [cv2.resize] first.

    numpy evaluates these expressions in the floating-point type of the
    band.  The embedding keeps that arithmetic abstract: the array code is
    written once over a class [Arith] of scalar operations, and is run on
    two instances,
    - [binary64]: IEEE 754 double precision (Rocq's primitive floats), the
      arithmetic of a float64 band, used to run the scripts on concrete
      inputs;
    - [xq]: exact rational arithmetic extended with NaN.
    General properties are proved from laws of the arithmetic: [BasicLaws]
    for the claims that rest on the comparison alone, [ArithLaws] for those
    that rest on the monotonicity of rounding.  Both instances satisfy both
    sets of laws; for [binary64] this is derived from the specification of
    the operations in the standard library ([SpecFloat]), by showing that
    each operation returns the float nearest to the exact result. *)

From stdpp Require Import base option list strings.
From Stdlib Require Import ZArith QArith Qround Qpower Lqa Lia Floats DecimalString.

Local Open Scope Z_scope.

(** ** Scalar arithmetic *)

Class Arith (F : Type) := {
  of_int : Z → F;                 (* int -> float conversion *)
  fadd : F → F → F;
  fsub : F → F → F;
  fmul : F → F → F;
  fdiv : F → F → F;
  fle : F → F → bool;             (* a <= b, false on NaN *)
  flt : F → F → bool;             (* a <  b, false on NaN *)
  isnan : F → bool;
  isposinf : F → bool;
  isneginf : F → bool;
  finfo_max : F;                  (* np.finfo(dtype).max *)
  finfo_min : F;                  (* np.finfo(dtype).min *)
  cvRound : F → Z                 (* OpenCV: round to nearest int, ties to even *)
}.

Section Estimator.
Context {F : Type} `{Arith F}.

Definition zero : F := of_int 0.
Definition one : F := of_int 1.

(** [a == b] on scalars. *)
Definition feq (a b : F) : bool := fle a b && fle b a.

Definition isfinite (x : F) : bool := negb (isnan x || isposinf x || isneginf x).

(** *** numpy ufunc inner loops

    [np.maximum]: [(in1 >= in2 || isnan(in1)) ? in1 : in2];
    [np.minimum]: [(in1 <= in2 || isnan(in1)) ? in1 : in2];
    [np.fmin]:    [(in1 <= in2 || isnan(in2)) ? in1 : in2].

    These are the scalar loops.  They differ from numpy's vectorised loops
    in one case only: when the operands are the zeros of opposite sign,
    which compare equal, the scalar loop keeps [in1] and a vectorised loop
    may keep [in2] ([np.maximum(0, -0.0)] can be [-0.0]).  The sign of a
    zero result is therefore not to be read off these definitions: a
    statement about a result that can be such a zero is made with [fle] or
    [feq], for which the two zeros are the same. *)
Definition np_maximum (a b : F) : F := if fle b a || isnan a then a else b.
Definition np_minimum (a b : F) : F := if fle a b || isnan a then a else b.
Definition np_fmin (a b : F) : F := if fle a b || isnan b then a else b.

(** *** Arrays: a 2-D array is the list of its rows *)

Abbreviation grid := (list (list F)).

Definition ravel (E : grid) : list F := mjoin E.

Definition shape (E : grid) : nat * nat := (length E, length (default [] (head E))).

(** [E] is a [rows] x [cols] array. *)
Definition rect (rows cols : nat) (E : grid) : Prop :=
  length E = rows ∧ Forall (λ r, length r = cols) E.

(** [E[i, j]] *)
Definition cell (E : grid) (i j : nat) : option F := E !! i ≫= (.!! j).

(** An elementwise operation on a 2-D array. *)
Definition elementwise (f : F → F) (E : grid) : grid := (λ row : list F, f <$> row) <$> E.

(** [ufunc.reduce] over the flattened array; an empty array raises
    [ValueError] (zero-size array, no identity). *)
Definition reduce (op : F → F → F) (l : list F) : option F :=
  match l with
  | [] => None
  | x :: xs => Some (foldl op x xs)
  end.

Definition np_min (E : grid) : option F := reduce np_minimum (ravel E).

(** [np.nanmin] is [np.fmin.reduce] (an all-NaN array gives NaN and a
    warning, not an error). *)
Definition np_nanmin (E : grid) : option F := reduce np_fmin (ravel E).

(** [np.nan_to_num(x, nan=v)]: NaN becomes [v], +inf and -inf become the
    largest and smallest finite value of the dtype. *)
Definition nan_to_num1 (v x : F) : F :=
  if isnan x then v
  else if isposinf x then finfo_max
  else if isneginf x then finfo_min
  else x.

Definition nan_to_num (v : F) (E : grid) : grid := elementwise (nan_to_num1 v) E.

(** [np.argmax] inner loop of numpy, with [ip] the data and [n] its length:
<<
    mp = ip[0]; max_ind = 0;
    if (npy_isnan(mp)) return 0;
    for (i = 1; i < n; i++) {
        if (!(ip[i] <= mp)) { mp = ip[i]; max_ind = i; if (npy_isnan(mp)) break; }
    }
>> *)
Fixpoint argmax_loop (mp : F) (max_ind i : nat) (l : list F) : nat :=
  match l with
  | [] => max_ind
  | x :: xs =>
      if negb (fle x mp)
      then if isnan x then i else argmax_loop x i (S i) xs
      else argmax_loop mp max_ind (S i) xs
  end.

Definition np_argmax (l : list F) : option nat :=
  match l with
  | [] => None
  | x :: xs => Some (if isnan x then 0%nat else argmax_loop x 0 1 xs)
  end.

(** [np.unravel_index(k, (rows, cols))] in C (row-major) order. *)
Definition unravel_index (k : nat) (shp : nat * nat) : nat * nat :=
  (k / snd shp, k mod snd shp)%nat.

(** *** [np.linspace(start, stop, num)] (endpoint=True)
<<
    div = num - 1
    delta = stop - start
    y = arange(0, num)
    if div > 0:
        step = delta / div
        if step == 0: y /= div; y = y * delta
        else:         y = y * step
    else:
        y = y * delta
    y += start
    if num > 1: y[-1] = stop
>> *)
Definition arange (num : nat) : list F := (λ i, of_int (Z.of_nat i)) <$> seq 0 num.

Definition set_last (stop : F) (y : list F) : list F :=
  <[pred (length y) := stop]> y.

Definition linspace (start stop : F) (num : nat) : list F :=
  let div := (Z.of_nat num - 1)%Z in
  let delta := fsub stop start in
  let y := arange num in
  let y :=
    if (0 <? div)%Z then
      let step := fdiv delta (of_int div) in
      if feq step zero
      then (λ v, fmul (fdiv v (of_int div)) delta) <$> y
      else (λ v, fmul v step) <$> y
    else (λ v, fmul v delta) <$> y in
  let y := (λ v, fadd v start) <$> y in
  if (1 <? num)%nat then set_last stop y else y.

(** [X, Y = np.meshgrid(x, y)]: [X[i, j] = x[j]] and [Y[i, j] = y[i]]. *)
Definition meshgrid (x y : list F) : grid * grid :=
  ((λ _ : F, x) <$> y, (λ yi : F, (λ _ : F, yi) <$> x) <$> y).

Record Bounds := { left : F; right : F; top : F; bottom : F }.

(** Lines 25-27 of [banjir_new3.py], 45-47 of [uji_coba_banjir_TIF.py]. *)
Definition mesh (bounds : Bounds) (rows cols : nat) : grid * grid :=
  let x := linspace (left bounds) (right bounds) cols in
  let y := linspace (top bounds) (bottom bounds) rows in
  meshgrid x y.

(** The bounding box left=0, right=10, top=10, bottom=0. *)
Definition bounds_0_10 : Bounds :=
  {| left := of_int 0; right := of_int 10; top := of_int 10; bottom := of_int 0 |}.

(** *** Loading: [elevation = np.nan_to_num(elevation, nan=np.nanmin(elevation))] *)
Definition load_dem (band : grid) : option grid :=
  v ← np_nanmin band; Some (nan_to_num v band).

(** *** The estimate *)

(** [rain_mm_per_hour / 3600 / 1000] *)
Definition rainfall_intensity (rain_mm_per_hour : Z) : F :=
  fdiv (fdiv (of_int rain_mm_per_hour) (of_int 3600)) (of_int 1000).

(** [duration_minutes * 60], on Python integers *)
Definition duration (duration_minutes : Z) : Z := duration_minutes * 60.

(** [rainfall_intensity * duration] *)
Definition inflow_volume (rain_mm_per_hour duration_minutes : Z) : F :=
  fmul (rainfall_intensity rain_mm_per_hour) (of_int (duration duration_minutes)).

(** Broadcasting a scalar against an array. *)
Definition scalar_sub (v : F) (E : grid) : grid := elementwise (λ e, fsub v e) E.
Definition add_scalar (A : grid) (m : F) : grid := elementwise (λ a, fadd a m) A.
Definition maximum_scalar (z : F) (A : grid) : grid := elementwise (λ a, np_maximum z a) A.

(** [np.maximum(0, volume - elevation + np.min(elevation))], the expression
    of lines 34 and 62 ([banjir_new3.py]) and 55 and 82
    ([uji_coba_banjir_TIF.py]). *)
Definition level (volume : F) (elevation : grid) : option grid :=
  m ← np_min elevation;
  Some (maximum_scalar zero (add_scalar (scalar_sub volume elevation) m)).

(** The same expression at one cell, [np.maximum(0, volume - e + m)]. *)
Definition level_at (volume e m : F) : F :=
  np_maximum zero (fadd (fsub volume e) m).

Definition water_level (rain_mm_per_hour duration_minutes : Z) (elevation : grid)
  : option grid :=
  level (inflow_volume rain_mm_per_hour duration_minutes) elevation.

(** [volume_t = inflow_volume * (t / steps)] *)
Definition volume_t (rain_mm_per_hour duration_minutes : Z) (steps t : Z) : F :=
  fmul (inflow_volume rain_mm_per_hour duration_minutes)
       (fdiv (of_int t) (of_int steps)).

Definition level_t (rain_mm_per_hour duration_minutes : Z) (steps t : Z)
    (elevation : grid) : option grid :=
  level (volume_t rain_mm_per_hour duration_minutes steps t) elevation.

(** [for t in range(1, steps + 1): ... frames.append(...)] *)
Definition frames (rain_mm_per_hour duration_minutes : Z) (steps : nat)
    (elevation : grid) : option (list grid) :=
  mapM (λ t, level_t rain_mm_per_hour duration_minutes
               (Z.of_nat steps) (Z.of_nat t) elevation)
       (seq 1 steps).

(** [max_pos = np.unravel_index(np.argmax(water_level), water_level.shape)] *)
Definition max_pos (W : grid) : option (nat * nat) :=
  k ← np_argmax (ravel W); Some (unravel_index k (shape W)).

(** [max_water = water_level[max_pos]] *)
Definition max_water (W : grid) : option F :=
  p ← max_pos W; cell W (fst p) (snd p).

(** *** Resizing ([uji_coba_banjir_TIF.py], lines 21 and 41-42) *)

Inductive Mode := Ringan | Detail.

Definition MAX_RES (mode : Mode) : Z := match mode with Ringan => 150 | Detail => 300 end.
Definition ANIM_STEPS (mode : Mode) : nat := match mode with Ringan => 10 | Detail => 20 end.

(** Python's [min(a, b)]: the first argument unless the second is smaller. *)
Definition py_min (a b : F) : F := if flt b a then b else a.

(** [scale = min(MAX_RES / elevation.shape[0], MAX_RES / elevation.shape[1])] *)
Definition scale (mode : Mode) (rows cols : nat) : F :=
  py_min (fdiv (of_int (MAX_RES mode)) (of_int (Z.of_nat rows)))
         (fdiv (of_int (MAX_RES mode)) (of_int (Z.of_nat cols))).

(** Shape of [cv2.resize(src, (0, 0), fx=fx, fy=fy)].  OpenCV requires
    [fx > 0] and [fy > 0], takes
    [dsize = Size(round(fx * src.cols), round(fy * src.rows))] and requires
    it to be non-empty; otherwise the call raises. *)
Definition resize_shape (rows cols : nat) (fx fy : F) : option (Z * Z) :=
  if flt zero fx && flt zero fy then
    let width := cvRound (fmul (of_int (Z.of_nat cols)) fx) in
    let height := cvRound (fmul (of_int (Z.of_nat rows)) fy) in
    if (0 <? width) && (0 <? height) then Some (height, width) else None
  else None.

(** [rows, cols = elevation.shape] after line 42. *)
Definition resized_shape (mode : Mode) (rows cols : nat) : option (Z * Z) :=
  let s := scale mode rows cols in resize_shape rows cols s s.

(** *** The estimator as the specification words it

    [inflowDepth = (rainIntensityMmPerHour / 3600 / 1000) * (durationMinutes * 60) * timeFraction]
    and, per cell, [level = max(0, inflowDepth - elevation + minElevation)]. *)
Definition inflowDepth (rainIntensityMmPerHour durationMinutes : Z) (timeFraction : F) : F :=
  fmul (fmul (fdiv (fdiv (of_int rainIntensityMmPerHour) (of_int 3600)) (of_int 1000))
             (of_int (durationMinutes * 60)))
       timeFraction.

(** [max(a, b)] as the specification means it, the larger of two numbers:
    written with the strict comparison alone, not with [np_maximum]. *)
Definition spec_max (a b : F) : F := if flt a b then b else a.

Definition spec_level (inflowDepth elevation minElevation : F) : F :=
  spec_max zero (fadd (fsub inflowDepth elevation) minElevation).

(** [c] is the level that the specification prescribes for a cell: the
    same number as [spec_level] (the zeros of either sign are one number).
    Where [inflowDepth - elevation + minElevation] is NaN, which takes
    infinite elevations, a maximum of numbers is not defined and [c] is
    NaN. *)
Definition level_ok (inflowDepth elevation minElevation c : F) : bool :=
  if isnan (fadd (fsub inflowDepth elevation) minElevation) then isnan c
  else feq c (spec_level inflowDepth elevation minElevation).

(** The grid [W] holds the prescribed level at every cell of [E], and has
    no other cell. *)
Definition levels_ok (inflowDepth minElevation : F) (E W : grid) : Prop :=
  ∀ i j, match cell E i j with
         | Some e => ∃ c, cell W i j = Some c ∧ level_ok inflowDepth e minElevation c = true
         | None => cell W i j = None
         end.

(** [m] is the global minimum of [E]: a cell of [E] below every cell. *)
Definition is_min (E : grid) (m : F) : Prop :=
  (∃ i j, cell E i j = Some m) ∧ ∀ i j e, cell E i j = Some e → fle m e = true.

(** Every cell of [E] satisfies [P]. *)
Definition all_cells (P : F → bool) (E : grid) : Prop :=
  ∀ i j e, cell E i j = Some e → P e = true.

Definition notnan (x : F) : bool := negb (isnan x).

(** Row-major (C order) index of cell [(i, j)] in an array of [cols] columns. *)
Definition flat_index (cols i j : nat) : nat := i * cols + j.

End Estimator.

(** ** Laws of the arithmetic

    What the proofs below use of the scalar operations, in two layers.

    [BasicLaws]: the comparison is a total preorder on the values that are
    not NaN, subtracting or adding a finite value never produces NaN, and
    multiplying by 1 changes nothing.

    [ArithLaws]: in addition, rounding is monotone, small integers are
    computed exactly, and dividing by a value of at least 1 does not
    overflow.

    Both are proved below for exact arithmetic and for binary64.  No law
    says that an operation is exact on non-integers: [(v - m) + m] need not
    be [v], and in binary64 it is not. *)

Definition INT_MIN : Z := - 2 ^ 31.

Class BasicLaws (F : Type) `{Arith F} : Prop := {
  (* the order on non-NaN values *)
  fle_not_nan a b : fle a b = true → isnan a = false ∧ isnan b = false;
  fle_refl a : isnan a = false → fle a a = true;
  fle_trans a b c : fle a b = true → fle b c = true → fle a c = true;
  fle_total a b : isnan a = false → isnan b = false → fle a b = true ∨ fle b a = true;
  flt_fle a b : isnan a = false → isnan b = false → flt a b = negb (fle b a);
  (* finite values *)
  finfo_max_finite : isfinite finfo_max = true;
  finfo_min_finite : isfinite finfo_min = true;
  zero_finite : isfinite zero = true;
  (* NaN arises only from invalid operations *)
  fsub_not_nan a b : isnan a = false → isfinite b = true → isnan (fsub a b) = false;
  fadd_not_nan a b : isnan a = false → isfinite b = true → isnan (fadd a b) = false;
  (* one *)
  fmul_one_r a : fmul a one = a
}.

Class ArithLaws (F : Type) `{Arith F} : Prop := {
  arith_basic :: BasicLaws F;
  (* integers *)
  of_int_finite z : Z.abs z ≤ 2 ^ 53 → isfinite (of_int z) = true;
  of_int_mono z1 z2 :
    Z.abs z1 ≤ 2 ^ 53 → Z.abs z2 ≤ 2 ^ 53 → z1 ≤ z2 → fle (of_int z1) (of_int z2) = true;
  fsub_of_int z1 z2 :
    Z.abs z1 ≤ 2 ^ 52 → Z.abs z2 ≤ 2 ^ 52 → fsub (of_int z1) (of_int z2) = of_int (z1 - z2);
  (* NaN arises only from invalid operations, overflow only from growth *)
  fmul_not_nan a b : isfinite a = true → isfinite b = true → isnan (fmul a b) = false;
  fdiv_bounded a c :
    isfinite a = true → isfinite c = true → fle one c = true → isfinite (fdiv a c) = true;
  (* rounding is monotone *)
  fsub_mono_l a a' b :
    fle a a' = true → isfinite b = true → fle (fsub a b) (fsub a' b) = true;
  fsub_anti_r a b b' :
    isnan a = false → isfinite b = true → isfinite b' = true →
    fle b b' = true → fle (fsub a b') (fsub a b) = true;
  fadd_mono_l a a' b :
    fle a a' = true → isfinite b = true → fle (fadd a b) (fadd a' b) = true;
  fmul_mono_r a b b' :
    fle zero a = true → fle b b' = true →
    isnan (fmul a b) = false → isnan (fmul a b') = false →
    fle (fmul a b) (fmul a b') = true;
  fdiv_mono_l a a' c :
    isfinite a = true → isfinite a' = true → fle a a' = true →
    isfinite c = true → fle one c = true → fle (fdiv a c) (fdiv a' c) = true;
  (* zero *)
  fmul_zero_l z b : feq z zero = true → isfinite b = true → feq (fmul z b) zero = true;
  fdiv_zero_l z c :
    feq z zero = true → isfinite c = true → fle one c = true → feq (fdiv z c) zero = true;
  fadd_zero_l z s : feq z zero = true → isnan s = false → feq (fadd z s) s = true;
  (* rounding to int: monotone while in range, and [n * (m / n)] rounds to [m] *)
  cvRound_mono a b : fle a b = true → cvRound b ≠ INT_MIN → cvRound a ≤ cvRound b;
  cvRound_mul_div n m :
    0 < n ≤ 2 ^ 31 → 0 ≤ m < 2 ^ 31 →
    cvRound (fmul (of_int n) (fdiv (of_int m) (of_int n))) = m
}.

(** ** Exact arithmetic: the rationals and NaN *)

Inductive xq := XNaN | XNum (q : Q).

(** Round to nearest, ties to even. *)
Definition Qround_half_even (q : Q) : Z :=
  let f := Qfloor q in
  match (q - inject_Z f ?= 1 # 2)%Q with
  | Lt => f
  | Gt => f + 1
  | Eq => if Z.even f then f else f + 1
  end.

(** Conversion to a C [int] as [cvRound] does it on x86: a value out of
    range gives [INT_MIN]. *)
Definition to_int32 (z : Z) : Z :=
  if (INT_MIN <=? z) && (z <? 2 ^ 31) then z else INT_MIN.

Definition xq_lift2 (f : Q → Q → Q) (a b : xq) : xq :=
  match a, b with
  | XNum x, XNum y => XNum (f x y)
  | _, _ => XNaN
  end.

Definition xq_div (a b : xq) : xq :=
  match a, b with
  | XNum x, XNum y => if Qeq_bool y 0 then XNaN else XNum (x / y)
  | _, _ => XNaN
  end.

Definition xq_le (a b : xq) : bool :=
  match a, b with
  | XNum x, XNum y => Qle_bool x y
  | _, _ => false
  end.

Definition xq_lt (a b : xq) : bool :=
  match a, b with
  | XNum x, XNum y => negb (Qle_bool y x)
  | _, _ => false
  end.

Definition xq_isnan (a : xq) : bool := match a with XNaN => true | XNum _ => false end.

Definition xq_round (a : xq) : Z :=
  match a with
  | XNaN => INT_MIN
  | XNum q => to_int32 (Qround_half_even q)
  end.

#[export] Instance xq_arith : Arith xq := {|
  of_int z := XNum (inject_Z z);
  fadd := xq_lift2 Qplus;
  fsub := xq_lift2 Qminus;
  fmul := xq_lift2 Qmult;
  fdiv := xq_div;
  fle := xq_le;
  flt := xq_lt;
  isnan := xq_isnan;
  isposinf := λ _, false;
  isneginf := λ _, false;
  finfo_max := XNum (inject_Z (2 ^ 1024 - 2 ^ 971));
  finfo_min := XNum (inject_Z (- (2 ^ 1024 - 2 ^ 971)));
  cvRound := xq_round
|}.

(** ** IEEE 754 binary64 *)

(** Value of a finite float as a rational. *)
Definition SF2Q (x : spec_float) : Q :=
  match x with
  | S754_finite s m e => (inject_Z (cond_Zopp s (Zpos m)) * 2 ^ e)%Q
  | _ => 0%Q
  end.

Definition b64_round (x : float) : Z :=
  match Prim2SF x with
  | S754_zero _ => 0
  | S754_finite s m e => to_int32 (Qround_half_even (SF2Q (S754_finite s m e)))
  | _ => INT_MIN
  end.

(** Correctly rounded conversion of an integer. *)
Definition b64_of_int (z : Z) : float :=
  SF2Prim (binary_normalize prec emax z 0 false).

#[export] Instance binary64 : Arith float := {|
  of_int := b64_of_int;
  fadd := PrimFloat.add;
  fsub := PrimFloat.sub;
  fmul := PrimFloat.mul;
  fdiv := PrimFloat.div;
  fle := PrimFloat.leb;
  flt := PrimFloat.ltb;
  isnan := PrimFloat.is_nan;
  isposinf := λ x, PrimFloat.eqb x infinity;
  isneginf := λ x, PrimFloat.eqb x neg_infinity;
  finfo_max := 0x1.fffffffffffffp+1023%float;
  finfo_min := (-0x1.fffffffffffffp+1023)%float;
  cvRound := b64_round
|}.

(** A specification-level float that is not NaN, and one that is a zero
    or a finite number. *)
Definition sf_notnan (x : spec_float) : bool :=
  match x with S754_nan => false | _ => true end.

Definition sf_finite (x : spec_float) : bool :=
  match x with S754_zero _ | S754_finite _ _ _ => true | _ => false end.

(** ** Rounding to binary64

    The float nearest to a rational number, ties to even, written without
    reference to the bit-level algorithm of [SpecFloat].  Values are counted
    in units of [2^-1074], the smallest positive binary64 number, so that
    every finite float is an integer ([sf_int]). *)

(** Round [N / 2^n] to nearest, ties to even ([0 <= N], [0 <= n]). *)
Definition rne (N n : Z) : Z :=
  if n =? 0 then N
  else
    match N mod 2 ^ n ?= 2 ^ (n - 1) with
    | Lt => N / 2 ^ n
    | Gt => N / 2 ^ n + 1
    | Eq => if Z.even (N / 2 ^ n) then N / 2 ^ n else N / 2 ^ n + 1
    end.

(** A rounded mantissa [q] at exponent [c] as a float: a mantissa that
    reached [2^53] is renormalised, and an exponent above [emax - prec]
    overflows. *)
Definition enc_norm (s : bool) (m e : Z) : spec_float :=
  match m with
  | Z0 => S754_zero s
  | Zpos p => if e <=? emax - prec then S754_finite s p e else S754_infinity s
  | Zneg _ => S754_nan
  end.

Definition enc (s : bool) (q c : Z) : spec_float :=
  enc_norm s (if q =? 2 ^ 53 then 2 ^ 52 else q) (if q =? 2 ^ 53 then c + 1 else c).

(** A binary64 number as an integer multiple of [2^-1074], rounded to
    the format. *)
Definition rnd64_pos (s : bool) (N : positive) : spec_float :=
  let c := fexp prec emax (Zpos (digits2_pos N) - 1074) in
  enc s (rne (Zpos N) (c + 1074)) c.

Definition rnd64 (N : Z) : spec_float :=
  match N with
  | Z0 => S754_zero false
  | Zpos p => rnd64_pos false p
  | Zneg p => rnd64_pos true p
  end.

(** A finite float as an integer multiple of [2^-1074]. *)
Definition sf_int (x : spec_float) : Z :=
  match x with
  | S754_finite s m e => cond_Zopp s (Zpos m) * 2 ^ (e + 1074)
  | _ => 0
  end.

(** Two floats that compare equal (the same float, or zeros of either sign). *)
Definition sf_eqv (x y : spec_float) : Prop :=
  SFleb x y = true ∧ SFleb y x = true.

(** Round [A / B] to nearest, ties to even ([0 <= A], [0 < B]). *)
Definition rdiv (A B : Z) : Z :=
  match 2 * (A mod B) ?= B with
  | Lt => A / B
  | Gt => A / B + 1
  | Eq => if Z.even (A / B) then A / B else A / B + 1
  end.

(** The float nearest to [A / B] in units of [2^-1074], with sign [s]
    ([0 <= A], [0 < B]). *)
Definition rnd_frac (s : bool) (A B : Z) : spec_float :=
  let c := fexp prec emax (Zdigits2 (A / B) - 1074) in
  enc s (rdiv A (B * 2 ^ (c + 1074))) c.

(** A float that is not below zero: a zero, a positive number or
    [+infinity]. *)
Definition sf_nonneg (x : spec_float) : bool :=
  match x with
  | S754_zero _ | S754_finite false _ _ | S754_infinity false => true
  | _ => false
  end.

(** The float nearest to [A / B] for [A] of either sign. *)
Definition rnd_sfrac (A B : Z) : spec_float :=
  match A with
  | Z0 => S754_zero false
  | Zpos _ => rnd_frac false A B
  | Zneg p => rnd_frac true (Zpos p) B
  end.

(** A location as the two bits below the unit. *)
Definition loc_bits (l : location) : Z :=
  match l with
  | loc_Exact => 0
  | loc_Inexact Lt => 1
  | loc_Inexact Eq => 2
  | loc_Inexact Gt => 3
  end.

(** The float 1.0. *)
Definition sf_one : spec_float := S754_finite false 4503599627370496 (-52).

(** Reduced form of an exact value, to compare results with literals. *)
Definition xq_red (a : xq) : xq :=
  match a with
  | XNaN => XNaN
  | XNum q => XNum (Qred q)
  end.


(** ** The report and the animation timing *)

Section Report.
Context {F : Type} `{Arith F}.

(** The outcome of the comparison with the threshold: the branch taken
    and, for an alert, the three numbers handed to its f-string, as they
    are before formatting ([message] below formats them). *)
Inductive Report := Flood (depth x y : F) | NoFlood.

(** Lines 23-42 of [banjir_new3.py], 44-63 of [uji_coba_banjir_TIF.py]:
<<
    rows, cols = elevation.shape
    x = np.linspace(bounds.left, bounds.right, cols)
    y = np.linspace(bounds.top, bounds.bottom, rows)
    X, Y = np.meshgrid(x, y)
    ...
    water_level = np.maximum(0, inflow_volume - elevation + np.min(elevation))
    max_pos = np.unravel_index(np.argmax(water_level), water_level.shape)
    max_water = water_level[max_pos]
    if max_water > threshold: st.error(... max_water, X[max_pos], Y[max_pos])
    else:                     st.success(...)
>>
    [None] stands for an exception.  The level, the threshold and the
    meshes are in one arithmetic [F]: for [binary64] this is a float64
    band, the threshold being a Python float. *)
Definition report (bounds : Bounds) (rain_mm_per_hour duration_minutes : Z)
    (threshold : F) (elevation : list (list F)) : option Report :=
  let rows := fst (shape elevation) in
  let cols := snd (shape elevation) in
  let XY := mesh bounds rows cols in
  W ← water_level rain_mm_per_hour duration_minutes elevation;
  p ← max_pos W;
  max_water ← cell W (fst p) (snd p);
  if flt threshold max_water then
    x ← cell (fst XY) (fst p) (snd p);
    y ← cell (snd XY) (fst p) (snd p);
    Some (Flood max_water x y)
  else Some NoFlood.

End Report.

(** Python's [int(x)] on a float: truncation towards zero; [None] stands
    for the [ValueError] on NaN and the [OverflowError] on an infinity. *)
Definition py_int (x : float) : option Z :=
  match Prim2SF x with
  | S754_zero _ => Some 0
  | S754_finite s m e => Some (Z.quot (sf_int (S754_finite s m e)) (2 ^ 1074))
  | _ => None
  end.

(** [int(durasi_animasi * 1000 / steps)], the duration of a frame in
    milliseconds (line 74 of [banjir_new3.py], 93 of
    [uji_coba_banjir_TIF.py]); [/] on two Python integers is the float
    nearest to the quotient. *)
Definition frame_duration (durasi_animasi steps : Z) : option Z :=
  py_int (fdiv (of_int (durasi_animasi * 1000)) (of_int steps)).

(** *** The text of the alert

    Python's [format(x, ".2f")], which the f-strings of lines 40
    ([banjir_new3.py]) and 61 ([uji_coba_banjir_TIF.py]) apply to
    [max_water], [X[max_pos]] and [Y[max_pos]]: the exact value of the
    float rounded to the nearest hundredth, ties to even, written with two
    decimals and with the sign of the float (so [-0.001] is [-0.00]); NaN
    and the infinities are written [nan], [inf] and [-inf]. *)

(** The absolute value in hundredths, rounded. *)
Definition hundredths (x : spec_float) : Z :=
  rdiv (100 * Z.abs (sf_int x)) (2 ^ 1074).

(** A natural number in decimal. *)
Definition decimal (n : Z) : string := NilZero.string_of_uint (N.to_uint (Z.to_N n)).

Definition fixed_2 (negative : bool) (h : Z) : string :=
  (if negative then "-" else "") +:+ decimal (h / 100) +:+ "."
  +:+ (if h mod 100 <? 10 then "0" else "") +:+ decimal (h mod 100).

Definition format_2f (x : float) : string :=
  match Prim2SF x with
  | S754_nan => "nan"
  | S754_infinity s => if s then "-inf" else "inf"
  | S754_zero s => fixed_2 s 0
  | S754_finite s m e => fixed_2 s (hundredths (S754_finite s m e))
  end.

(** What the user reads: [st.error] with the three formatted numbers (the
    words around them are fixed), or [st.success]. *)
Inductive Message := st_error (depth x y : string) | st_success.

Definition message (bounds : Bounds) (rain_mm_per_hour duration_minutes : Z)
    (threshold : float) (elevation : list (list float)) : option Message :=
  rep ← report bounds rain_mm_per_hour duration_minutes threshold elevation;
  Some (match rep with
        | Flood max_water x y =>
            st_error (format_2f max_water) (format_2f x) (format_2f y)
        | NoFlood => st_success
        end).

(** A few formatted values. *)
Definition format_2f_samples : list (float * string) :=
  [(0x1.3333333333333p-1, "0.60"); (0.125, "0.12"); (0.375, "0.38");
   (0x1.47ae147ae147bp-8, "0.01"); (0x1.a4f089731d354p+1, "3.29");
   (0x1.999999999999bp-4, "0.10"); (-0x1.0624dd2f1a9fcp-10, "-0.00");
   (1234567, "1234567.00"); (-0, "-0.00"); (nan, "nan"); (neg_infinity, "-inf")]%float.

(** ** Concrete inputs *)

(** A grid of integer elevations, converted to the arithmetic at hand. *)
Definition of_int_grid {F : Type} `{Arith F} (l : list (list Z)) : list (list F) :=
  (λ row : list Z, of_int <$> row) <$> l.

(** The scenario of the specification: elevation [[0,1],[2,3]] on the
    bounding box left=0, right=1, top=1, bottom=0. *)
Definition dem_2x2 : list (list Z) := [[0; 1]; [2; 3]].

Definition bounds_0_1 {F : Type} `{Arith F} : Bounds :=
  {| left := of_int 0; right := of_int 1; top := of_int 1; bottom := of_int 0 |}.



(** A band with two unmeasured cells and an infinite one. *)
Definition band_with_nan : list (list float) :=
  [[nan; 5; 3]; [infinity; nan; 4]]%float.

(** A band with infinite cells of both signs and an unmeasured one. *)
Definition band_with_infinities : list (list float) :=
  [[infinity; neg_infinity]; [nan; 4]]%float.

(** [(a - b) + b == a], which is not among the laws. *)
Definition sub_add_exact {F : Type} `{Arith F} (a b : F) : bool :=
  feq (fadd (fsub a b) b) a.

(** ** Exact arithmetic satisfies the laws *)

Lemma Qround_half_even_range (q : Q) :
  Qround_half_even q = Qfloor q ∨ Qround_half_even q = Qfloor q + 1.
Proof.
  unfold Qround_half_even.
  destruct (_ ?= _)%Q; [destruct (Z.even _) | |]; auto.
Qed.

Lemma Qfloor_bounds (q : Q) : (inject_Z (Qfloor q) <= q < inject_Z (Qfloor q) + 1)%Q.
Proof.
  split; [apply Qfloor_le |].
  pose proof (Qlt_floor q) as Hlt.
  rewrite inject_Z_plus in Hlt. exact Hlt.
Qed.

Lemma Qround_half_even_mono (p q : Q) :
  (p <= q)%Q → Qround_half_even p ≤ Qround_half_even q.
Proof.
  intros Hpq.
  pose proof (Qfloor_resp_le _ _ Hpq) as Hf.
  destruct (Z.eq_dec (Qfloor p) (Qfloor q)) as [Heq | Hne].
  - unfold Qround_half_even. rewrite Heq.
    destruct (p - inject_Z (Qfloor q) ?= 1 # 2)%Q eqn:Hp;
      destruct (q - inject_Z (Qfloor q) ?= 1 # 2)%Q eqn:Hq;
      try destruct (Z.even (Qfloor q)); try lia;
      first [apply Qlt_alt in Hp | apply Qgt_alt in Hp | apply Qeq_alt in Hp];
      first [apply Qlt_alt in Hq | apply Qgt_alt in Hq | apply Qeq_alt in Hq]; lra.
  - destruct (Qround_half_even_range p), (Qround_half_even_range q); lia.
Qed.

Lemma Qround_half_even_int (q : Q) (m : Z) : (q == inject_Z m)%Q → Qround_half_even q = m.
Proof.
  intros Hq. unfold Qround_half_even.
  assert (Qfloor q = m) as -> by (rewrite Hq; apply Qfloor_Z).
  assert ((q - inject_Z m ?= 1 # 2)%Q = Lt) as ->; [| done].
  apply Qlt_alt. rewrite Hq. unfold Qminus. by rewrite Qplus_opp_r.
Qed.

Lemma to_int32_mono (z z' : Z) : z ≤ z' → to_int32 z' ≠ INT_MIN → to_int32 z ≤ to_int32 z'.
Proof.
  unfold to_int32, INT_MIN.
  repeat case_match; lia.
Qed.

Lemma to_int32_id (z : Z) : INT_MIN ≤ z < 2 ^ 31 → to_int32 z = z.
Proof. unfold to_int32, INT_MIN. intros. case_match; lia. Qed.

Ltac xq_bool :=
  repeat match goal with
  | H : Qle_bool _ _ = true |- _ => apply Qle_bool_iff in H
  | H : negb (Qle_bool _ _) = true |- _ => apply negb_true_iff in H
  | H : Qle_bool ?a ?b = false |- _ =>
      assert (b < a)%Q by (apply Qnot_le_lt; rewrite <- Qle_bool_iff, H; discriminate);
      clear H
  | H : (_ && _) = true |- _ => apply andb_true_iff in H as [? ?]
  | |- Qle_bool _ _ = true => apply Qle_bool_iff
  | |- (_ && _) = true => apply andb_true_iff; split
  end.

Ltac xq_cases :=
  repeat match goal with
  | a : xq |- _ => destruct a
  end; cbn in *; try done;
  change (inject_Z 0) with 0%Q in *; change (inject_Z 1) with 1%Q in *;
  try match goal with
  | |- context [Qeq_bool ?c 0] =>
      let Hc := fresh "Hc" in
      destruct (Qeq_bool c 0) eqn:Hc; [apply Qeq_bool_iff in Hc | cbn]
  end; xq_bool.

#[export] Instance xq_basic : BasicLaws xq.
Proof.
  split; unfold feq, isfinite, zero, one; intros.
  - xq_cases.
  - xq_cases. lra.
  - xq_cases. lra.
  - xq_cases.
    match goal with
    | |- Qle_bool ?x ?y = true ∨ _ => destruct (Qlt_le_dec x y); [left | right]
    end; xq_bool; lra.
  - xq_cases.
  - done.
  - done.
  - done.
  - xq_cases.
  - xq_cases.
  - destruct a as [| [n d]]; cbn; [done |].
    unfold Qmult; cbn. by rewrite Z.mul_1_r, Pos.mul_1_r.
Qed.

#[export] Instance xq_laws : ArithLaws xq.
Proof.
  split; [exact xq_basic | ..]; unfold feq, isfinite, zero, one; intros.
  - done.
  - cbn. xq_bool. rewrite <- Zle_Qle. done.
  - cbn. unfold Qminus, Qplus, Qopp, inject_Z; cbn. do 2 f_equal. lia.
  - xq_cases.
  - xq_cases; [lra | done].
  - xq_cases. lra.
  - xq_cases. lra.
  - xq_cases. lra.
  - xq_cases. nra.
  - xq_cases; [lra |].
    apply Qmult_le_compat_r; [done |].
    apply Qinv_le_0_compat. lra.
  - xq_cases.
    all: match goal with
         | |- (?x * ?y <= 0)%Q => assert (x * y == 0)%Q as ->
         | |- (0 <= ?x * ?y)%Q => assert (x * y == 0)%Q as ->
         end; try lra.
    all: match goal with
         | |- (?x * ?y == 0)%Q => assert (x == 0)%Q as -> by lra; ring
         end.
  - xq_cases; try lra.
    all: match goal with
         | |- (?x / ?y <= 0)%Q => assert (x / y == 0)%Q as ->
         | |- (0 <= ?x / ?y)%Q => assert (x / y == 0)%Q as ->
         end; try lra.
    all: match goal with
         | |- (?x / ?y == 0)%Q => assert (x == 0)%Q as -> by lra; field; lra
         end.
  - xq_cases; lra.
  - destruct a, b; cbn in *; try done. xq_bool.
    apply to_int32_mono; [by apply Qround_half_even_mono | done].
  - cbn. destruct (Qeq_bool (inject_Z n) 0) eqn:Hn.
    { apply Qeq_bool_iff in Hn. unfold Qeq in Hn. cbn in Hn. lia. }
    cbn. rewrite (Qround_half_even_int _ m).
    + apply to_int32_id. unfold INT_MIN. lia.
    + field. unfold Qeq. cbn. lia.
Qed.

(** ** binary64 satisfies the basic laws *)

Lemma SFcompare_refl x : sf_notnan x = true → SFcompare x x = Some Eq.
Proof.
  destruct x as [s | s | | s m e]; simpl; try done; destruct s; try done;
    by rewrite Z.compare_refl, Pos.compare_cont_refl.
Qed.

Lemma b64_is_nan_spec (x : float) : PrimFloat.is_nan x = negb (sf_notnan (Prim2SF x)).
Proof.
  unfold PrimFloat.is_nan. rewrite eqb_spec. unfold SFeqb.
  destruct (sf_notnan (Prim2SF x)) eqn:Hx.
  - by rewrite SFcompare_refl.
  - by destruct (Prim2SF x).
Qed.

Ltac sf_order :=
  unfold SFleb, SFltb, SFcompare;
  repeat match goal with
         | x : spec_float |- _ => destruct x as [[] | [] | | [] ? ?]
         end;
  simpl; try done;
  change (Pos.compare_cont Eq) with Pos.compare;
  repeat match goal with
         | |- context [Z.compare ?a ?b] => destruct (Z.compare_spec a b)
         | |- context [Pos.compare ?a ?b] => destruct (Pos.compare_spec a b)
         end;
  simpl; try done; try lia.

Lemma SFleb_not_nan x y : SFleb x y = true → sf_notnan x = true ∧ sf_notnan y = true.
Proof. destruct x, y; simpl; try done. Qed.

Lemma SFleb_trans x y z : SFleb x y = true → SFleb y z = true → SFleb x z = true.
Proof. sf_order. Qed.

Lemma SFleb_total x y :
  sf_notnan x = true → sf_notnan y = true → SFleb x y = true ∨ SFleb y x = true.
Proof. sf_order; auto. Qed.

Lemma SFltb_SFleb x y :
  sf_notnan x = true → sf_notnan y = true → SFltb x y = negb (SFleb y x).
Proof. sf_order. Qed.

(** Rounding a non-negative mantissa never gives NaN. *)
Lemma shr_1_nonneg mrs : 0 ≤ shr_m mrs → 0 ≤ shr_m (shr_1 mrs).
Proof. destruct mrs as [[| [p | p |] | p] r s]; simpl; lia. Qed.

Lemma iter_pos_shr_1_nonneg p mrs : 0 ≤ shr_m mrs → 0 ≤ shr_m (iter_pos shr_1 p mrs).
Proof.
  revert mrs. induction p as [p IH | p IH |]; intros mrs Hm; simpl;
    auto using shr_1_nonneg.
Qed.

Lemma shr_fexp_nonneg m e l : 0 ≤ m → 0 ≤ shr_m (shr_fexp prec emax m e l).1.
Proof.
  intros Hm. unfold shr_fexp, shr.
  assert (0 ≤ shr_m (shr_record_of_loc m l)) by (by destruct l as [| []]).
  destruct (_ - e); simpl; auto using iter_pos_shr_1_nonneg.
Qed.

Lemma round_nearest_even_nonneg m l : 0 ≤ m → 0 ≤ round_nearest_even m l.
Proof. destruct l as [| []]; simpl; try destruct (Z.even m); lia. Qed.

Lemma binary_round_aux_not_nan s m e l :
  0 ≤ m → sf_notnan (binary_round_aux prec emax s m e l) = true.
Proof.
  intros Hm. unfold binary_round_aux.
  pose proof (shr_fexp_nonneg m e l Hm) as H1.
  destruct (shr_fexp prec emax m e l) as [mrs' e']. simpl in H1.
  pose proof (shr_fexp_nonneg _ e' loc_Exact
                (round_nearest_even_nonneg _ (loc_of_shr_record mrs') H1)) as H2.
  destruct (shr_fexp prec emax _ e' loc_Exact) as [mrs'' e'']. simpl in H2.
  destruct (shr_m mrs''); [done | by destruct (_ <=? _) | lia].
Qed.

Lemma binary_normalize_not_nan m e sz :
  sf_notnan (binary_normalize prec emax m e sz) = true.
Proof.
  destruct m; simpl; [done | |]; unfold binary_round;
    destruct (shl_align _ _ _); by apply binary_round_aux_not_nan.
Qed.

Lemma SFsub_not_nan x y :
  sf_notnan x = true → sf_finite y = true → sf_notnan (SFsub prec emax x y) = true.
Proof.
  destruct x as [[] | [] | | sx mx ex], y as [[] | [] | | sy my ey]; simpl; try done.
  intros _ _. apply binary_normalize_not_nan.
Qed.

Lemma SFadd_not_nan x y :
  sf_notnan x = true → sf_finite y = true → sf_notnan (SFadd prec emax x y) = true.
Proof.
  destruct x as [[] | [] | | sx mx ex], y as [[] | [] | | sy my ey]; simpl; try done.
  intros _ _. apply binary_normalize_not_nan.
Qed.

(** Multiplying by 1.0 is exact. *)
Lemma SFmul_one_r x :
  valid_binary x = true →
  SFmul prec emax x (S754_finite false 4503599627370496 (-52)) = x.
Proof.
  destruct x as [[] | [] | | s m e]; simpl; try done.
  intros Hvalid. unfold bounded, canonical_mantissa in Hvalid.
  apply andb_true_iff in Hvalid as [Hcanon%Z.eqb_eq Hbound].
  rewrite xorb_false_r, Pos.mul_comm.
  change (Pos.mul 4503599627370496 m) with (Pos.iter xO m 52).
  assert (Zdigits2 (Zpos (Pos.iter xO m 52)) = Zpos (digits2_pos m) + 52) as Hdigits
    by (simpl; lia).
  unfold binary_round_aux.
  assert (shr_fexp prec emax (Zpos (Pos.iter xO m 52)) (e + -52) loc_Exact
          = (Build_shr_record (Zpos m) false false, e)) as ->.
  { unfold shr_fexp. rewrite Hdigits.
    replace (Zpos (digits2_pos m) + 52 + (e + -52)) with (Zpos (digits2_pos m) + e)
      by lia.
    rewrite Hcanon. replace (e - (e + -52)) with 52 by lia.
    unfold shr. f_equal. lia. }
  cbn [shr_m loc_of_shr_record round_nearest_even].
  assert (shr_fexp prec emax (Zpos m) e loc_Exact
          = (Build_shr_record (Zpos m) false false, e)) as ->.
  { unfold shr_fexp. cbn [Zdigits2]. rewrite Hcanon, Z.sub_diag. done. }
  cbn [shr_m]. by rewrite Hbound.
Qed.

Lemma b64_isnan_false (x : float) : isnan x = false ↔ sf_notnan (Prim2SF x) = true.
Proof. cbn. rewrite b64_is_nan_spec. by destruct (sf_notnan _). Qed.

Lemma b64_isfinite_spec (x : float) : isfinite x = sf_finite (Prim2SF x).
Proof.
  unfold isfinite. cbn. rewrite b64_is_nan_spec, !eqb_spec.
  change (Prim2SF infinity) with (S754_infinity false).
  change (Prim2SF neg_infinity) with (S754_infinity true).
  by destruct (Prim2SF x) as [[] | [] | | [] m e].
Qed.

#[export] Instance binary64_basic : BasicLaws float.
Proof.
  split.
  - intros a b. rewrite !b64_isnan_false. cbn. rewrite leb_spec.
    apply SFleb_not_nan.
  - intros a. rewrite b64_isnan_false. cbn. rewrite leb_spec. unfold SFleb.
    intros Ha. by rewrite SFcompare_refl.
  - intros a b c. cbn. rewrite !leb_spec. apply SFleb_trans.
  - intros a b. rewrite !b64_isnan_false. cbn. rewrite !leb_spec.
    apply SFleb_total.
  - intros a b. rewrite !b64_isnan_false. cbn. rewrite ltb_spec, leb_spec.
    apply SFltb_SFleb.
  - by vm_compute.
  - by vm_compute.
  - by vm_compute.
  - intros a b. rewrite !b64_isnan_false, b64_isfinite_spec. cbn.
    rewrite sub_spec. apply SFsub_not_nan.
  - intros a b. rewrite !b64_isnan_false, b64_isfinite_spec. cbn.
    rewrite add_spec. apply SFadd_not_nan.
  - intros a. cbn. apply Prim2SF_inj. rewrite mul_spec.
    change (Prim2SF one) with (S754_finite false 4503599627370496 (-52)).
    apply SFmul_one_r, Prim2SF_valid.
Qed.
(** *** Number of digits *)

Lemma digits2_pos_bounds p :
  2 ^ (Zpos (digits2_pos p) - 1) ≤ Zpos p < 2 ^ Zpos (digits2_pos p).
Proof.
  induction p as [p IH | p IH |]; simpl digits2_pos; rewrite ?Pos2Z.inj_succ.
  - replace (Z.succ (Zpos (digits2_pos p)) - 1) with (Z.succ (Zpos (digits2_pos p) - 1)) by lia.
    rewrite !Z.pow_succ_r by lia. lia.
  - replace (Z.succ (Zpos (digits2_pos p)) - 1) with (Z.succ (Zpos (digits2_pos p) - 1)) by lia.
    rewrite !Z.pow_succ_r by lia. lia.
  - simpl. lia.
Qed.

Lemma digits2_pos_unique p k :
  2 ^ (k - 1) ≤ Zpos p < 2 ^ k → Zpos (digits2_pos p) = k.
Proof.
  intros [Hlo Hhi]. pose proof (digits2_pos_bounds p) as [Hlo' Hhi'].
  assert (0 < k).
  { destruct (Z.lt_ge_cases 0 k) as [| Hk]; [done |].
    assert (2 ^ k ≤ 2 ^ 0) by (apply Z.pow_le_mono_r; lia). simpl in *. lia. }
  destruct (Z.lt_trichotomy (Zpos (digits2_pos p)) k) as [Hlt | [Heq | Hgt]]; [| done |].
  - assert (2 ^ Zpos (digits2_pos p) ≤ 2 ^ (k - 1)) by (apply Z.pow_le_mono_r; lia). lia.
  - assert (2 ^ k ≤ 2 ^ (Zpos (digits2_pos p) - 1)) by (apply Z.pow_le_mono_r; lia). lia.
Qed.

(** *** Shifting right with guard and sticky bits *)

Lemma shr_1_spec m r s :
  0 ≤ m → shr_1 (Build_shr_record m r s) = Build_shr_record (Z.div2 m) (Z.odd m) (r || s).
Proof. destruct m as [| [p | p |] | p]; simpl; try done; lia. Qed.

Lemma iter_pos_nat {A} (f : A → A) p x : iter_pos f p x = Nat.iter (Pos.to_nat p) f x.
Proof.
  revert x. induction p as [p IH | p IH |]; intros x; cbn [iter_pos].
  - rewrite !IH, Pos2Nat.inj_xI, Nat.iter_succ_r.
    replace (2 * Pos.to_nat p)%nat with (Pos.to_nat p + Pos.to_nat p)%nat by lia.
    by rewrite Nat.iter_add.
  - rewrite !IH, Pos2Nat.inj_xO.
    replace (2 * Pos.to_nat p)%nat with (Pos.to_nat p + Pos.to_nat p)%nat by lia.
    by rewrite Nat.iter_add.
  - done.
Qed.

(** After [k + 1] steps: the quotient, the last bit shifted out, and
    whether a lower bit was set. *)
Lemma iter_shr_1_spec (k : nat) N :
  0 ≤ N →
  Nat.iter (S k) shr_1 (Build_shr_record N false false)
  = Build_shr_record (N / 2 ^ Z.of_nat (S k))
                     (Z.odd (N / 2 ^ Z.of_nat k))
                     (negb (N mod 2 ^ Z.of_nat k =? 0)).
Proof.
  intros HN. induction k as [| k IH].
  - rewrite Nat.iter_succ. cbn [Nat.iter nat_rect]. rewrite shr_1_spec by done.
    change (2 ^ Z.of_nat 1) with 2. change (2 ^ Z.of_nat 0) with 1.
    by rewrite Z.div2_div, Z.div_1_r, Z.mod_1_r.
  - rewrite Nat.iter_succ, IH.
    assert (0 < 2 ^ Z.of_nat k) by (apply Z.pow_pos_nonneg; lia).
    assert (0 ≤ N / 2 ^ Z.of_nat (S k)) by (apply Z.div_pos; [done | apply Z.pow_pos_nonneg; lia]).
    rewrite shr_1_spec by done. f_equal.
    + rewrite Z.div2_div, Z.div_div by lia.
      f_equal. rewrite (Nat2Z.inj_succ (S k)), Z.pow_succ_r by lia. lia.
    + (* sticky: a bit below position S k is set *)
      rewrite (Nat2Z.inj_succ k), Z.pow_succ_r by lia.
      rewrite (Z.mul_comm 2), Z.rem_mul_r, Zmod_odd by lia.
      pose proof (Z.mod_pos_bound N (2 ^ Z.of_nat k) ltac:(lia)) as Hlow.
      destruct (Z.odd (N / 2 ^ Z.of_nat k)); simpl.
      * symmetry. apply negb_true_iff, Z.eqb_neq. lia.
      * by rewrite Z.mul_0_r, Z.add_0_r.
Qed.

(** Shifting [p] bits out and rounding to nearest even is [rne]. *)
Lemma shr_rne p N :
  0 ≤ N →
  let mrs := iter_pos shr_1 p (Build_shr_record N false false) in
  round_nearest_even (shr_m mrs) (loc_of_shr_record mrs) = rne N (Zpos p) ∧
  0 ≤ shr_m mrs.
Proof.
  intros HN. cbn zeta. rewrite iter_pos_nat.
  destruct (Pos2Nat.is_succ p) as [k Hk]. rewrite Hk, iter_shr_1_spec by done.
  assert (Zpos p = Z.succ (Z.of_nat k)) as Hp by lia.
  assert (0 < 2 ^ Z.of_nat k) as Hpow by (apply Z.pow_pos_nonneg; lia).
  rewrite Nat2Z.inj_succ, <- Hp. cbn [shr_m].
  split; [| apply Z.div_pos; [done | apply Z.pow_pos_nonneg; lia]].
  unfold rne. destruct (Zpos p =? 0) eqn:Hp0; [lia |]. clear Hp0.
  replace (Zpos p - 1) with (Z.of_nat k) by lia.
  replace (N mod 2 ^ Zpos p) with
    (N mod 2 ^ Z.of_nat k + 2 ^ Z.of_nat k * (if Z.odd (N / 2 ^ Z.of_nat k) then 1 else 0)).
  2:{ rewrite Hp, Z.pow_succ_r, (Z.mul_comm 2), Z.rem_mul_r, Zmod_odd by lia. done. }
  pose proof (Z.mod_pos_bound N (2 ^ Z.of_nat k) Hpow) as Hlow.
  destruct (Z.odd (N / 2 ^ Z.of_nat k)); simpl.
  - destruct (N mod 2 ^ Z.of_nat k =? 0) eqn:Hz; simpl.
    + apply Z.eqb_eq in Hz. rewrite Hz, Z.mul_1_r, Z.add_0_l, Z.compare_refl. done.
    + apply Z.eqb_neq in Hz.
      assert ((N mod 2 ^ Z.of_nat k + 2 ^ Z.of_nat k * 1 ?= 2 ^ Z.of_nat k) = Gt) as ->
        by (apply Z.compare_gt_iff; lia).
      done.
  - assert ((N mod 2 ^ Z.of_nat k + 2 ^ Z.of_nat k * 0 ?= 2 ^ Z.of_nat k) = Lt) as ->
      by (apply Z.compare_lt_iff; lia).
    by destruct (N mod 2 ^ Z.of_nat k =? 0).
Qed.

(** *** Properties of [rne] *)

Lemma rne_range N n : 0 ≤ N → 0 ≤ n → N / 2 ^ n ≤ rne N n ≤ N / 2 ^ n + 1.
Proof.
  intros HN Hn. unfold rne. destruct (n =? 0) eqn:Hn0.
  - apply Z.eqb_eq in Hn0 as ->. rewrite Z.pow_0_r, Z.div_1_r. lia.
  - destruct (_ ?= _); try destruct (Z.even _); lia.
Qed.

Lemma rne_mono N1 N2 n : 0 ≤ N1 ≤ N2 → 0 ≤ n → rne N1 n ≤ rne N2 n.
Proof.
  intros [HN1 HN12] Hn.
  pose proof (rne_range N1 n HN1 Hn). pose proof (rne_range N2 n ltac:(lia) Hn).
  assert (0 < 2 ^ n) as Hpow by (apply Z.pow_pos_nonneg; lia).
  pose proof (Z.div_le_mono N1 N2 (2 ^ n) Hpow HN12) as Hq.
  destruct (Z.eq_dec (N1 / 2 ^ n) (N2 / 2 ^ n)) as [Heq | Hne]; [| lia].
  unfold rne. destruct (n =? 0); [done |].
  rewrite Heq.
  assert (N1 mod 2 ^ n ≤ N2 mod 2 ^ n) as Hrem.
  { rewrite !Z.mod_eq by lia. rewrite Heq. lia. }
  destruct (Z.compare_spec (N1 mod 2 ^ n) (2 ^ (n - 1)));
    destruct (Z.compare_spec (N2 mod 2 ^ n) (2 ^ (n - 1)));
    try destruct (Z.even (N2 / 2 ^ n)); lia.
Qed.

(** Bits that are zero do not matter. *)
Lemma rne_shift A n j : 0 ≤ A → 0 ≤ n → 0 ≤ j → rne (A * 2 ^ j) (n + j) = rne A n.
Proof.
  intros HA Hn Hj.
  assert (0 < 2 ^ j) as Hpj by (apply Z.pow_pos_nonneg; lia).
  assert (0 < 2 ^ n) as Hpn by (apply Z.pow_pos_nonneg; lia).
  destruct (Z.eq_dec j 0) as [-> | Hj0].
  { by rewrite Z.pow_0_r, Z.mul_1_r, Z.add_0_r. }
  assert (A * 2 ^ j / 2 ^ (n + j) = A / 2 ^ n) as Hq.
  { rewrite Z.pow_add_r, Z.div_mul_cancel_r by lia. done. }
  assert ((A * 2 ^ j) mod 2 ^ (n + j) = A mod 2 ^ n * 2 ^ j) as Hr.
  { rewrite Z.pow_add_r, Z.mul_mod_distr_r by lia. done. }
  unfold rne. destruct (n + j =? 0) eqn:Hnj; [lia |]. rewrite Hq, Hr.
  destruct (n =? 0) eqn:Hn0.
  - apply Z.eqb_eq in Hn0 as ->.
    rewrite Z.pow_0_r, Z.mod_1_r, Z.div_1_r, Z.mul_0_l, Z.add_0_l.
    assert ((0 ?= 2 ^ (j - 1)) = Lt) as ->; [| done].
    apply Z.compare_lt_iff, Z.pow_pos_nonneg; lia.
  - apply Z.eqb_neq in Hn0.
    replace (n + j - 1) with (n - 1 + j) by lia.
    rewrite (Z.pow_add_r 2 (n - 1) j) by lia.
    rewrite <- Zmult_compare_compat_r by lia. done.
Qed.

(** Exact division is not rounded. *)
Lemma rne_exact A j : 0 ≤ A → 0 ≤ j → rne (A * 2 ^ j) j = A.
Proof.
  intros HA Hj. rewrite <- (Z.add_0_l j) at 2. rewrite rne_shift by lia.
  unfold rne. done.
Qed.

Lemma rne_bounds N n k :
  0 ≤ n → n < k → 2 ^ (k - 1) ≤ N < 2 ^ k →
  2 ^ (k - 1 - n) ≤ rne N n ≤ 2 ^ (k - n).
Proof.
  intros Hn Hnk [Hlo Hhi].
  assert (0 < 2 ^ n) as Hpn by (apply Z.pow_pos_nonneg; lia).
  assert (0 < 2 ^ (k - 1)) as Hpk by (apply Z.pow_pos_nonneg; lia).
  pose proof (rne_range N n ltac:(lia) Hn) as [Hq1 Hq2].
  assert (2 ^ (k - 1) = 2 ^ (k - 1 - n) * 2 ^ n) as Hk1.
  { rewrite <- Z.pow_add_r by lia. f_equal. lia. }
  assert (2 ^ k = 2 ^ (k - n) * 2 ^ n) as Hk.
  { rewrite <- Z.pow_add_r by lia. f_equal. lia. }
  split.
  - transitivity (N / 2 ^ n); [| done].
    apply Z.div_le_lower_bound; lia.
  - assert (N / 2 ^ n < 2 ^ (k - n)); [| lia].
    apply Z.div_lt_upper_bound; lia.
Qed.

(** Below [2^k] the rounded quotient is at most [2^(k-n)], or 1 when
    every bit is shifted out. *)
Lemma rne_upper N n k :
  0 ≤ N < 2 ^ k → 0 ≤ n → 0 ≤ k → rne N n ≤ 2 ^ Z.max (k - n) 0.
Proof.
  intros [HN Hhi] Hn Hk.
  assert (0 < 2 ^ n) as Hpn by (apply Z.pow_pos_nonneg; lia).
  pose proof (rne_range N n HN Hn) as [Hq1 Hq2].
  destruct (Z.le_gt_cases n k) as [Hnk | Hnk].
  - rewrite Z.max_l by lia.
    assert (2 ^ k = 2 ^ (k - n) * 2 ^ n) as Hkn.
    { rewrite <- Z.pow_add_r by lia. f_equal. lia. }
    assert (N / 2 ^ n < 2 ^ (k - n)); [| lia].
    apply Z.div_lt_upper_bound; lia.
  - rewrite Z.max_r by lia. simpl.
    assert (N / 2 ^ n = 0); [| lia].
    apply Z.div_small. split; [done |].
    assert (2 ^ k ≤ 2 ^ n) by (apply Z.pow_le_mono_r; lia). lia.
Qed.

(** *** The rounding of binary64 *)

Lemma fexp_b64 k : fexp prec emax k = Z.max (k - 53) (-1074).
Proof. done. Qed.

Lemma Zdigits2_unique q k : 0 < q → 2 ^ (k - 1) ≤ q < 2 ^ k → Zdigits2 q = k.
Proof.
  intros Hq Hk. destruct q as [| p | p]; [lia | | lia].
  simpl. by apply digits2_pos_unique.
Qed.

Lemma Zdigits2_le q k : 0 < q < 2 ^ k → 0 ≤ k → 0 < Zdigits2 q ≤ k.
Proof.
  intros [Hq Hk] Hk0. destruct q as [| p | p]; [lia | | lia].
  simpl. pose proof (digits2_pos_bounds p) as [Hlo _]. split; [lia |].
  destruct (Z.le_gt_cases (Zpos (digits2_pos p)) k) as [| Hgt]; [done |].
  assert (2 ^ k ≤ 2 ^ (Zpos (digits2_pos p) - 1)) by (apply Z.pow_le_mono_r; lia).
  lia.
Qed.

(** The second normalisation of [binary_round_aux]: a mantissa of at most
    53 bits stays, [2^53] is shifted once. *)
Lemma renormalise_spec s q c :
  0 ≤ q ≤ 2 ^ 53 → -1074 ≤ c → (q < 2 ^ 52 → c = -1074) →
  (let '(mrs, e) := shr_fexp prec emax q c loc_Exact in
   match shr_m mrs with
   | Z0 => S754_zero s
   | Zpos m => if e <=? emax - prec then S754_finite s m e else S754_infinity s
   | Zneg _ => S754_nan
   end) = enc s q c.
Proof.
  intros [Hq0 Hq] Hc Hsub. unfold shr_fexp, enc, enc_norm. rewrite fexp_b64.
  destruct (Z.eq_dec q (2 ^ 53)) as [-> | Hne].
  - (* carry *)
    change (Zdigits2 (2 ^ 53)) with 54.
    replace (Z.max (54 + c - 53) (-1074) - c) with 1 by lia.
    done.
  - assert ((q =? 2 ^ 53) = false) as -> by (by apply Z.eqb_neq).
    assert (Z.max (Zdigits2 q + c - 53) (-1074) - c = 0) as ->.
    { destruct (Z.eq_dec q 0) as [-> | Hq1]; [simpl; lia |].
      destruct (Z.lt_ge_cases q (2 ^ 52)) as [Hlt | Hge].
      - pose proof (Zdigits2_le q 52 ltac:(lia) ltac:(lia)). lia.
      - rewrite (Zdigits2_unique q 53) by (simpl; lia). lia. }
    simpl. by destruct q.
Qed.

(** [binary_round_aux] on an exact mantissa whose target exponent is not
    below its own. *)
Lemma binary_round_aux_spec s M e :
  let c := fexp prec emax (Zpos (digits2_pos M) + e) in
  e ≤ c →
  binary_round_aux prec emax s (Zpos M) e loc_Exact = enc s (rne (Zpos M) (c - e)) c.
Proof.
  intros c Hec. unfold binary_round_aux.
  pose proof (digits2_pos_bounds M) as HM.
  assert (-1074 ≤ c) as Hc by (unfold c; rewrite fexp_b64; lia).
  assert (∃ mrs, shr_fexp prec emax (Zpos M) e loc_Exact = (mrs, c) ∧
                 round_nearest_even (shr_m mrs) (loc_of_shr_record mrs)
                 = rne (Zpos M) (c - e)) as (mrs & -> & ->).
  { unfold shr_fexp. cbn [Zdigits2]. fold c. unfold shr.
    destruct (c - e) as [| p | p] eqn:Hn; [| | lia].
    - eexists. split; [f_equal; lia | done].
    - eexists. split; [f_equal; lia |].
      by apply shr_rne. }
  apply renormalise_spec.
  - (* the rounded mantissa has at most 53 bits, or is 2^53 *)
    split; [pose proof (rne_range (Zpos M) (c - e) ltac:(lia) ltac:(lia));
            assert (0 ≤ Zpos M / 2 ^ (c - e)) by (apply Z.div_pos; [lia | apply Z.pow_pos_nonneg; lia]);
            lia |].
    pose proof (rne_upper (Zpos M) (c - e) (Zpos (digits2_pos M))
                  ltac:(lia) ltac:(lia) ltac:(lia)) as Hup.
    etrans; [exact Hup |]. apply Z.pow_le_mono_r; [lia |].
    unfold c. rewrite fexp_b64. lia.
  - done.
  - (* below 2^52 only in the subnormal range *)
    intros Hsmall. unfold c in *. rewrite fexp_b64 in *.
    destruct (Z.le_gt_cases (Zpos (digits2_pos M) + e - 53) (-1074)) as [| Hnormal]; [lia |].
    exfalso.
    pose proof (rne_bounds (Zpos M) (Z.max (Zpos (digits2_pos M) + e - 53) (-1074) - e)
                  (Zpos (digits2_pos M)) ltac:(lia) ltac:(lia) HM) as [Hlo _].
    replace (Zpos (digits2_pos M) - 1
             - (Z.max (Zpos (digits2_pos M) + e - 53) (-1074) - e)) with 52 in Hlo by lia.
    lia.
Qed.

Lemma Pos_iter_xO m d : Zpos (Pos.iter xO m d) = Zpos m * 2 ^ Zpos d.
Proof.
  induction d as [| d IH] using Pos.peano_ind.
  - simpl. lia.
  - rewrite Pos.iter_succ, Pos2Z.inj_xO, IH, Pos2Z.inj_succ, Z.pow_succ_r by lia. lia.
Qed.

Lemma digits2_pos_shift M (N : positive) j :
  0 ≤ j → Zpos N = Zpos M * 2 ^ j → Zpos (digits2_pos N) = Zpos (digits2_pos M) + j.
Proof.
  intros Hj HN. apply digits2_pos_unique. rewrite HN.
  pose proof (digits2_pos_bounds M) as [Hlo Hhi].
  assert (0 < 2 ^ j) by (apply Z.pow_pos_nonneg; lia).
  replace (Zpos (digits2_pos M) + j - 1) with (Zpos (digits2_pos M) - 1 + j) by lia.
  rewrite !Z.pow_add_r by lia. nia.
Qed.

(** [binary_round] depends only on the value [M * 2^e], here written as
    the integer [N = M * 2^(e + 1074)]. *)
Lemma binary_round_spec s M e (N : positive) :
  -1074 ≤ e → Zpos N = Zpos M * 2 ^ (e + 1074) →
  binary_round prec emax s M e = rnd64_pos s N.
Proof.
  intros He HN. unfold binary_round, rnd64_pos.
  rewrite (digits2_pos_shift M N (e + 1074)) by (done || lia).
  replace (Zpos (digits2_pos M) + (e + 1074) - 1074) with (Zpos (digits2_pos M) + e) by lia.
  set (c := fexp prec emax (Zpos (digits2_pos M) + e)).
  assert (-1074 ≤ c) as Hc by (unfold c; rewrite fexp_b64; lia).
  unfold shl_align. destruct (c - e) as [| p | p] eqn:Hce.
  - (* no alignment, no shift *)
    rewrite binary_round_aux_spec; fold c; [| lia].
    f_equal. rewrite HN. replace (c + 1074) with (0 + (e + 1074)) by lia.
    rewrite rne_shift by lia. f_equal. lia.
  - rewrite binary_round_aux_spec; fold c; [| lia].
    f_equal. rewrite HN. replace (c + 1074) with ((c - e) + (e + 1074)) by lia.
    by rewrite rne_shift by lia.
  - (* the mantissa is shifted left to the target exponent *)
    assert (Zpos (digits2_pos (Pos.iter xO M p)) + c = Zpos (digits2_pos M) + e) as Hd.
    { rewrite (digits2_pos_shift M _ (Zpos p)); [lia | lia | apply Pos_iter_xO]. }
    rewrite binary_round_aux_spec; rewrite Hd; fold c; [| lia].
    f_equal. rewrite Z.sub_diag, HN, Pos_iter_xO.
    replace (Zpos M * 2 ^ (e + 1074)) with (Zpos M * 2 ^ Zpos p * 2 ^ (c + 1074)).
    2:{ rewrite <- Z.mul_assoc, <- Z.pow_add_r by lia. do 2 f_equal. lia. }
    rewrite rne_exact; [done | lia | lia].
Qed.

Lemma binary_normalize_spec M e :
  -1074 ≤ e → binary_normalize prec emax M e false = rnd64 (M * 2 ^ (e + 1074)).
Proof.
  intros He. assert (0 < 2 ^ (e + 1074)) as Hpow by (apply Z.pow_pos_nonneg; lia).
  destruct M as [| M | M]; simpl binary_normalize.
  - done.
  - destruct (Zpos M * 2 ^ (e + 1074)) as [| N | N] eqn:HN; [lia | | lia].
    by apply binary_round_spec.
  - destruct (Zneg M * 2 ^ (e + 1074)) as [| N | N] eqn:HN; [lia | lia |].
    apply binary_round_spec; [done | lia].
Qed.

Lemma digits2_pos_mono N1 N2 :
  (N1 ≤ N2)%positive → Zpos (digits2_pos N1) ≤ Zpos (digits2_pos N2).
Proof.
  intros HN. pose proof (digits2_pos_bounds N1) as [Hlo _].
  pose proof (digits2_pos_bounds N2) as [_ Hhi].
  destruct (Z.le_gt_cases (Zpos (digits2_pos N1)) (Zpos (digits2_pos N2))) as [| Hgt];
    [done |].
  assert (2 ^ Zpos (digits2_pos N2) ≤ 2 ^ (Zpos (digits2_pos N1) - 1))
    by (apply Z.pow_le_mono_r; lia).
  lia.
Qed.

(** Positive encodings are ordered by exponent, then by mantissa. *)
Lemma enc_norm_le m1 e1 m2 e2 :
  0 < m1 → 0 < m2 → e1 < e2 ∨ (e1 = e2 ∧ m1 ≤ m2) →
  SFleb (enc_norm false m1 e1) (enc_norm false m2 e2) = true.
Proof.
  intros Hm1 Hm2 Hlex. unfold enc_norm.
  destruct m1 as [| m1 | m1]; [lia | | lia].
  destruct m2 as [| m2 | m2]; [lia | | lia].
  destruct (Z.leb_spec e1 (emax - prec)), (Z.leb_spec e2 (emax - prec));
    unfold SFleb, SFcompare; try done.
  - destruct (Z.compare_spec e1 e2); [| done | lia].
    change (Pos.compare_cont Eq) with Pos.compare.
    destruct (Pos.compare_spec m1 m2); [done | done | lia].
  - lia.
Qed.

Lemma SFleb_opp x y : SFleb x y = true → SFleb (SFopp y) (SFopp x) = true.
Proof. sf_order. Qed.

Lemma enc_opp q c : enc true q c = SFopp (enc false q c).
Proof.
  unfold enc, enc_norm.
  destruct (if q =? 2 ^ 53 then 2 ^ 52 else q); [done | | done].
  by destruct (_ <=? _).
Qed.

Lemma rdiv_range A B : A / B ≤ rdiv A B ≤ A / B + 1.
Proof. unfold rdiv. destruct (_ ?= _); try destruct (Z.even _); lia. Qed.

Lemma div_cross_mono A B A' B' :
  0 < B → 0 < B' → A * B' ≤ A' * B → A / B ≤ A' / B'.
Proof.
  intros HB HB' Hc. apply Z.div_le_lower_bound; [done |].
  pose proof (Z.mul_div_le A B HB) as Hq.
  assert (B * (B' * (A / B)) ≤ B * A') by nia.
  apply Z.mul_le_mono_pos_l in H; lia.
Qed.

Lemma rdiv_cross_mono A B A' B' :
  0 < B → 0 < B' → A * B' ≤ A' * B → rdiv A B ≤ rdiv A' B'.
Proof.
  intros HB HB' Hc.
  pose proof (div_cross_mono A B A' B' HB HB' Hc) as Hq.
  pose proof (rdiv_range A B). pose proof (rdiv_range A' B').
  destruct (Z.eq_dec (A / B) (A' / B')) as [Heq | Hne]; [| lia].
  unfold rdiv. rewrite <- Heq.
  pose proof (Z.div_mod A B ltac:(lia)) as HA.
  pose proof (Z.div_mod A' B' ltac:(lia)) as HA'.
  rewrite <- Heq in HA'.
  set (h := A / B) in *. set (R := A mod B) in *. set (R' := A' mod B') in *.
  assert (R * B' ≤ R' * B) as HR by nia.
  destruct (Z.compare_spec (2 * R) B); destruct (Z.compare_spec (2 * R') B');
    try destruct (Z.even h); try lia; nia.
Qed.

Lemma rdiv_ext A B A' B' :
  0 < B → 0 < B' → A * B' = A' * B → rdiv A B = rdiv A' B'.
Proof.
  intros HB HB' Hc.
  pose proof (rdiv_cross_mono A B A' B' HB HB' ltac:(lia)).
  pose proof (rdiv_cross_mono A' B' A B HB' HB ltac:(lia)). lia.
Qed.

Lemma rdiv_int k B : 0 < B → rdiv (k * B) B = k.
Proof.
  intros HB. unfold rdiv. rewrite Z.mod_mul, Z.div_mul by lia.
  assert ((2 * 0 ?= B) = Lt) as -> by (apply Z.compare_lt_iff; lia). done.
Qed.

Lemma rdiv_le_int A B k : 0 < B → A ≤ k * B → rdiv A B ≤ k.
Proof.
  intros HB HA. rewrite <- (rdiv_int k B HB). apply rdiv_cross_mono; [done | done | nia].
Qed.

Lemma rdiv_ge_int A B k : 0 < B → k * B ≤ A → k ≤ rdiv A B.
Proof.
  intros HB HA. rewrite <- (rdiv_int k B HB). apply rdiv_cross_mono; [done | done | nia].
Qed.

Lemma rne_rdiv N n : 0 ≤ n → rne N n = rdiv N (2 ^ n).
Proof.
  intros Hn. unfold rne, rdiv. destruct (n =? 0) eqn:Hn0.
  - apply Z.eqb_eq in Hn0 as ->. rewrite Z.pow_0_r, Z.mod_1_r, Z.div_1_r. done.
  - apply Z.eqb_neq in Hn0.
    assert (2 * 2 ^ (n - 1) = 2 ^ n) as Hpow
      by (rewrite <- Z.pow_succ_r by lia; f_equal; lia).
    rewrite (Zmult_compare_compat_l (N mod 2 ^ n) (2 ^ (n - 1)) 2), Hpow by lia.
    done.
Qed.

Lemma Zdigits2_bounds N : 0 < N → 2 ^ (Zdigits2 N - 1) ≤ N < 2 ^ Zdigits2 N.
Proof. destruct N; [lia | | lia]. intros _. apply digits2_pos_bounds. Qed.

Lemma Zdigits2_nonneg N : 0 ≤ Zdigits2 N.
Proof. destruct N; simpl; lia. Qed.

Lemma Zdigits2_mono N1 N2 : 0 ≤ N1 ≤ N2 → Zdigits2 N1 ≤ Zdigits2 N2.
Proof.
  intros [H1 H12]. destruct N1 as [| p1 | p1]; [apply Zdigits2_nonneg | | lia].
  destruct N2 as [| p2 | p2]; [lia | | lia].
  apply digits2_pos_mono. lia.
Qed.

(** Below [2^d] when the number of digits is [d]. *)
Lemma Zdigits2_upper N : 0 ≤ N → N < 2 ^ Zdigits2 N.
Proof.
  intros HN. destruct (Z.eq_dec N 0) as [-> | ]; [done |].
  apply Zdigits2_bounds. lia.
Qed.

(** *** Rounding a fraction to binary64 *)

Lemma rnd_frac_cases A B :
  0 ≤ A → 0 < B →
  let d := Zdigits2 (A / B) in
  let c := fexp prec emax (d - 1074) in
  let q := rdiv A (B * 2 ^ (c + 1074)) in
  (d ≤ 53 ∧ c = -1074 ∧ 0 ≤ q ≤ 2 ^ 53) ∨
  (53 < d ∧ c = d - 1127 ∧ 2 ^ 52 ≤ q ≤ 2 ^ 53).
Proof.
  intros HA HB d c q.
  assert (0 ≤ A / B) as HN by (apply Z.div_pos; lia).
  pose proof (Zdigits2_upper (A / B) HN) as Hup. fold d in Hup.
  pose proof (Zdigits2_nonneg (A / B)) as Hd0. fold d in Hd0.
  assert (A < (A / B + 1) * B) as HAup.
  { pose proof (Z.div_mod A B ltac:(lia)). pose proof (Z.mod_pos_bound A B HB). nia. }
  assert (A / B * B ≤ A) as HAlo by (rewrite Z.mul_comm; apply Z.mul_div_le; lia).
  unfold q, c. rewrite fexp_b64.
  destruct (Z.le_gt_cases d 53) as [Hd | Hd]; [left | right].
  - replace (Z.max (d - 1074 - 53) (-1074)) with (-1074) by lia.
    change (-1074 + 1074) with 0. rewrite Z.pow_0_r, Z.mul_1_r.
    assert (2 ^ d ≤ 2 ^ 53) by (apply Z.pow_le_mono_r; lia).
    split; [done | split; [done |]]. split.
    + pose proof (rdiv_range A B). lia.
    + apply rdiv_le_int; [done | nia].
  - replace (Z.max (d - 1074 - 53) (-1074)) with (d - 1127) by lia.
    split; [done | split; [done |]].
    replace (d - 1127 + 1074) with (d - 53) by lia.
    assert (0 < 2 ^ (d - 53)) as Hpj by (apply Z.pow_pos_nonneg; lia).
    assert (2 ^ d = 2 ^ 53 * 2 ^ (d - 53)) as Hd53
      by (rewrite <- Z.pow_add_r by lia; f_equal; lia).
    assert (2 ^ (d - 1) = 2 ^ 52 * 2 ^ (d - 53)) as Hd52
      by (rewrite <- Z.pow_add_r by lia; f_equal; lia).
    assert (0 < A / B) as Hpos.
    { destruct (Z.eq_dec (A / B) 0) as [Hz | ]; [| lia].
      unfold d in Hd. rewrite Hz in Hd. simpl in Hd. lia. }
    pose proof (Zdigits2_bounds (A / B) Hpos) as [Hlo _]. fold d in Hlo.
    split.
    + apply rdiv_ge_int; [nia |]. nia.
    + apply rdiv_le_int; [nia |]. nia.
Qed.

(** Encodings of mantissas that are not negative are ordered by exponent,
    then by mantissa; zero is below all. *)
Lemma enc_norm_le0 m1 e1 m2 e2 :
  0 ≤ m1 → 0 ≤ m2 →
  m1 = 0 ∨ (0 < m2 ∧ (e1 < e2 ∨ (e1 = e2 ∧ m1 ≤ m2))) →
  SFleb (enc_norm false m1 e1) (enc_norm false m2 e2) = true.
Proof.
  intros Hm1 Hm2 [-> | [Hpos Hlex]].
  - unfold enc_norm. destruct m2 as [| m2 | m2]; [done | | lia].
    by destruct (_ <=? _).
  - destruct (Z.eq_dec m1 0) as [-> | Hne].
    + unfold enc_norm. destruct m2 as [| m2 | m2]; [done | | lia].
      by destruct (_ <=? _).
    + apply enc_norm_le; [lia | done | done].
Qed.

Lemma enc_le0 q1 c1 q2 c2 :
  0 ≤ q1 → 0 ≤ q2 →
  (let e1 := if q1 =? 2 ^ 53 then c1 + 1 else c1 in
   let e2 := if q2 =? 2 ^ 53 then c2 + 1 else c2 in
   let m1 := if q1 =? 2 ^ 53 then 2 ^ 52 else q1 in
   let m2 := if q2 =? 2 ^ 53 then 2 ^ 52 else q2 in
   m1 = 0 ∨ (0 < m2 ∧ (e1 < e2 ∨ (e1 = e2 ∧ m1 ≤ m2)))) →
  SFleb (enc false q1 c1) (enc false q2 c2) = true.
Proof.
  intros Hq1 Hq2 Hlex. unfold enc. apply enc_norm_le0; [| | exact Hlex].
  - by destruct (q1 =? 2 ^ 53).
  - by destruct (q2 =? 2 ^ 53).
Qed.

Lemma rnd_frac_mono A B A' B' :
  0 ≤ A → 0 < B → 0 < B' → A * B' ≤ A' * B →
  SFleb (rnd_frac false A B) (rnd_frac false A' B') = true.
Proof.
  intros HA HB HB' Hc.
  assert (0 ≤ A') as HA' by nia.
  assert (0 ≤ A / B) as HN by (apply Z.div_pos; lia).
  pose proof (div_cross_mono A B A' B' HB HB' Hc) as HNN.
  pose proof (Zdigits2_mono (A / B) (A' / B') ltac:(lia)) as Hd.
  unfold rnd_frac.
  pose proof (rnd_frac_cases A B HA HB) as H1.
  pose proof (rnd_frac_cases A' B' HA' HB') as H2.
  cbn zeta in H1, H2.
  set (d1 := Zdigits2 (A / B)) in *. set (d2 := Zdigits2 (A' / B')) in *.
  set (c1 := fexp prec emax (d1 - 1074)) in *.
  set (c2 := fexp prec emax (d2 - 1074)) in *.
  assert (c1 = c2 → rdiv A (B * 2 ^ (c1 + 1074)) ≤ rdiv A' (B' * 2 ^ (c2 + 1074))) as Hsame.
  { intros Heq. rewrite <- Heq.
    assert (-1074 ≤ c1) by (unfold c1; rewrite fexp_b64; lia).
    assert (0 < 2 ^ (c1 + 1074)) by (apply Z.pow_pos_nonneg; lia).
    apply rdiv_cross_mono; nia. }
  set (q1 := rdiv A _) in *. set (q2 := rdiv A' _) in *.
  assert (c1 ≤ c2) as Hcc by (unfold c1, c2; rewrite !fexp_b64; lia).
  apply enc_le0; [lia | lia |]. cbn zeta.
  destruct (q1 =? 2 ^ 53) eqn:E1, (q2 =? 2 ^ 53) eqn:E2;
    rewrite ?Z.eqb_eq, ?Z.eqb_neq in E1, E2.
  all: destruct (Z.eq_dec c1 c2) as [Heq | Hne]; [specialize (Hsame Heq) |]; lia.
Qed.

(** The result depends on the fraction only. *)
Lemma rnd_frac_ext s A B A' B' :
  0 ≤ A → 0 < B → 0 < B' → A * B' = A' * B → rnd_frac s A B = rnd_frac s A' B'.
Proof.
  intros HA HB HB' Hc. unfold rnd_frac.
  assert (A / B = A' / B') as ->.
  { pose proof (div_cross_mono A B A' B' HB HB' ltac:(lia)).
    pose proof (div_cross_mono A' B' A B HB' HB ltac:(lia)). lia. }
  set (c := fexp prec emax _).
  assert (-1074 ≤ c) by (unfold c; rewrite fexp_b64; lia).
  assert (0 < 2 ^ (c + 1074)) by (apply Z.pow_pos_nonneg; lia).
  f_equal. apply rdiv_ext; nia.
Qed.

Lemma rnd_frac_opp A B : rnd_frac true A B = SFopp (rnd_frac false A B).
Proof. apply enc_opp. Qed.

Lemma rnd_frac_nonneg A B : 0 ≤ A → 0 < B → sf_nonneg (rnd_frac false A B) = true.
Proof.
  intros HA HB. unfold rnd_frac.
  pose proof (rnd_frac_cases A B HA HB) as Hcases. cbn zeta in Hcases.
  set (c := fexp prec emax _) in *. set (q := rdiv _ _) in *.
  assert (0 ≤ q) as Hq by lia.
  unfold enc, enc_norm.
  destruct (q =? 2 ^ 53).
  - change (2 ^ 52) with (Zpos 4503599627370496). by destruct (_ <=? _).
  - destruct q as [| p | p]; [done | | lia]. by destruct (_ <=? _).
Qed.

Lemma SFleb_nonneg_opp x y :
  sf_nonneg x = true → sf_nonneg y = true → SFleb (SFopp x) y = true.
Proof. sf_order. Qed.

Lemma rnd_sfrac_nonneg A B : 0 ≤ A → 0 < B → sf_nonneg (rnd_sfrac A B) = true.
Proof.
  intros HA HB. destruct A; [done | | lia]. by apply rnd_frac_nonneg.
Qed.

Lemma rnd_sfrac_opp A B : 0 ≤ A → 0 < B → sf_nonneg (SFopp (rnd_sfrac (- A) B)) = true.
Proof.
  intros HA HB. destruct A as [| p | p]; [done | | lia].
  simpl. rewrite rnd_frac_opp.
  pose proof (rnd_frac_nonneg (Zpos p) B HA HB).
  by destruct (rnd_frac false _ _) as [[] | [] | | [] ? ?].
Qed.

Lemma SFopp_involutive x : SFopp (SFopp x) = x.
Proof. destruct x as [[] | [] | | [] ? ?]; done. Qed.

Lemma rnd_sfrac_mono A B A' B' :
  0 < B → 0 < B' → A * B' ≤ A' * B →
  SFleb (rnd_sfrac A B) (rnd_sfrac A' B') = true.
Proof.
  intros HB HB' Hc.
  destruct A as [| p | p], A' as [| p' | p']; try done; try nia.
  - pose proof (rnd_sfrac_nonneg (Zpos p') B' ltac:(lia) HB').
    by destruct (rnd_sfrac _ _) as [[] | [] | | [] ? ?].
  - by apply rnd_frac_mono.
  - simpl. rewrite rnd_frac_opp.
    apply (SFleb_nonneg_opp _ (S754_zero false)); [| done].
    by apply rnd_frac_nonneg.
  - simpl. rewrite rnd_frac_opp.
    apply SFleb_nonneg_opp; by apply rnd_frac_nonneg.
  - simpl. rewrite !rnd_frac_opp. apply SFleb_opp.
    apply rnd_frac_mono; [done | done | done | nia].
Qed.

Lemma rnd_sfrac_ext A B A' B' :
  0 < B → 0 < B' → A * B' = A' * B → rnd_sfrac A B = rnd_sfrac A' B'.
Proof.
  intros HB HB' Hc.
  destruct A as [| p | p], A' as [| p' | p']; try done; try nia; simpl.
  - by apply rnd_frac_ext.
  - apply rnd_frac_ext; [done | done | done | nia].
Qed.

Lemma rnd_sfrac_not_nan A B : 0 < B → sf_notnan (rnd_sfrac A B) = true.
Proof.
  intros HB. pose proof (rnd_sfrac_mono A B A B HB HB ltac:(lia)) as H.
  by destruct (rnd_sfrac A B).
Qed.

(** Integers: [rnd64 N] is the rounding of [N / 1]. *)
Lemma rnd_sfrac_int N : rnd_sfrac N 1 = rnd64 N.
Proof.
  assert (∀ s p, rnd_frac s (Zpos p) 1 = rnd64_pos s p) as Hpos.
  { intros s p. unfold rnd_frac, rnd64_pos. rewrite Z.div_1_r. simpl Zdigits2.
    set (c := fexp prec emax _).
    assert (0 ≤ c + 1074) by (unfold c; rewrite fexp_b64; lia).
    by rewrite Z.mul_1_l, rne_rdiv. }
  destruct N; simpl; auto.
Qed.

Lemma rnd64_mono N1 N2 : N1 ≤ N2 → SFleb (rnd64 N1) (rnd64 N2) = true.
Proof. intros HN. rewrite <- !rnd_sfrac_int. apply rnd_sfrac_mono; lia. Qed.

Lemma rnd64_not_nan N : sf_notnan (rnd64 N) = true.
Proof. rewrite <- rnd_sfrac_int. by apply rnd_sfrac_not_nan. Qed.

(** *** Valid floats are rounded to themselves *)

Lemma bounded_spec m e :
  bounded prec emax m e = true →
  -1074 ≤ e ≤ 971 ∧ Zpos (digits2_pos m) ≤ 53 ∧
  fexp prec emax (Zpos (digits2_pos m) + e) = e.
Proof.
  unfold bounded, canonical_mantissa. intros [Hc%Z.eqb_eq Hb%Z.leb_le]%andb_true_iff.
  rewrite fexp_b64 in *. change (emax - prec) with 971 in Hb. lia.
Qed.

Lemma rnd64_valid s m e :
  bounded prec emax m e = true →
  rnd64 (sf_int (S754_finite s m e)) = S754_finite s m e.
Proof.
  intros Hvalid. pose proof Hvalid as (He & Hd & Hc)%bounded_spec.
  assert (0 < 2 ^ (e + 1074)) as Hpow by (apply Z.pow_pos_nonneg; lia).
  assert (∀ N : positive, Zpos N = Zpos m * 2 ^ (e + 1074) →
            rnd64_pos s N = S754_finite s m e) as Hpos.
  { intros N HN. unfold rnd64_pos.
    rewrite (digits2_pos_shift m N (e + 1074)) by (lia || done).
    replace (Zpos (digits2_pos m) + (e + 1074) - 1074)
      with (Zpos (digits2_pos m) + e) by lia.
    rewrite Hc, HN, rne_exact by lia.
    pose proof (digits2_pos_bounds m) as [_ Hm].
    assert (2 ^ Zpos (digits2_pos m) ≤ 2 ^ 53) by (apply Z.pow_le_mono_r; lia).
    unfold enc, enc_norm.
    assert ((Zpos m =? 2 ^ 53) = false) as -> by (apply Z.eqb_neq; lia).
    assert ((e <=? emax - prec) = true) as ->; [| done].
    apply Z.leb_le. change (emax - prec) with 971. lia. }
  unfold sf_int. destruct s; unfold cond_Zopp.
  - change (- Zpos m) with (Zneg m).
    destruct (Zneg m * 2 ^ (e + 1074)) as [| N | N] eqn:HN; [lia | lia |].
    simpl. apply Hpos. lia.
  - destruct (Zpos m * 2 ^ (e + 1074)) as [| N | N] eqn:HN; [lia | | lia].
    simpl. by apply Hpos.
Qed.

(** Floats that compare equal have the same value. *)
Lemma SFleb_antisym_int x y :
  sf_finite x = true → sf_finite y = true →
  SFleb x y = true → SFleb y x = true → sf_int x = sf_int y.
Proof.
  unfold SFleb, SFcompare.
  destruct x as [[] | [] | | [] mx ex], y as [[] | [] | | [] my ey]; simpl; try done.
  all: change (Pos.compare_cont Eq) with Pos.compare.
  all: destruct (Z.compare_spec ex ey); destruct (Z.compare_spec ey ex);
    try done; try lia.
  all: destruct (Pos.compare_spec mx my); destruct (Pos.compare_spec my mx);
    try done; try lia.
  all: by subst.
Qed.

Lemma SFleb_refl x : sf_notnan x = true → SFleb x x = true.
Proof. sf_order. Qed.

Lemma SFleb_zero_zero s1 s2 : SFleb (S754_zero s1) (S754_zero s2) = true.
Proof. done. Qed.

(** On valid finite floats the comparison is that of the values. *)
Lemma rnd64_sf_int x :
  valid_binary x = true → sf_finite x = true →
  SFleb x (rnd64 (sf_int x)) = true ∧ SFleb (rnd64 (sf_int x)) x = true.
Proof.
  destruct x as [s | s | | s m e]; [by destruct s | done | done |].
  intros Hvalid _. rewrite (rnd64_valid s m e Hvalid).
  split; by apply SFleb_refl.
Qed.

Lemma SFleb_sf_int x y :
  valid_binary x = true → valid_binary y = true →
  sf_finite x = true → sf_finite y = true →
  SFleb x y = true → sf_int x ≤ sf_int y.
Proof.
  intros Hvx Hvy Hfx Hfy Hxy.
  destruct (Z.le_gt_cases (sf_int x) (sf_int y)) as [| Hgt]; [done |].
  assert (SFleb y x = true) as Hyx.
  { destruct (rnd64_sf_int x Hvx Hfx) as [_ Hx], (rnd64_sf_int y Hvy Hfy) as [Hy _].
    eapply SFleb_trans; [exact Hy |]. eapply SFleb_trans; [| exact Hx].
    apply rnd64_mono. lia. }
  rewrite (SFleb_antisym_int x y) by done. lia.
Qed.

(** *** Addition and subtraction round the exact sum *)

Lemma shl_align_spec mx ex ez :
  -1074 ≤ ez → ez ≤ ex →
  Zpos (fst (shl_align mx ex ez)) * 2 ^ (ez + 1074) = Zpos mx * 2 ^ (ex + 1074).
Proof.
  intros Hz Hx. unfold shl_align.
  destruct (ez - ex) as [| d | d] eqn:Hd; simpl fst.
  - by replace ex with ez by lia.
  - lia.
  - unfold shift_pos. rewrite Pos_iter_xO.
    replace (ex + 1074) with (Zpos d + (ez + 1074)) by lia.
    rewrite (Z.pow_add_r 2 (Zpos d) (ez + 1074)) by lia. ring.
Qed.

Lemma cond_Zopp_mul s z k : cond_Zopp s z * k = cond_Zopp s (z * k).
Proof. destruct s; simpl; lia. Qed.

Lemma aligned_sum (op : Z → Z → Z) sx mx ex sy my ey :
  (∀ a b k, op a b * k = op (a * k) (b * k)) →
  bounded prec emax mx ex = true → bounded prec emax my ey = true →
  let ez := Z.min ex ey in
  binary_normalize prec emax
    (op (cond_Zopp sx (Zpos (fst (shl_align mx ex ez))))
        (cond_Zopp sy (Zpos (fst (shl_align my ey ez))))) ez false =
  rnd64 (op (sf_int (S754_finite sx mx ex)) (sf_int (S754_finite sy my ey))).
Proof.
  intros Hop (Hx & _)%bounded_spec (Hy & _)%bounded_spec ez.
  rewrite binary_normalize_spec by lia.
  unfold sf_int. rewrite Hop, !cond_Zopp_mul, !shl_align_spec by lia. done.
Qed.

Lemma sf_eqv_refl x : sf_notnan x = true → sf_eqv x x.
Proof. intros. split; by apply SFleb_refl. Qed.

Lemma sf_eqv_eq x y : sf_notnan x = true → x = y → sf_eqv x y.
Proof. intros Hx <-. by apply sf_eqv_refl. Qed.

Lemma SFadd_rnd64 x y :
  valid_binary x = true → valid_binary y = true →
  sf_finite x = true → sf_finite y = true →
  sf_eqv (SFadd prec emax x y) (rnd64 (sf_int x + sf_int y)).
Proof.
  destruct x as [sx | sx | | sx mx ex], y as [sy | sy | | sy my ey]; try done;
    intros Hvx Hvy _ _.
  - by destruct sx, sy.
  - apply sf_eqv_eq; [done |]. symmetry. apply (rnd64_valid sy my ey Hvy).
  - apply sf_eqv_eq; [done |]. symmetry.
    rewrite Z.add_0_r. apply (rnd64_valid sx mx ex Hvx).
  - apply sf_eqv_eq; [| by apply (aligned_sum Z.add); [intros; lia | |]].
    unfold SFadd. rewrite (aligned_sum Z.add) by (done || intros; lia).
    apply rnd64_not_nan.
Qed.

Lemma SFsub_rnd64 x y :
  valid_binary x = true → valid_binary y = true →
  sf_finite x = true → sf_finite y = true →
  sf_eqv (SFsub prec emax x y) (rnd64 (sf_int x - sf_int y)).
Proof.
  destruct x as [sx | sx | | sx mx ex], y as [sy | sy | | sy my ey]; try done;
    intros Hvx Hvy _ _.
  - by destruct sx, sy.
  - apply sf_eqv_eq; [done |]. symmetry.
    change (sf_int (S754_zero sx) - sf_int (S754_finite sy my ey))
      with (0 - cond_Zopp sy (Zpos my) * 2 ^ (ey + 1074)).
    replace (0 - cond_Zopp sy (Zpos my) * 2 ^ (ey + 1074))
      with (sf_int (S754_finite (negb sy) my ey)) by (destruct sy; simpl; lia).
    apply (rnd64_valid (negb sy) my ey Hvy).
  - apply sf_eqv_eq; [done |]. symmetry.
    change (sf_int (S754_zero sy)) with 0.
    rewrite Z.sub_0_r. apply (rnd64_valid sx mx ex Hvx).
  - apply sf_eqv_eq; [| by apply (aligned_sum Z.sub); [intros; lia | |]].
    unfold SFsub. rewrite (aligned_sum Z.sub) by (done || intros; lia).
    apply rnd64_not_nan.
Qed.

Lemma sf_eqv_mono x x' N N' :
  sf_eqv x (rnd64 N) → sf_eqv x' (rnd64 N') → N ≤ N' → SFleb x x' = true.
Proof.
  intros [Hx _] [_ Hx'] HN.
  eapply SFleb_trans; [exact Hx |]. eapply SFleb_trans; [| exact Hx'].
  by apply rnd64_mono.
Qed.

Lemma SFleb_neg_infinity y : sf_notnan y = true → SFleb (S754_infinity true) y = true.
Proof. sf_order. Qed.

Lemma SFleb_infinity x : sf_notnan x = true → SFleb x (S754_infinity false) = true.
Proof. sf_order. Qed.

(** Monotonicity of the rounded sum and difference. *)
Lemma SFadd_mono_l a a' b :
  valid_binary a = true → valid_binary a' = true → valid_binary b = true →
  SFleb a a' = true → sf_finite b = true →
  SFleb (SFadd prec emax a b) (SFadd prec emax a' b) = true.
Proof.
  intros Hva Hva' Hvb Haa' Hb.
  destruct (SFleb_not_nan _ _ Haa') as [Ha Ha'].
  destruct (sf_finite a) eqn:Hfa, (sf_finite a') eqn:Hfa'.
  - eapply sf_eqv_mono; [by apply SFadd_rnd64 | by apply SFadd_rnd64 |].
    pose proof (SFleb_sf_int a a' Hva Hva' Hfa Hfa' Haa'). lia.
  - assert (a' = S754_infinity false) as ->
      by (by destruct a as [| [] | |], a' as [| [] | |]).
    assert (SFadd prec emax (S754_infinity false) b = S754_infinity false) as ->
      by (by destruct b as [| [] | |]).
    apply SFleb_infinity. by apply SFadd_not_nan.
  - assert (a = S754_infinity true) as ->
      by (by destruct a as [| [] | |], a' as [| [] | |]).
    assert (SFadd prec emax (S754_infinity true) b = S754_infinity true) as ->
      by (by destruct b as [| [] | |]).
    apply SFleb_neg_infinity. by apply SFadd_not_nan.
  - clear Hva Hva' Hvb.
    by destruct a as [| [] | |], a' as [| [] | |], b as [| [] | |].
Qed.

Lemma SFsub_mono_l a a' b :
  valid_binary a = true → valid_binary a' = true → valid_binary b = true →
  SFleb a a' = true → sf_finite b = true →
  SFleb (SFsub prec emax a b) (SFsub prec emax a' b) = true.
Proof.
  intros Hva Hva' Hvb Haa' Hb.
  destruct (SFleb_not_nan _ _ Haa') as [Ha Ha'].
  destruct (sf_finite a) eqn:Hfa, (sf_finite a') eqn:Hfa'.
  - eapply sf_eqv_mono; [by apply SFsub_rnd64 | by apply SFsub_rnd64 |].
    pose proof (SFleb_sf_int a a' Hva Hva' Hfa Hfa' Haa'). lia.
  - assert (a' = S754_infinity false) as ->
      by (by destruct a as [| [] | |], a' as [| [] | |]).
    assert (SFsub prec emax (S754_infinity false) b = S754_infinity false) as ->
      by (by destruct b as [| [] | |]).
    apply SFleb_infinity. by apply SFsub_not_nan.
  - assert (a = S754_infinity true) as ->
      by (by destruct a as [| [] | |], a' as [| [] | |]).
    assert (SFsub prec emax (S754_infinity true) b = S754_infinity true) as ->
      by (by destruct b as [| [] | |]).
    apply SFleb_neg_infinity. by apply SFsub_not_nan.
  - clear Hva Hva' Hvb.
    by destruct a as [| [] | |], a' as [| [] | |], b as [| [] | |].
Qed.

Lemma SFsub_anti_r a b b' :
  valid_binary a = true → valid_binary b = true → valid_binary b' = true →
  sf_notnan a = true → sf_finite b = true → sf_finite b' = true →
  SFleb b b' = true →
  SFleb (SFsub prec emax a b') (SFsub prec emax a b) = true.
Proof.
  intros Hva Hvb Hvb' Ha Hb Hb' Hbb'.
  destruct (sf_finite a) eqn:Hfa.
  - eapply sf_eqv_mono; [by apply SFsub_rnd64 | by apply SFsub_rnd64 |].
    pose proof (SFleb_sf_int b b' Hvb Hvb' Hb Hb' Hbb'). lia.
  - assert (SFsub prec emax a b' = a ∧ SFsub prec emax a b = a) as [-> ->]
      by (by destruct a as [| [] | |], b as [| [] | |], b' as [| [] | |]).
    by apply SFleb_refl.
Qed.

(** *** Rounding with a location *)

(** The position of [r / D] in [[0, 1)] relative to [1/2]. *)
Lemma new_location_spec D r :
  0 < D → 0 ≤ r < D →
  new_location D r = if r =? 0 then loc_Exact else loc_Inexact (2 * r ?= D).
Proof.
  intros HD Hr. unfold new_location, new_location_even, new_location_odd.
  destruct (Z.even D) eqn:Heven; [done |].
  destruct (r =? 0); [done |]. f_equal.
  assert (Z.odd D = true) as [k Hk]%Z.odd_spec by (by rewrite <- Z.negb_even, Heven).
  destruct (Z.compare_spec (2 * r + 1) D); destruct (Z.compare_spec (2 * r) D);
    try done; lia.
Qed.

Lemma loc_bits_range l : 0 ≤ loc_bits l ≤ 3.
Proof. destruct l as [| []]; simpl; lia. Qed.

Lemma shr_record_of_loc_bits m l :
  0 ≤ m →
  shr_record_of_loc m l
  = Nat.iter 2 shr_1 (Build_shr_record (4 * m + loc_bits l) false false).
Proof.
  intros Hm. pose proof (loc_bits_range l) as Hb.
  rewrite (iter_shr_1_spec 1) by lia.
  change (2 ^ Z.of_nat 2) with 4. change (2 ^ Z.of_nat 1) with 2.
  assert ((4 * m + loc_bits l) / 4 = m) as -> by (symmetry; apply Z.div_unique with (loc_bits l); lia).
  destruct l as [| []]; unfold shr_record_of_loc, loc_bits.
  - assert ((4 * m + 0) / 2 = 2 * m) as -> by (symmetry; apply Z.div_unique with 0; lia).
    assert ((4 * m + 0) mod 2 = 0) as -> by (symmetry; apply Z.mod_unique with (2 * m); lia).
    by rewrite Z.odd_even.
  - assert ((4 * m + 2) / 2 = 2 * m + 1) as -> by (symmetry; apply Z.div_unique with 0; lia).
    assert ((4 * m + 2) mod 2 = 0) as -> by (symmetry; apply Z.mod_unique with (2 * m + 1); lia).
    by rewrite Z.odd_odd.
  - assert ((4 * m + 1) / 2 = 2 * m) as -> by (symmetry; apply Z.div_unique with 1; lia).
    assert ((4 * m + 1) mod 2 = 1) as -> by (symmetry; apply Z.mod_unique with (2 * m); lia).
    by rewrite Z.odd_even.
  - assert ((4 * m + 3) / 2 = 2 * m + 1) as -> by (symmetry; apply Z.div_unique with 1; lia).
    assert ((4 * m + 3) mod 2 = 1) as -> by (symmetry; apply Z.mod_unique with (2 * m + 1); lia).
    by rewrite Z.odd_odd.
Qed.

(** Shifting [k + 1] bits out and rounding to nearest even is [rne]. *)
Lemma iter_shr_rne (k : nat) N :
  0 ≤ N →
  let mrs := Nat.iter (S k) shr_1 (Build_shr_record N false false) in
  round_nearest_even (shr_m mrs) (loc_of_shr_record mrs) = rne N (Z.of_nat (S k)) ∧
  0 ≤ shr_m mrs.
Proof.
  intros HN. cbn zeta. rewrite iter_shr_1_spec by done.
  assert (0 < 2 ^ Z.of_nat k) as Hpow by (apply Z.pow_pos_nonneg; lia).
  cbn [shr_m].
  split; [| apply Z.div_pos; [done | apply Z.pow_pos_nonneg; lia]].
  unfold rne. destruct (Z.of_nat (S k) =? 0) eqn:Hp0; [apply Z.eqb_eq in Hp0; lia |].
  clear Hp0.
  replace (Z.of_nat (S k) - 1) with (Z.of_nat k) by lia.
  replace (N mod 2 ^ Z.of_nat (S k)) with
    (N mod 2 ^ Z.of_nat k + 2 ^ Z.of_nat k * (if Z.odd (N / 2 ^ Z.of_nat k) then 1 else 0)).
  2:{ rewrite Nat2Z.inj_succ, Z.pow_succ_r, (Z.mul_comm 2), Z.rem_mul_r, Zmod_odd by lia.
      done. }
  pose proof (Z.mod_pos_bound N (2 ^ Z.of_nat k) Hpow) as Hlow.
  destruct (Z.odd (N / 2 ^ Z.of_nat k)); simpl.
  - destruct (N mod 2 ^ Z.of_nat k =? 0) eqn:Hz; simpl.
    + apply Z.eqb_eq in Hz. rewrite Hz, Z.mul_1_r, Z.add_0_l, Z.compare_refl. done.
    + apply Z.eqb_neq in Hz.
      assert ((N mod 2 ^ Z.of_nat k + 2 ^ Z.of_nat k * 1 ?= 2 ^ Z.of_nat k) = Gt) as ->
        by (apply Z.compare_gt_iff; lia).
      done.
  - assert ((N mod 2 ^ Z.of_nat k + 2 ^ Z.of_nat k * 0 ?= 2 ^ Z.of_nat k) = Lt) as ->
      by (apply Z.compare_lt_iff; lia).
    by destruct (N mod 2 ^ Z.of_nat k =? 0).
Qed.

(** Shifting a mantissa with a location by [n] bits and rounding. *)
Lemma shr_loc_rne m l e n :
  0 ≤ m → 0 ≤ n →
  ∃ mrs, shr (shr_record_of_loc m l) e n = (mrs, e + n) ∧
         round_nearest_even (shr_m mrs) (loc_of_shr_record mrs)
         = rne (4 * m + loc_bits l) (n + 2).
Proof.
  intros Hm Hn. pose proof (loc_bits_range l) as Hb.
  rewrite shr_record_of_loc_bits by done. unfold shr.
  destruct n as [| p | p]; [| | lia].
  - eexists. split; [by rewrite Z.add_0_r |].
    by apply (iter_shr_rne 1); lia.
  - eexists. split; [done |].
    rewrite iter_pos_nat, <- Nat.iter_add.
    replace (Pos.to_nat p + 2)%nat with (S (Pos.to_nat p + 1)) by lia.
    replace (Zpos p + 2) with (Z.of_nat (S (Pos.to_nat p + 1))) by lia.
    by apply iter_shr_rne; lia.
Qed.

(** [binary_round_aux] on a mantissa with a location, when the target
    exponent is not below the given one. *)
Lemma binary_round_aux_loc s m e l :
  0 ≤ m →
  let c := fexp prec emax (Zdigits2 m + e) in
  e ≤ c →
  binary_round_aux prec emax s m e l = enc s (rne (4 * m + loc_bits l) (c - e + 2)) c.
Proof.
  intros Hm c Hec. unfold binary_round_aux.
  pose proof (loc_bits_range l) as Hb.
  pose proof (Zdigits2_upper m Hm) as Hup.
  pose proof (Zdigits2_nonneg m) as Hd0.
  assert (-1074 ≤ c) as Hc by (unfold c; rewrite fexp_b64; lia).
  destruct (shr_loc_rne m l e (c - e) Hm ltac:(lia)) as (mrs & Hshr & Hround).
  change (shr_fexp prec emax m e l) with (shr (shr_record_of_loc m l) e (c - e)).
  rewrite Hshr, Hround.
  replace (e + (c - e)) with c by lia.
  set (d := Zdigits2 m) in *.
  assert (4 * m + loc_bits l < 2 ^ (d + 2)) as HP.
  { rewrite Z.pow_add_r by lia. change (2 ^ 2) with 4. lia. }
  apply renormalise_spec.
  - split.
    + pose proof (rne_range (4 * m + loc_bits l) (c - e + 2) ltac:(lia) ltac:(lia)).
      assert (0 ≤ (4 * m + loc_bits l) / 2 ^ (c - e + 2))
        by (apply Z.div_pos; [lia | apply Z.pow_pos_nonneg; lia]).
      lia.
    + pose proof (rne_upper (4 * m + loc_bits l) (c - e + 2) (d + 2)
                    ltac:(lia) ltac:(lia) ltac:(lia)) as Hq.
      etrans; [exact Hq |]. apply Z.pow_le_mono_r; [lia |].
      unfold c. rewrite fexp_b64. lia.
  - done.
  - intros Hsmall. unfold c in *. rewrite fexp_b64 in *.
    destruct (Z.le_gt_cases (d + e - 53) (-1074)) as [| Hnormal]; [lia |].
    exfalso.
    assert (0 < m) as Hmpos.
    { destruct (Z.eq_dec m 0) as [Hz | ]; [| lia].
      unfold d in Hec, Hnormal. rewrite Hz in Hec, Hnormal. simpl in Hec, Hnormal. lia. }
    pose proof (Zdigits2_bounds m Hmpos) as [Hlo _]. fold d in Hlo.
    assert (2 ^ (d + 2 - 1) ≤ 4 * m + loc_bits l) as HPlo.
    { replace (d + 2 - 1) with (d - 1 + 2) by lia.
      rewrite Z.pow_add_r by lia. change (2 ^ 2) with 4. lia. }
    pose proof (rne_bounds (4 * m + loc_bits l) (Z.max (d + e - 53) (-1074) - e + 2)
                  (d + 2) ltac:(lia) ltac:(lia) (conj HPlo HP)) as [Hq _].
    replace (d + 2 - 1 - (Z.max (d + e - 53) (-1074) - e + 2)) with 52 in Hq by lia.
    lia.
Qed.

Lemma rdiv_unique A B h R :
  0 ≤ R < B → A = B * h + R →
  rdiv A B = match 2 * R ?= B with
             | Lt => h
             | Gt => h + 1
             | Eq => if Z.even h then h else h + 1
             end.
Proof.
  intros HR HA. unfold rdiv.
  rewrite <- (Z.div_unique A B h R), <- (Z.mod_unique A B h R) by (done || lia). done.
Qed.

(** The two bits of the location stand for the fraction [r / D]. *)
Lemma rne_sticky m D r n :
  0 ≤ m → 0 < D → 0 ≤ r < D → 0 ≤ n →
  rne (4 * m + loc_bits (new_location D r)) (n + 2) = rdiv (m * D + r) (D * 2 ^ n).
Proof.
  intros Hm HD Hr Hn. rewrite new_location_spec, rne_rdiv by (done || lia).
  set (b := loc_bits _).
  assert (0 < 2 ^ n) as Ht by (apply Z.pow_pos_nonneg; lia).
  rewrite Z.pow_add_r by lia. change (2 ^ 2) with 4.
  pose proof (Z.div_mod m (2 ^ n) ltac:(lia)) as Hdm.
  pose proof (Z.mod_pos_bound m (2 ^ n) Ht) as Hl.
  assert (n = 0 ∨ ∃ u, 2 ^ n = 2 * u) as Hcases.
  { destruct (Z.eq_dec n 0) as [| Hn0]; [by left | right].
    exists (2 ^ (n - 1)). rewrite <- Z.pow_succ_r by lia. f_equal. lia. }
  set (t := 2 ^ n) in *. set (h := m / t) in *. set (l := m mod t) in *.
  assert (0 ≤ b ≤ 3 ∧ (b = 0 ↔ r = 0) ∧
          (b = 1 ↔ r ≠ 0 ∧ 2 * r < D) ∧ (b = 2 ↔ r ≠ 0 ∧ 2 * r = D) ∧
          (b = 3 ↔ r ≠ 0 ∧ 2 * r > D)) as (Hb & Hb0 & Hb1 & Hb2 & Hb3).
  { unfold b. destruct (Z.eqb_spec r 0) as [-> | Hr0]; [simpl; lia |].
    destruct (Z.compare_spec (2 * r) D); simpl; lia. }
  rewrite (rdiv_unique (4 * m + b) (t * 4) h (4 * l + b)) by lia.
  rewrite (rdiv_unique (m * D + r) (D * t) h (l * D + r)) by nia.
  assert ((2 * (4 * l + b) ?= t * 4) = (2 * (l * D + r) ?= D * t)) as ->; [| done].
  destruct Hcases as [Hn0 | [u Hu]].
  - assert (t = 1) as Ht1 by (unfold t; by rewrite Hn0).
    assert (l = 0) as -> by lia. rewrite Ht1.
    destruct (Z.compare_spec (2 * (4 * 0 + b)) (1 * 4));
      destruct (Z.compare_spec (2 * (0 * D + r)) (D * 1)); try done; lia.
  - destruct (Z.compare_spec (2 * (4 * l + b)) (t * 4));
      destruct (Z.compare_spec (2 * (l * D + r)) (D * t)); try done; nia.
Qed.

Lemma Zdigits2_pos N : 0 < N → 0 < Zdigits2 N.
Proof. destruct N; simpl; lia. Qed.

Lemma Zdigits2_between N k : 0 ≤ k → 2 ^ k ≤ N < 2 ^ (k + 1) → Zdigits2 N = k + 1.
Proof.
  intros Hk HN. assert (0 < 2 ^ k) by (apply Z.pow_pos_nonneg; lia).
  apply Zdigits2_unique; [lia |]. by replace (k + 1 - 1) with k by lia.
Qed.

(** [binary_round_aux] rounds the value [(m + r / D) * 2^e], given as the
    fraction [A / B] in units of [2^-1074]. *)
Lemma binary_round_aux_frac s m e D r A B K :
  0 ≤ m → 0 < D → 0 ≤ r < D →
  e ≤ fexp prec emax (Zdigits2 m + e) →
  e ≤ -1074 ∨ 0 < m →
  0 ≤ A → 0 < B →
  0 ≤ K → 0 ≤ e + 1074 + K →
  A * (D * 2 ^ K) = (m * D + r) * 2 ^ (e + 1074 + K) * B →
  binary_round_aux prec emax s m e (new_location D r) = rnd_frac s A B.
Proof.
  intros Hm HD Hr Hec Hpos HA HB HK HeK Hval.
  rewrite binary_round_aux_loc by done. cbn zeta.
  set (c := fexp prec emax (Zdigits2 m + e)) in *.
  assert (-1074 ≤ c) as Hc by (unfold c; rewrite fexp_b64; lia).
  rewrite rne_sticky by (done || lia).
  pose proof (Zdigits2_nonneg m) as Hd0.
  pose proof (Zdigits2_upper m Hm) as Hup.
  set (d := Zdigits2 m) in *.
  assert (0 < 2 ^ K) as HpK by (apply Z.pow_pos_nonneg; lia).
  assert (0 < 2 ^ (c - e)) as Hpn by (apply Z.pow_pos_nonneg; lia).
  assert (0 < 2 ^ (c + 1074)) as Hpc by (apply Z.pow_pos_nonneg; lia).
  destruct (Z.le_gt_cases 0 (e + 1074)) as [Hj | Hj].
  - (* the value is an integer multiple of 2^-1074 over D *)
    assert (0 < 2 ^ (e + 1074)) as Hpj by (apply Z.pow_pos_nonneg; lia).
    rewrite (rnd_frac_ext s A B ((m * D + r) * 2 ^ (e + 1074)) D); [| done | done | done |].
    2:{ rewrite Z.pow_add_r in Hval by lia.
        apply (Z.mul_cancel_r _ _ (2 ^ K)); [lia |]. lia. }
    unfold rnd_frac.
    assert (fexp prec emax (Zdigits2 ((m * D + r) * 2 ^ (e + 1074) / D) - 1074) = c) as ->.
    { destruct (Z.eq_dec m 0) as [-> | Hm0].
      - assert (e = -1074) as -> by lia.
        change (-1074 + 1074) with 0. rewrite Z.pow_0_r, Z.mul_1_r, Z.mul_0_l, Z.add_0_l.
        rewrite Z.div_small by lia. done.
      - assert (0 < m) as Hmpos by lia.
        pose proof (Zdigits2_bounds m Hmpos) as [Hlo _]. fold d in Hlo.
        pose proof (Zdigits2_pos m Hmpos) as Hd1. fold d in Hd1.
        rewrite (Zdigits2_between _ (d - 1 + (e + 1074))).
        + unfold c. f_equal. lia.
        + lia.
        + split.
          * apply Z.div_le_lower_bound; [done |].
            rewrite (Z.pow_add_r 2 (d - 1) (e + 1074)) by lia. nia.
          * apply Z.div_lt_upper_bound; [done |].
            replace (d - 1 + (e + 1074) + 1) with (d + (e + 1074)) by lia.
            rewrite (Z.pow_add_r 2 d (e + 1074)) by lia.
            assert (m * D + r < 2 ^ d * D) by nia.
            rewrite Z.mul_assoc, (Z.mul_comm D). by apply Z.mul_lt_mono_pos_r. }
    f_equal. apply rdiv_ext; [nia | nia |].
    replace (c + 1074) with (e + 1074 + (c - e)) by lia.
    rewrite (Z.pow_add_r 2 (e + 1074) (c - e)) by lia. ring.
  - (* the value has bits below 2^-1074 *)
    assert (0 < 2 ^ (- (e + 1074))) as Hpj by (apply Z.pow_pos_nonneg; lia).
    rewrite (rnd_frac_ext s A B (m * D + r) (D * 2 ^ (- (e + 1074)))); [| done | done | nia |].
    2:{ replace K with (- (e + 1074) + (e + 1074 + K)) in Hval at 1 by lia.
        rewrite (Z.pow_add_r 2 (- (e + 1074)) (e + 1074 + K)) in Hval by lia.
        assert (0 < 2 ^ (e + 1074 + K)) by (apply Z.pow_pos_nonneg; lia).
        apply (Z.mul_cancel_r _ _ (2 ^ (e + 1074 + K))); [lia |]. lia. }
    unfold rnd_frac.
    assert ((m * D + r) / (D * 2 ^ (- (e + 1074))) = m / 2 ^ (- (e + 1074))) as ->.
    { rewrite <- Z.div_div by lia. f_equal.
      symmetry. apply Z.div_unique with r; lia. }
    assert (fexp prec emax (Zdigits2 (m / 2 ^ (- (e + 1074))) - 1074) = c) as ->.
    { destruct (Z.le_gt_cases d (- (e + 1074))) as [Hsmall | Hbig].
      - assert (2 ^ d ≤ 2 ^ (- (e + 1074))) by (apply Z.pow_le_mono_r; lia).
        rewrite Z.div_small by lia. unfold c. rewrite !fexp_b64. simpl. lia.
      - assert (0 < m) as Hmpos.
        { destruct (Z.eq_dec m 0) as [Hz | ]; [| lia].
          unfold d in Hbig. rewrite Hz in Hbig. simpl in Hbig. lia. }
        pose proof (Zdigits2_bounds m Hmpos) as [Hlo _]. fold d in Hlo.
        assert (2 ^ (d - 1) = 2 ^ (d - 1 + (e + 1074)) * 2 ^ (- (e + 1074))) as Hlo'
          by (rewrite <- Z.pow_add_r by lia; f_equal; lia).
        assert (2 ^ d = 2 ^ (d + (e + 1074)) * 2 ^ (- (e + 1074))) as Hup'
          by (rewrite <- Z.pow_add_r by lia; f_equal; lia).
        rewrite (Zdigits2_between _ (d - 1 + (e + 1074))).
        + unfold c. f_equal. lia.
        + lia.
        + split.
          * apply Z.div_le_lower_bound; lia.
          * apply Z.div_lt_upper_bound; [done |].
            replace (d - 1 + (e + 1074) + 1) with (d + (e + 1074)) by lia. lia. }
    f_equal. f_equal.
    replace (c - e) with (- (e + 1074) + (c + 1074)) by lia.
    rewrite (Z.pow_add_r 2 (- (e + 1074)) (c + 1074)) by lia. ring.
Qed.

(** *** Multiplication and division round the exact result *)

Lemma pow2_split a b : 0 ≤ a → 0 ≤ b → 2 ^ (a + b) = 2 ^ a * 2 ^ b.
Proof. intros. by apply Z.pow_add_r. Qed.

Lemma digits2_pos_mul mx my :
  Zpos (digits2_pos mx) + Zpos (digits2_pos my) - 1 ≤ Zpos (digits2_pos (mx * my)).
Proof.
  pose proof (digits2_pos_bounds mx) as [Hx _].
  pose proof (digits2_pos_bounds my) as [Hy _].
  pose proof (digits2_pos_bounds (mx * my)) as [_ Hxy].
  set (dx := Zpos (digits2_pos mx)) in *. set (dy := Zpos (digits2_pos my)) in *.
  set (d := Zpos (digits2_pos (mx * my))) in *.
  destruct (Z.le_gt_cases (dx + dy - 1) d) as [| Hgt]; [done |].
  assert (2 ^ d ≤ 2 ^ (dx - 1 + (dy - 1))) as Hle by (apply Z.pow_le_mono_r; lia).
  rewrite pow2_split in Hle by lia.
  assert (0 < 2 ^ (dx - 1)) by (apply Z.pow_pos_nonneg; lia).
  assert (0 < 2 ^ (dy - 1)) by (apply Z.pow_pos_nonneg; lia).
  rewrite Pos2Z.inj_mul in Hxy. nia.
Qed.

Lemma sf_int_finite s m e :
  sf_int (S754_finite s m e) = cond_Zopp s (Zpos m * 2 ^ (e + 1074)).
Proof. unfold sf_int. by destruct s; simpl; lia. Qed.

Lemma rnd_sfrac_signed s (A : Z) B :
  0 < A → rnd_sfrac (cond_Zopp s A) B = rnd_frac s A B.
Proof. intros HA. destruct A as [| p | p]; [lia | | lia]. by destruct s. Qed.

Lemma cond_Zopp_xorb s1 s2 a b :
  cond_Zopp s1 a * cond_Zopp s2 b = cond_Zopp (xorb s1 s2) (a * b).
Proof. destruct s1, s2; simpl; lia. Qed.

Lemma SFmul_finite sx mx ex sy my ey :
  bounded prec emax mx ex = true → bounded prec emax my ey = true →
  SFmul prec emax (S754_finite sx mx ex) (S754_finite sy my ey)
  = rnd_sfrac (sf_int (S754_finite sx mx ex) * sf_int (S754_finite sy my ey)) (2 ^ 1074).
Proof.
  intros (Hex & Hdx & Hcx)%bounded_spec (Hey & Hdy & Hcy)%bounded_spec.
  rewrite !sf_int_finite, cond_Zopp_xorb.
  assert (0 < 2 ^ (ex + 1074)) by (apply Z.pow_pos_nonneg; lia).
  assert (0 < 2 ^ (ey + 1074)) by (apply Z.pow_pos_nonneg; lia).
  rewrite rnd_sfrac_signed by nia.
  unfold SFmul. change loc_Exact with (new_location 1 0).
  pose proof (digits2_pos_mul mx my) as Hd.
  rewrite fexp_b64 in Hcx, Hcy.
  apply (binary_round_aux_frac _ _ _ _ _ _ _ 1074); try lia.
  - cbn [Zdigits2]. rewrite fexp_b64. lia.
  - rewrite Z.mul_1_r, Z.add_0_r, Z.mul_1_l, Pos2Z.inj_mul.
    replace (ex + ey + 1074 + 1074) with (ex + 1074 + (ey + 1074)) by lia.
    rewrite (pow2_split (ex + 1074) (ey + 1074)) by lia. ring.
Qed.

Lemma SFmul_rnd x y :
  valid_binary x = true → valid_binary y = true →
  sf_finite x = true → sf_finite y = true →
  sf_eqv (SFmul prec emax x y) (rnd_sfrac (sf_int x * sf_int y) (2 ^ 1074)).
Proof.
  destruct x as [sx | sx | | sx mx ex], y as [sy | sy | | sy my ey]; try done;
    intros Hvx Hvy _ _.
  - change (sf_int (S754_zero sy)) with 0. rewrite Z.mul_0_r. by destruct sx, sy; split.
  - apply sf_eqv_eq; [| by apply SFmul_finite].
    rewrite SFmul_finite by done. by apply rnd_sfrac_not_nan.
Qed.

Lemma Zdigits2_pow2_le q k : 0 ≤ k → 2 ^ k ≤ q → k + 1 ≤ Zdigits2 q.
Proof.
  intros Hk Hq. assert (0 < 2 ^ k) by (apply Z.pow_pos_nonneg; lia).
  pose proof (Zdigits2_upper q ltac:(lia)) as Hup.
  pose proof (Zdigits2_nonneg q).
  destruct (Z.le_gt_cases (k + 1) (Zdigits2 q)) as [| Hlt]; [done |].
  assert (2 ^ Zdigits2 q ≤ 2 ^ k) by (apply Z.pow_le_mono_r; lia). lia.
Qed.

Lemma SFdiv_finite sx mx ex my ey :
  bounded prec emax mx ex = true → bounded prec emax my ey = true →
  SFdiv prec emax (S754_finite sx mx ex) (S754_finite false my ey)
  = rnd_sfrac (sf_int (S754_finite sx mx ex) * 2 ^ 1074)
              (sf_int (S754_finite false my ey)).
Proof.
  intros (Hex & Hdx & Hcx)%bounded_spec (Hey & Hdy & Hcy)%bounded_spec.
  rewrite !sf_int_finite, cond_Zopp_mul. cbn [cond_Zopp].
  assert (0 < 2 ^ (ex + 1074)) by (apply Z.pow_pos_nonneg; lia).
  assert (0 < 2 ^ (ey + 1074)) by (apply Z.pow_pos_nonneg; lia).
  assert (0 < 2 ^ 1074) by (by apply Z.pow_pos_nonneg).
  rewrite rnd_sfrac_signed by nia.
  unfold SFdiv, SFdiv_core_binary. cbn [Zdigits2]. rewrite xorb_false_r.
  pose proof (digits2_pos_bounds mx) as [Hlox Hupx].
  pose proof (digits2_pos_bounds my) as [Hloy Hupy].
  set (d1 := Zpos (digits2_pos mx)) in *. set (d2 := Zpos (digits2_pos my)) in *.
  rewrite fexp_b64 in Hcx, Hcy. rewrite fexp_b64.
  set (e' := Z.min _ (ex - ey)).
  set (s := ex - ey - e').
  assert (0 ≤ s) as Hs by (unfold s, e'; lia).
  assert (0 < 2 ^ s) as Hps by (apply Z.pow_pos_nonneg; lia).
  set (m' := match s with Z0 => Zpos mx | Zpos _ => Z.shiftl (Zpos mx) s | Zneg _ => 0 end).
  assert (m' = Zpos mx * 2 ^ s) as Hm'.
  { unfold m'. destruct s as [| p | p] eqn:Hsp; [simpl; lia | | lia].
    by rewrite Z.shiftl_mul_pow2. }
  clearbody m'.
  pose proof (Z_div_mod m' (Zpos my) eq_refl) as Hdiv.
  destruct (Z.div_eucl m' (Zpos my)) as [q r]. destruct Hdiv as [Hqr Hr].
  assert (0 ≤ q) as Hq by nia.
  assert (e' ≤ -1074 ∨ 2 ^ 52 ≤ q) as Hbig.
  { destruct (Z.le_gt_cases e' (-1074)) as [| He']; [by left | right].
    assert (53 - d1 + d2 ≤ s) as Hs53 by (unfold s, e' in *; lia).
    assert (2 ^ (d1 - 1 + s) = 2 ^ (d1 - 1 + s - d2 - 52) * 2 ^ 52 * 2 ^ d2) as Hsplit.
    { rewrite <- !Z.pow_add_r by lia. f_equal. lia. }
    assert (2 ^ (d1 - 1 + s) = 2 ^ (d1 - 1) * 2 ^ s) as Hsplit' by (apply pow2_split; lia).
    assert (0 < 2 ^ (d1 - 1 + s - d2 - 52)) by (apply Z.pow_pos_nonneg; lia).
    assert (0 < 2 ^ 52) by done.
    destruct (Z.le_gt_cases (2 ^ 52) q) as [| Hsmall]; [done |].
    exfalso. nia. }
  apply (binary_round_aux_frac _ _ _ _ _ _ _ 1074); try lia.
  - rewrite fexp_b64.
    destruct Hbig as [| Hq52]; [lia |].
    pose proof (Zdigits2_pow2_le q 52 ltac:(lia) Hq52). unfold e' in *. lia.
  - replace (q * Zpos my + r) with m' by lia. rewrite Hm'.
    replace (e' + 1074 + 1074) with (ex - ey - s + 1074 + 1074) by (unfold s; lia).
    assert (2 ^ (ex + 1074) * 2 ^ 1074 * 2 ^ 1074
            = 2 ^ s * 2 ^ (ex - ey - s + 1074 + 1074) * 2 ^ (ey + 1074)) as Hpow.
    { rewrite <- !Z.pow_add_r by (unfold s, e'; lia). f_equal. lia. }
    transitivity (Zpos mx * Zpos my * (2 ^ (ex + 1074) * 2 ^ 1074 * 2 ^ 1074)); [ring |].
    rewrite Hpow. ring.
Qed.

(** *** Rounded results are valid floats *)

Lemma enc_valid s q c :
  0 ≤ q ≤ 2 ^ 53 → -1074 ≤ c → (q < 2 ^ 52 → c = -1074) →
  valid_binary (enc s q c) = true.
Proof.
  intros Hq Hc Hsub. unfold enc, enc_norm.
  destruct (Z.eqb_spec q (2 ^ 53)) as [-> | Hne].
  - change (2 ^ 52) with (Zpos 4503599627370496).
    destruct (Z.leb_spec (c + 1) (emax - prec)) as [Hle |]; [| done].
    simpl. unfold bounded, canonical_mantissa.
    apply andb_true_iff. split; [| by apply Z.leb_le].
    apply Z.eqb_eq. rewrite fexp_b64.
    change (Zpos (digits2_pos 4503599627370496)) with 53. lia.
  - destruct q as [| p | p]; [done | | lia].
    destruct (Z.leb_spec c (emax - prec)) as [Hle |]; [| done].
    simpl. unfold bounded, canonical_mantissa.
    apply andb_true_iff. split; [| by apply Z.leb_le].
    apply Z.eqb_eq. rewrite fexp_b64.
    destruct (Z.lt_ge_cases (Zpos p) (2 ^ 52)) as [Hlt | Hge].
    + pose proof (Zdigits2_le (Zpos p) 52 ltac:(lia) ltac:(lia)) as Hd.
      simpl in Hd. lia.
    + assert (Zdigits2 (Zpos p) = 53) as Hd
        by (apply Zdigits2_unique; [lia | change (53 - 1) with 52; lia]).
      simpl in Hd. lia.
Qed.

Lemma rnd_frac_valid s A B : 0 ≤ A → 0 < B → valid_binary (rnd_frac s A B) = true.
Proof.
  intros HA HB. unfold rnd_frac.
  pose proof (rnd_frac_cases A B HA HB) as Hcases. cbn zeta in Hcases.
  set (c := fexp prec emax _) in *. set (q := rdiv _ _) in *.
  assert (-1074 ≤ c) by (unfold c; rewrite fexp_b64; lia).
  apply enc_valid; lia.
Qed.

Lemma rnd_sfrac_valid A B : 0 < B → valid_binary (rnd_sfrac A B) = true.
Proof.
  intros HB. destruct A; [done | |]; simpl; by apply rnd_frac_valid.
Qed.

Lemma rnd64_valid_binary N : valid_binary (rnd64 N) = true.
Proof. rewrite <- rnd_sfrac_int. by apply rnd_sfrac_valid. Qed.

(** *** The value of a rounded result *)

Lemma sf_int_enc s q c :
  0 ≤ q → -1074 ≤ c → sf_finite (enc s q c) = true →
  sf_int (enc s q c) = cond_Zopp s (q * 2 ^ (c + 1074)).
Proof.
  intros Hq Hc. unfold enc, enc_norm.
  destruct (Z.eqb_spec q (2 ^ 53)) as [-> | Hne].
  - change (2 ^ 52) with (Zpos 4503599627370496).
    destruct (_ <=? _); [| done]. intros _. rewrite sf_int_finite. f_equal.
    replace (c + 1 + 1074) with (1 + (c + 1074)) by lia.
    rewrite (pow2_split 1 (c + 1074)) by lia.
    change (Zpos 4503599627370496) with (2 ^ 52).
    change (2 ^ 53) with (2 ^ 52 * 2 ^ 1). ring.
  - destruct q as [| p | p]; [by destruct s | | lia].
    destruct (_ <=? _); [| done]. intros _. by rewrite sf_int_finite.
Qed.

Lemma sf_int_rnd_frac s A B :
  0 ≤ A → 0 < B → sf_finite (rnd_frac s A B) = true →
  let c := fexp prec emax (Zdigits2 (A / B) - 1074) in
  sf_int (rnd_frac s A B) = cond_Zopp s (rdiv A (B * 2 ^ (c + 1074)) * 2 ^ (c + 1074)).
Proof.
  intros HA HB Hfin c. unfold rnd_frac in *. fold c in Hfin |- *.
  pose proof (rnd_frac_cases A B HA HB) as Hcases. cbn zeta in Hcases. fold c in Hcases.
  apply sf_int_enc; [lia | | done]. unfold c. rewrite fexp_b64. lia.
Qed.

(** A result that is not above a finite float is not [+infinity]. *)
Lemma SFleb_finite_r x y :
  sf_nonneg x = true → SFleb x y = true → sf_finite y = true → sf_finite x = true.
Proof. destruct x as [| [] | |], y as [| [] | |]; done. Qed.

(** Rounding the value of a valid float gives the float back. *)
Lemma rnd_sfrac_sf_int x :
  valid_binary x = true → sf_finite x = true →
  sf_eqv (rnd_sfrac (sf_int x) 1) x.
Proof.
  intros Hv Hf. rewrite rnd_sfrac_int.
  destruct (rnd64_sf_int x Hv Hf). by split.
Qed.

(** *** Integers up to [2^53] are floats *)

Lemma rdiv_exact A B : 0 < B → rdiv (A * B) B * B = A * B.
Proof. intros HB. by rewrite rdiv_int. Qed.

Lemma rnd64_int z :
  Z.abs z ≤ 2 ^ 53 →
  sf_finite (rnd64 (z * 2 ^ 1074)) = true ∧ sf_int (rnd64 (z * 2 ^ 1074)) = z * 2 ^ 1074.
Proof.
  intros Hz. assert (0 < 2 ^ 1074) as Hp by (by apply Z.pow_pos_nonneg).
  assert (∀ s (p : positive), Zpos p ≤ 2 ^ 53 →
            sf_finite (rnd_frac s (Zpos p * 2 ^ 1074) 1) = true ∧
            sf_int (rnd_frac s (Zpos p * 2 ^ 1074) 1)
            = cond_Zopp s (Zpos p * 2 ^ 1074)) as Hpos.
  { intros s p Hp53.
    pose proof (digits2_pos_bounds p) as [Hlo Hup].
    set (d := Zpos (digits2_pos p)) in *.
    assert (d ≤ 54) as Hd54.
    { destruct (Z.le_gt_cases d 54) as [| Hgt]; [done |].
      assert (2 ^ 54 ≤ 2 ^ (d - 1)) by (apply Z.pow_le_mono_r; lia).
      assert (2 ^ 53 < 2 ^ 54) by done. lia. }
    assert (Zdigits2 (Zpos p * 2 ^ 1074 / 1) = d + 1074) as Hdig.
    { rewrite Z.div_1_r. apply Zdigits2_unique; [lia |].
      replace (d + 1074 - 1) with (d - 1 + 1074) by lia.
      rewrite !pow2_split by lia. nia. }
    assert (fexp prec emax (d + 1074 - 1074) = d - 53) as Hc
      by (rewrite fexp_b64; lia).
    (* the mantissa: nothing is rounded away *)
    assert (∃ q, 0 ≤ q ≤ 2 ^ 53 ∧ Zpos p * 2 ^ 1074 = q * (1 * 2 ^ (d - 53 + 1074)))
      as (q & Hq & Hexact).
    { destruct (Z.le_gt_cases d 53) as [Hd | Hd].
      - exists (Zpos p * 2 ^ (53 - d)). split.
        + assert (0 < 2 ^ (53 - d)) by (apply Z.pow_pos_nonneg; lia).
          assert (2 ^ 53 = 2 ^ d * 2 ^ (53 - d))
            by (rewrite <- pow2_split by lia; f_equal; lia).
          nia.
        + replace 1074 with (53 - d + (d - 53 + 1074)) at 1 by lia.
          rewrite (pow2_split (53 - d) (d - 53 + 1074)) by lia. ring.
      - assert (d = 54) as Hd' by lia. rewrite Hd' in *.
        change (2 ^ (54 - 1)) with (2 ^ 53) in Hlo.
        assert (Zpos p = 2 ^ 53) as -> by lia.
        exists (2 ^ 52). split; [done |].
        change (54 - 53 + 1074) with (1 + 1074).
        rewrite (pow2_split 1 1074) by lia.
        change (2 ^ 53) with (2 ^ 52 * 2 ^ 1). ring. }
    assert (rnd_frac s (Zpos p * 2 ^ 1074) 1 = enc s q (d - 53)) as Hrnd.
    { unfold rnd_frac. rewrite Hdig, Hc. f_equal.
      rewrite Hexact. apply rdiv_int.
      assert (0 < 2 ^ (d - 53 + 1074)) by (apply Z.pow_pos_nonneg; lia). lia. }
    assert (sf_finite (enc s q (d - 53)) = true) as Hfin.
    { unfold enc, enc_norm. change (emax - prec) with 971.
      destruct (q =? 2 ^ 53).
      - change (2 ^ 52) with (Zpos 4503599627370496).
        by destruct (Z.leb_spec (d - 53 + 1) 971); [| lia].
      - destruct q as [| q' | q']; [done | | lia].
        by destruct (Z.leb_spec (d - 53) 971); [| lia]. }
    rewrite Hrnd. split; [done |].
    rewrite sf_int_enc by (done || lia). f_equal. rewrite Hexact. ring. }
  rewrite <- rnd_sfrac_int.
  destruct z as [| p | p]; [done | |].
  - change (Zpos p * 2 ^ 1074) with (cond_Zopp false (Zpos p * 2 ^ 1074)).
    rewrite rnd_sfrac_signed by lia. apply Hpos. lia.
  - replace (Zneg p * 2 ^ 1074) with (cond_Zopp true (Zpos p * 2 ^ 1074)) by (simpl; lia).
    rewrite rnd_sfrac_signed by lia. apply Hpos. lia.
Qed.

(** *** Monotonicity of the rounded product and quotient *)

Lemma sf_eqv_sfrac_mono x x' A B A' B' :
  sf_eqv x (rnd_sfrac A B) → sf_eqv x' (rnd_sfrac A' B') →
  0 < B → 0 < B' → A * B' ≤ A' * B → SFleb x x' = true.
Proof.
  intros [Hx _] [_ Hx'] HB HB' Hc.
  eapply SFleb_trans; [exact Hx |]. eapply SFleb_trans; [| exact Hx'].
  by apply rnd_sfrac_mono.
Qed.

Lemma SFmul_notnan x y :
  valid_binary x = true → valid_binary y = true →
  sf_finite x = true → sf_finite y = true → sf_notnan (SFmul prec emax x y) = true.
Proof.
  intros Hvx Hvy Hx Hy.
  destruct (SFmul_rnd x y Hvx Hvy Hx Hy) as [H%SFleb_not_nan _]. tauto.
Qed.

Lemma SFmul_mono_r a b b' :
  valid_binary a = true → valid_binary b = true → valid_binary b' = true →
  SFleb (S754_zero false) a = true → SFleb b b' = true →
  sf_notnan (SFmul prec emax a b) = true → sf_notnan (SFmul prec emax a b') = true →
  SFleb (SFmul prec emax a b) (SFmul prec emax a b') = true.
Proof.
  intros Hva Hvb Hvb' Ha Hbb' Hab Hab'.
  destruct (sf_finite a && sf_finite b && sf_finite b') eqn:Hfin.
  - apply andb_true_iff in Hfin as [[Hfa Hfb]%andb_true_iff Hfb'].
    eapply sf_eqv_sfrac_mono; [by apply SFmul_rnd | by apply SFmul_rnd | done | done |].
    pose proof (SFleb_sf_int (S754_zero false) a eq_refl Hva eq_refl Hfa Ha) as Ha0.
    pose proof (SFleb_sf_int b b' Hvb Hvb' Hfb Hfb' Hbb').
    change (sf_int (S754_zero false)) with 0 in Ha0.
    assert (0 < 2 ^ 1074) by done. nia.
  - clear Hva Hvb Hvb'.
    destruct a as [[] | [] | | [] ma ea], b as [[] | [] | | [] mb eb],
      b' as [[] | [] | | [] mb' eb']; try done.
    all: first [by apply SFleb_neg_infinity | by apply SFleb_infinity].
Qed.

Lemma sf_int_one : sf_int sf_one = 2 ^ 1074.
Proof. done. Qed.

(** A finite float that is at least 1. *)
Lemma SFleb_one c :
  valid_binary c = true → sf_finite c = true →
  SFleb sf_one c = true →
  ∃ m e, c = S754_finite false m e ∧ 2 ^ 1074 ≤ sf_int c.
Proof.
  intros Hv Hf Hle.
  pose proof (SFleb_sf_int sf_one c eq_refl Hv eq_refl Hf Hle) as Hint.
  rewrite sf_int_one in Hint.
  assert (0 < 2 ^ 1074) by done.
  destruct c as [| | | [] m e]; try done. eauto.
Qed.

Lemma SFdiv_rnd x c :
  valid_binary x = true → valid_binary c = true →
  sf_finite x = true → sf_finite c = true →
  SFleb sf_one c = true →
  sf_eqv (SFdiv prec emax x c) (rnd_sfrac (sf_int x * 2 ^ 1074) (sf_int c)).
Proof.
  intros Hvx Hvc Hfx Hfc Hc.
  destruct (SFleb_one c Hvc Hfc Hc) as (m & e & -> & Hge).
  assert (0 < 2 ^ 1074) by done.
  destruct x as [sx | | | sx mx ex]; try done.
  rewrite SFdiv_finite by done.
  apply sf_eqv_refl, rnd_sfrac_not_nan. lia.
Qed.

Lemma SFdiv_mono_l a a' c :
  valid_binary a = true → valid_binary a' = true → valid_binary c = true →
  sf_finite a = true → sf_finite a' = true → SFleb a a' = true →
  sf_finite c = true → SFleb sf_one c = true →
  SFleb (SFdiv prec emax a c) (SFdiv prec emax a' c) = true.
Proof.
  intros Hva Hva' Hvc Hfa Hfa' Haa' Hfc Hc.
  destruct (SFleb_one c Hvc Hfc Hc) as (m & e & Heq & Hge).
  assert (0 < 2 ^ 1074) by done.
  eapply sf_eqv_sfrac_mono; [by apply SFdiv_rnd | by apply SFdiv_rnd | lia | lia |].
  pose proof (SFleb_sf_int a a' Hva Hva' Hfa Hfa' Haa'). nia.
Qed.

(** Dividing by a float that is at least 1 does not overflow. *)
Lemma SFdiv_bounded a c :
  valid_binary a = true → valid_binary c = true →
  sf_finite a = true → sf_finite c = true →
  SFleb sf_one c = true →
  sf_finite (SFdiv prec emax a c) = true.
Proof.
  intros Hva Hvc Hfa Hfc Hc.
  destruct (SFleb_one c Hvc Hfc Hc) as (m & e & Heq & Hge).
  assert (0 < 2 ^ 1074) by done.
  pose proof (SFdiv_rnd a c Hva Hvc Hfa Hfc Hc) as Hdiv.
  (* between -|a| and |a| *)
  set (hi := match a with S754_finite _ ma ea => S754_finite false ma ea | _ => a end).
  set (lo := match a with S754_finite _ ma ea => S754_finite true ma ea | _ => a end).
  assert (valid_binary hi = true ∧ sf_finite hi = true ∧
          valid_binary lo = true ∧ sf_finite lo = true ∧
          sf_int hi = Z.abs (sf_int a) ∧ sf_int lo = - Z.abs (sf_int a))
    as (Hvhi & Hfhi & Hvlo & Hflo & Hhi & Hlo).
  { destruct a as [| | | sa ma ea]; try done.
    rewrite !sf_int_finite.
    assert (0 ≤ Zpos ma * 2 ^ (ea + 1074)) by (apply Z.mul_nonneg_nonneg; [lia | apply Z.pow_nonneg; lia]).
    split_and!; try done; destruct sa; simpl; lia. }
  assert (SFleb (SFdiv prec emax a c) hi = true) as Hle_hi.
  { eapply sf_eqv_sfrac_mono; [exact Hdiv | | lia | | ].
    - destruct (rnd_sfrac_sf_int hi Hvhi Hfhi). by split.
    - lia.
    - rewrite Hhi. nia. }
  assert (SFleb lo (SFdiv prec emax a c) = true) as Hge_lo.
  { eapply sf_eqv_sfrac_mono; [| exact Hdiv | | lia | ].
    - destruct (rnd_sfrac_sf_int lo Hvlo Hflo). by split.
    - lia.
    - rewrite Hlo. nia. }
  destruct (SFdiv prec emax a c) as [| [] | |], hi as [| [] | |], lo as [| [] | |]; done.
Qed.

(** *** Zero *)

Lemma SFmul_zero_l s b :
  sf_finite b = true → ∃ s', SFmul prec emax (S754_zero s) b = S754_zero s'.
Proof. destruct b as [| | |]; try done; eauto. Qed.

Lemma SFdiv_zero_l s c :
  sf_finite c = true → SFleb sf_one c = true →
  ∃ s', SFdiv prec emax (S754_zero s) c = S754_zero s'.
Proof. destruct c as [| | | [] m e]; try done; eauto. Qed.

Lemma SFadd_zero_l s x :
  sf_notnan x = true → sf_eqv (SFadd prec emax (S754_zero s) x) x.
Proof.
  destruct x as [[] | [] | | sx m e], s; try done; intros _; simpl.
  all: apply sf_eqv_refl; done.
Qed.

(** Floats that compare equal are the same float or two zeros. *)
Lemma sf_eqv_inv x y :
  sf_eqv x y → x = y ∨ ∃ s s', x = S754_zero s ∧ y = S754_zero s'.
Proof.
  intros [Hxy Hyx]. revert Hxy Hyx. unfold SFleb, SFcompare.
  destruct x as [sx | [] | | [] mx ex], y as [sy | [] | | [] my ey]; simpl; try done;
    eauto.
  all: change (Pos.compare_cont Eq) with Pos.compare.
  all: destruct (Z.compare_spec ex ey); destruct (Z.compare_spec ey ex);
    try done; try lia.
  all: destruct (Pos.compare_spec mx my); destruct (Pos.compare_spec my mx);
    try done; try lia.
  all: intros _ _; left; by subst.
Qed.

(** *** The error of rounding *)

Lemma rdiv_error A B : 0 < B → - B ≤ 2 * (rdiv A B * B - A) ≤ B.
Proof.
  intros HB. unfold rdiv.
  pose proof (Z.div_mod A B ltac:(lia)) as HA.
  pose proof (Z.mod_pos_bound A B HB) as HR.
  destruct (Z.compare_spec (2 * (A mod B)) B); try destruct (Z.even _); nia.
Qed.

(** In the normal range the relative error is at most [2^-53]. *)
Lemma rnd_frac_error A B :
  0 < B → 2 ^ 53 * B ≤ A → sf_finite (rnd_frac false A B) = true →
  - A ≤ 2 ^ 53 * (sf_int (rnd_frac false A B) * B - A) ≤ A.
Proof.
  intros HB HA Hfin.
  assert (0 < 2 ^ 53) as H53 by done.
  assert (0 ≤ A) as HA0 by nia.
  rewrite sf_int_rnd_frac by done. cbn zeta. cbn [cond_Zopp].
  pose proof (rnd_frac_cases A B HA0 HB) as Hcases. cbn zeta in Hcases.
  assert (2 ^ 53 ≤ A / B) as HN by (apply Z.div_le_lower_bound; lia).
  pose proof (Zdigits2_pow2_le (A / B) 53 ltac:(lia) HN) as Hd.
  pose proof (Zdigits2_bounds (A / B) ltac:(lia)) as [Hlo _].
  set (d := Zdigits2 (A / B)) in *.
  set (c := fexp prec emax (d - 1074)) in *.
  assert (c + 1074 = d - 53) as Hj by lia.
  rewrite Hj.
  assert (0 < 2 ^ (d - 53)) as Hpj by (apply Z.pow_pos_nonneg; lia).
  assert (2 ^ (d - 1) = 2 ^ 52 * 2 ^ (d - 53)) as Hsplit
    by (rewrite <- pow2_split by lia; f_equal; lia).
  assert (2 ^ (d - 1) * B ≤ A) as HloA.
  { pose proof (Z.mul_div_le A B HB). nia. }
  pose proof (rdiv_error A (B * 2 ^ (d - 53)) ltac:(nia)) as Herr.
  set (q := rdiv A (B * 2 ^ (d - 53))) in *.
  assert (2 ^ 53 = 2 ^ 52 * 2) as -> by done.
  assert (2 ^ 52 * (B * 2 ^ (d - 53)) ≤ A) as Hulp by nia.
  assert (0 < 2 ^ 52) by done.
  set (u := B * 2 ^ (d - 53)) in *.
  replace (q * 2 ^ (d - 53) * B) with (q * u) by (unfold u; ring).
  nia.
Qed.

Lemma sf_eqv_sf_int x y :
  sf_eqv x y → sf_int x = sf_int y ∧ sf_finite x = sf_finite y.
Proof. intros [-> | (s & s' & -> & ->)]%sf_eqv_inv; done. Qed.

Lemma sf_eqv_valid x y : sf_eqv x y → valid_binary y = true → valid_binary x = true.
Proof. intros [-> | (s & s' & -> & ->)]%sf_eqv_inv; done. Qed.

Lemma sf_eqv_nonneg x y : sf_eqv x y → sf_nonneg y = true → sf_nonneg x = true.
Proof. intros [-> | (s & s' & -> & ->)]%sf_eqv_inv; done. Qed.

Lemma rnd64_ge_one n : 1 ≤ n → SFleb sf_one (rnd64 (n * 2 ^ 1074)) = true.
Proof.
  intros Hn. unfold sf_one.
  rewrite <- (rnd64_valid false 4503599627370496 (-52) eq_refl).
  apply rnd64_mono. fold sf_one. rewrite sf_int_one, <- (Z.mul_1_l (2 ^ 1074)) at 1.
  apply Z.mul_le_mono_nonneg_r; [done | lia].
Qed.

(** [n * (m / n)] lies within half a unit of [m]. *)
Lemma SFmul_SFdiv_int n m :
  0 < n ≤ 2 ^ 31 → 0 ≤ m < 2 ^ 31 →
  let p := SFmul prec emax (rnd64 (n * 2 ^ 1074))
             (SFdiv prec emax (rnd64 (m * 2 ^ 1074)) (rnd64 (n * 2 ^ 1074))) in
  sf_finite p = true ∧ - 2 ^ 1074 < 2 * (sf_int p - m * 2 ^ 1074) < 2 ^ 1074.
Proof.
  intros Hn Hm.
  assert (2 ^ 31 ≤ 2 ^ 53) as H3153 by done.
  destruct (rnd64_int n ltac:(lia)) as [Hfn Hin].
  destruct (rnd64_int m ltac:(lia)) as [Hfm Him].
  pose proof (rnd64_valid_binary (n * 2 ^ 1074)) as Hvn.
  pose proof (rnd64_valid_binary (m * 2 ^ 1074)) as Hvm.
  pose proof (rnd64_ge_one n ltac:(lia)) as Hone.
  assert (0 < 2 ^ 1074) as HU by done.
  assert (2 ^ 85 ≤ 2 ^ 1074) as HU85 by (by apply Z.pow_le_mono_r).
  set (U := 2 ^ 1074) in *.
  set (xn := rnd64 (n * U)) in *. set (xm := rnd64 (m * U)) in *.
  pose proof (SFdiv_rnd xm xn Hvm Hvn Hfm Hfn Hone) as Hw.
  pose proof (SFdiv_bounded xm xn Hvm Hvn Hfm Hfn Hone) as Hfw.
  rewrite Him, Hin in Hw. fold U in Hw.
  set (w := SFdiv prec emax xm xn) in *.
  assert (valid_binary w = true) as Hvw
    by (eapply sf_eqv_valid; [exact Hw | apply rnd_sfrac_valid; lia]).
  pose proof (SFmul_rnd xn w Hvn Hvw Hfn Hfw) as Hp.
  rewrite Hin in Hp. fold U in Hp.
  destruct (sf_eqv_sf_int _ _ Hw) as [HW HWfin].
  cbn zeta. set (p := SFmul prec emax xn w) in *.
  destruct (Z.eq_dec m 0) as [-> | Hm0].
  - (* zero *)
    change (0 * U * U) with 0 in *.
    change (sf_int (rnd_sfrac 0 (n * U))) with 0 in HW.
    rewrite HW, Z.mul_0_r in Hp.
    destruct (sf_eqv_sf_int _ _ Hp) as [HP HPfin].
    rewrite HPfin, HP. change (sf_int (rnd_sfrac 0 U)) with 0. split; [done | lia].
  - assert (0 < m * U * U) as HA1 by nia.
    change (m * U * U) with (cond_Zopp false (m * U * U)) in Hw, HW, HWfin.
    rewrite rnd_sfrac_signed in Hw, HW, HWfin by done.
    pose proof (rnd_frac_error (m * U * U) (n * U) ltac:(lia)) as H1.
    rewrite <- HWfin, <- HW in H1. specialize (H1 ltac:(nia) Hfw).
    set (W := sf_int w) in *.
    (* n * W is within 2^-53 of m * U *)
    assert (- (m * U) ≤ 2 ^ 53 * (n * W - m * U) ≤ m * U) as H1'.
    { assert (2 ^ 53 * (W * (n * U) - m * U * U) = (2 ^ 53 * (n * W - m * U)) * U) as Heq
        by ring.
      rewrite Heq in H1. nia. }
    assert (m * U < 2 ^ 31 * U) as HT by nia.
    assert (0 < m * U) as HT0 by nia.
    set (T := m * U) in *. set (a := n * W) in *.
    assert (0 < 2 ^ 53) as H53 by done.
    assert (2 ^ 85 = 2 ^ 53 * 2 ^ 32) as H85 by done.
    assert (2 ^ 32 = 2 * 2 ^ 31) as H32 by done.
    assert (U ≤ T) as HUT by (unfold T; nia).
    assert (2 ^ 53 ≤ a ≤ 2 * T) as Ha by lia.
    destruct (sf_eqv_sf_int _ _ Hp) as [HP HPfin].
    assert (0 < n * U * W) as HA2 by (replace (n * U * W) with (a * U) by (unfold a; ring); nia).
    change (n * U * W) with (cond_Zopp false (n * U * W)) in Hp, HP, HPfin.
    rewrite rnd_sfrac_signed in Hp, HP, HPfin by done.
    assert (sf_finite p = true) as Hfp.
    { apply (SFleb_finite_r _ (rnd64 (2 ^ 32 * U))).
      - eapply sf_eqv_nonneg; [exact Hp |]. apply rnd_frac_nonneg; lia.
      - destruct Hp as [Hp1 _]. eapply SFleb_trans; [exact Hp1 |].
        rewrite <- rnd_sfrac_int.
        change (2 ^ 32 * U) with (cond_Zopp false (2 ^ 32 * U)).
        rewrite rnd_sfrac_signed by lia.
        apply rnd_frac_mono; [lia | lia | lia |].
        replace (n * U * W) with (a * U) by (unfold a; ring). nia.
      - apply rnd64_int. by vm_compute. }
    split; [done |].
    pose proof (rnd_frac_error (n * U * W) U HU) as H2.
    rewrite <- HPfin, <- HP in H2.
    assert (2 ^ 53 * U ≤ n * U * W) as Hnormal
      by (replace (n * U * W) with (a * U) by (unfold a; ring); nia).
    specialize (H2 Hnormal Hfp).
    set (P := sf_int p) in *.
    assert (- a ≤ 2 ^ 53 * (P - a) ≤ a) as H2'.
    { assert (2 ^ 53 * (P * U - n * U * W) = (2 ^ 53 * (P - a)) * U) as Heq
        by (unfold a; ring).
      rewrite Heq in H2. replace (n * U * W) with (a * U) in H2 by (unfold a; ring). nia. }
    lia.
Qed.

(** ** binary64 satisfies the laws of rounding *)

Lemma Prim2SF_of_int z : Prim2SF (b64_of_int z) = rnd64 (z * 2 ^ 1074).
Proof.
  unfold b64_of_int. rewrite binary_normalize_spec by done.
  change (0 + 1074) with 1074. apply Prim2SF_SF2Prim, rnd64_valid_binary.
Qed.

Lemma Prim2SF_zero : Prim2SF (zero : float) = S754_zero false.
Proof. done. Qed.

Lemma Prim2SF_one : Prim2SF (one : float) = sf_one.
Proof. done. Qed.

Lemma b64_fle_spec (a b : float) : fle a b = SFleb (Prim2SF a) (Prim2SF b).
Proof. cbn. apply leb_spec. Qed.

(** A float that compares equal to zero is a zero. *)
Lemma b64_feq_zero (z : float) : feq z zero = true → ∃ s, Prim2SF z = S754_zero s.
Proof.
  unfold feq. rewrite !b64_fle_spec, Prim2SF_zero.
  intros [H1 H2]%andb_true_iff.
  destruct (sf_eqv_inv (Prim2SF z) (S754_zero false) (conj H1 H2))
    as [-> | (s & _ & -> & _)]; eauto.
Qed.

Lemma b64_feq_intro (a b : float) : sf_eqv (Prim2SF a) (Prim2SF b) → feq a b = true.
Proof. intros [H1 H2]. unfold feq. by rewrite !b64_fle_spec, H1, H2. Qed.

Lemma SFsub_diag x :
  sf_finite x = true → x ≠ S754_zero true → SFsub prec emax x x = S754_zero false.
Proof.
  destruct x as [[] | | | s m e]; try done. intros _ _.
  unfold SFsub. by rewrite Z.sub_diag.
Qed.

(** *** Rounding to an integer *)

Lemma SF2Q_sf_int x :
  valid_binary x = true → sf_finite x = true →
  (SF2Q x * inject_Z (2 ^ 1074) == inject_Z (sf_int x))%Q.
Proof.
  destruct x as [s | | | s m e]; try done; intros Hv _.
  apply bounded_spec in Hv as (He & _).
  rewrite sf_int_finite. unfold SF2Q.
  rewrite <- cond_Zopp_mul, inject_Z_mult.
  rewrite !Zpower_Qpower by lia. rewrite Qpower_plus by done.
  symmetry. apply Qmult_assoc.
Qed.

Lemma inject_pow_pos k : 0 ≤ k → (0 < inject_Z (2 ^ k))%Q.
Proof.
  intros Hk. change 0%Q with (inject_Z 0). rewrite <- Zlt_Qlt.
  by apply Z.pow_pos_nonneg.
Qed.

Lemma SF2Q_le x y :
  valid_binary x = true → valid_binary y = true →
  sf_finite x = true → sf_finite y = true →
  SFleb x y = true → (SF2Q x <= SF2Q y)%Q.
Proof.
  intros Hvx Hvy Hfx Hfy Hxy.
  pose proof (SFleb_sf_int x y Hvx Hvy Hfx Hfy Hxy) as Hint.
  rewrite Zle_Qle in Hint.
  rewrite <- (SF2Q_sf_int x), <- (SF2Q_sf_int y) in Hint by done.
  pose proof (inject_pow_pos 1074 ltac:(lia)) as HU.
  set (u := inject_Z (2 ^ 1074)) in *. nra.
Qed.

Lemma Qround_half_even_near (q : Q) (m : Z) :
  (inject_Z m - (1 # 2) < q < inject_Z m + (1 # 2))%Q → Qround_half_even q = m.
Proof.
  intros [Hlo Hhi]. pose proof (Qfloor_bounds q) as [Hf1 Hf2].
  assert (Qfloor q = m ∨ Qfloor q = m - 1) as [Hf | Hf].
  { assert (Qfloor q < m + 1) as H1.
    { rewrite Zlt_Qlt, inject_Z_plus. change (inject_Z 1) with 1%Q. lra. }
    assert (m < Qfloor q + 2) as H2.
    { rewrite Zlt_Qlt, inject_Z_plus. change (inject_Z 2) with 2%Q. lra. }
    lia. }
  - unfold Qround_half_even. rewrite Hf.
    assert ((q - inject_Z m ?= 1 # 2)%Q = Lt) as ->; [| done].
    apply (proj1 (Qlt_alt _ _)). lra.
  - unfold Qround_half_even. rewrite Hf.
    assert ((q - inject_Z (m - 1) ?= 1 # 2)%Q = Gt) as ->; [| lia].
    apply (proj1 (Qgt_alt _ _)). unfold Z.sub. rewrite inject_Z_plus, inject_Z_opp.
    change (inject_Z 1) with 1%Q. lra.
Qed.

Lemma to_int32_ge z : INT_MIN ≤ to_int32 z.
Proof. unfold to_int32, INT_MIN. case_match; lia. Qed.

Lemma b64_round_finite (x : float) :
  sf_finite (Prim2SF x) = true →
  b64_round x = to_int32 (Qround_half_even (SF2Q (Prim2SF x))).
Proof. unfold b64_round. by destruct (Prim2SF x). Qed.

Lemma b64_round_ge (x : float) : INT_MIN ≤ b64_round x.
Proof.
  unfold b64_round. destruct (Prim2SF x); try done.
  apply to_int32_ge.
Qed.

(** *** The laws *)

Lemma b64_of_int_finite z : Z.abs z ≤ 2 ^ 53 → isfinite (b64_of_int z) = true.
Proof.
  intros Hz. rewrite b64_isfinite_spec, Prim2SF_of_int. by apply rnd64_int.
Qed.

Lemma b64_of_int_mono z1 z2 : z1 ≤ z2 → fle (b64_of_int z1) (b64_of_int z2) = true.
Proof.
  intros Hz. rewrite b64_fle_spec, !Prim2SF_of_int. apply rnd64_mono.
  by apply Z.mul_le_mono_nonneg_r.
Qed.

Lemma b64_fsub_of_int z1 z2 :
  Z.abs z1 ≤ 2 ^ 52 → Z.abs z2 ≤ 2 ^ 52 →
  PrimFloat.sub (b64_of_int z1) (b64_of_int z2) = b64_of_int (z1 - z2).
Proof.
  intros Hz1 Hz2. assert (2 ^ 53 = 2 * 2 ^ 52) as H53 by done.
  apply Prim2SF_inj. rewrite sub_spec, !Prim2SF_of_int.
  destruct (rnd64_int z1 ltac:(lia)) as [Hf1 Hi1].
  destruct (rnd64_int z2 ltac:(lia)) as [Hf2 Hi2].
  destruct (rnd64_int (z1 - z2) ltac:(lia)) as [Hf Hi].
  destruct (Z.eq_dec z1 z2) as [<- | Hne].
  - rewrite Z.sub_diag. change (rnd64 (0 * 2 ^ 1074)) with (S754_zero false).
    apply SFsub_diag; [done |].
    intros Hzero. rewrite Hzero in Hi1. change (sf_int (S754_zero true)) with 0 in Hi1.
    assert (z1 = 0) as -> by (assert (0 < 2 ^ 1074) by done; nia).
    done.
  - pose proof (SFsub_rnd64 _ _ (rnd64_valid_binary (z1 * 2 ^ 1074))
                  (rnd64_valid_binary (z2 * 2 ^ 1074)) Hf1 Hf2) as Heqv.
    rewrite Hi1, Hi2, <- Z.mul_sub_distr_r in Heqv.
    apply sf_eqv_inv in Heqv as [Heq | (s & s' & _ & Hzero)]; [exact Heq |].
    rewrite Hzero in Hi. change (sf_int (S754_zero s')) with 0 in Hi.
    assert (0 < 2 ^ 1074) by done. nia.
Qed.

Lemma b64_cvRound_mono (a b : float) :
  fle a b = true → b64_round b ≠ INT_MIN → b64_round a ≤ b64_round b.
Proof.
  rewrite b64_fle_spec. intros Hab Hb.
  destruct (sf_finite (Prim2SF b)) eqn:Hfb.
  2:{ exfalso. apply Hb. unfold b64_round. by destruct (Prim2SF b). }
  destruct (sf_finite (Prim2SF a)) eqn:Hfa.
  - rewrite !b64_round_finite by done. apply to_int32_mono.
    + apply Qround_half_even_mono, SF2Q_le; auto using Prim2SF_valid.
    + by rewrite <- b64_round_finite.
  - assert (b64_round a = INT_MIN) as ->
      by (unfold b64_round; by destruct (Prim2SF a)).
    apply b64_round_ge.
Qed.

Lemma b64_cvRound_mul_div n m :
  0 < n ≤ 2 ^ 31 → 0 ≤ m < 2 ^ 31 →
  b64_round (PrimFloat.mul (b64_of_int n)
               (PrimFloat.div (b64_of_int m) (b64_of_int n))) = m.
Proof.
  intros Hn Hm.
  pose proof (SFmul_SFdiv_int n m Hn Hm) as [Hfin [Hlo Hhi]].
  set (x := PrimFloat.mul _ _).
  assert (Prim2SF x
          = SFmul prec emax (rnd64 (n * 2 ^ 1074))
              (SFdiv prec emax (rnd64 (m * 2 ^ 1074)) (rnd64 (n * 2 ^ 1074)))) as Hx.
  { unfold x. by rewrite mul_spec, div_spec, !Prim2SF_of_int. }
  rewrite <- Hx in Hfin, Hlo, Hhi.
  rewrite b64_round_finite by done.
  pose proof (SF2Q_sf_int (Prim2SF x) (Prim2SF_valid x) Hfin) as HP.
  pose proof (inject_pow_pos 1074 ltac:(lia)) as HU.
  rewrite Zlt_Qlt in Hlo, Hhi.
  rewrite inject_Z_mult in Hlo, Hhi. unfold Z.sub in Hlo, Hhi.
  rewrite inject_Z_plus in Hlo, Hhi. rewrite !inject_Z_opp in Hlo. rewrite inject_Z_opp in Hhi.
  rewrite (inject_Z_mult m (2 ^ 1074)) in Hlo, Hhi.
  rewrite <- HP in Hlo, Hhi.
  change (inject_Z 2) with 2%Q in Hlo, Hhi.
  set (u := inject_Z (2 ^ 1074)) in *. set (q := SF2Q (Prim2SF x)) in *.
  rewrite (Qround_half_even_near q m).
  - apply to_int32_id. unfold INT_MIN. lia.
  - split; nra.
Qed.

#[export] Instance binary64_laws : ArithLaws float.
Proof.
  split.
  - exact binary64_basic.
  - exact b64_of_int_finite.
  - intros z1 z2 _ _. apply b64_of_int_mono.
  - exact b64_fsub_of_int.
  - (* fmul_not_nan *)
    intros a b. rewrite b64_isnan_false, !b64_isfinite_spec. cbn [fmul fdiv fadd fsub binary64]. rewrite mul_spec.
    apply SFmul_notnan; apply Prim2SF_valid.
  - (* fdiv_bounded *)
    intros a c. rewrite !b64_isfinite_spec, b64_fle_spec, Prim2SF_one. cbn [fmul fdiv fadd fsub binary64].
    rewrite div_spec. apply SFdiv_bounded; apply Prim2SF_valid.
  - (* fsub_mono_l *)
    intros a a' b. rewrite b64_isfinite_spec, !b64_fle_spec. cbn [fmul fdiv fadd fsub binary64]. rewrite !sub_spec.
    apply SFsub_mono_l; apply Prim2SF_valid.
  - (* fsub_anti_r *)
    intros a b b'. rewrite b64_isnan_false, !b64_isfinite_spec, !b64_fle_spec. cbn [fmul fdiv fadd fsub binary64].
    rewrite !sub_spec. apply SFsub_anti_r; apply Prim2SF_valid.
  - (* fadd_mono_l *)
    intros a a' b. rewrite b64_isfinite_spec, !b64_fle_spec. cbn [fmul fdiv fadd fsub binary64]. rewrite !add_spec.
    apply SFadd_mono_l; apply Prim2SF_valid.
  - (* fmul_mono_r *)
    intros a b b'. rewrite !b64_isnan_false, !b64_fle_spec, Prim2SF_zero. cbn [fmul fdiv fadd fsub binary64].
    rewrite !mul_spec. apply SFmul_mono_r; apply Prim2SF_valid.
  - (* fdiv_mono_l *)
    intros a a' c. rewrite !b64_isfinite_spec, !b64_fle_spec, Prim2SF_one. cbn [fmul fdiv fadd fsub binary64].
    rewrite !div_spec. intros Ha Ha' Haa' Hc Hone.
    apply SFdiv_mono_l; auto using Prim2SF_valid.
  - (* fmul_zero_l *)
    intros z b [s Hz]%b64_feq_zero. rewrite b64_isfinite_spec. intros Hb.
    apply b64_feq_intro. cbn [fmul fdiv fadd fsub binary64]. rewrite mul_spec, Hz, Prim2SF_zero.
    unfold SF64mul.
    destruct (SFmul_zero_l s (Prim2SF b) Hb) as [s' ->]. by split.
  - (* fdiv_zero_l *)
    intros z c [s Hz]%b64_feq_zero. rewrite b64_isfinite_spec, b64_fle_spec, Prim2SF_one.
    intros Hc Hone. apply b64_feq_intro. cbn [fmul fdiv fadd fsub binary64]. rewrite div_spec, Hz, Prim2SF_zero.
    unfold SF64div.
    destruct (SFdiv_zero_l s (Prim2SF c) Hc Hone) as [s' ->]. by split.
  - (* fadd_zero_l *)
    intros z x [s Hz]%b64_feq_zero. rewrite b64_isnan_false. intros Hx.
    apply b64_feq_intro. cbn [fmul fdiv fadd fsub binary64]. rewrite add_spec, Hz. by apply SFadd_zero_l.
  - exact b64_cvRound_mono.
  - exact b64_cvRound_mul_div.
Qed.


(** ** Properties that rest on the comparison alone *)

Section BasicProperties.
Context {F : Type} `{BasicLaws F}.
Implicit Types (E W : list (list F)) (l : list F) (v m e x y : F).

(** *** Scalars *)

Lemma isfinite_not_nan x : isfinite x = true → isnan x = false.
Proof. unfold isfinite. by destruct (isnan x). Qed.

Lemma zero_not_nan : isnan (zero : F) = false.
Proof. apply isfinite_not_nan, zero_finite. Qed.

Local Hint Resolve isfinite_not_nan zero_finite zero_not_nan : core.

Lemma fle_false_ge x y :
  isnan x = false → isnan y = false → fle x y = false → fle y x = true.
Proof. intros Hx Hy Hxy. destruct (fle_total x y Hx Hy); congruence. Qed.

Lemma fle_lt_trans x y z : fle x y = true → fle z y = false → fle z x = false.
Proof.
  intros Hxy Hzy. destruct (fle z x) eqn:Hzx; [| done].
  by rewrite (fle_trans z x y) in Hzy.
Qed.

Lemma feq_sym x y : feq x y = true → feq y x = true.
Proof. unfold feq. rewrite !andb_true_iff. tauto. Qed.


Lemma feq_intro x y : fle x y = true → fle y x = true → feq x y = true.
Proof. unfold feq. intros -> ->. done. Qed.

(** [np.maximum(0, x)] is 0 or [x], and never below 0. *)
Lemma np_maximum_zero_ge x : isnan x = false → fle zero (np_maximum zero x) = true.
Proof.
  intros Hx. unfold np_maximum. rewrite zero_not_nan, orb_false_r.
  destruct (fle x zero) eqn:Hx0.
  - apply fle_refl, zero_not_nan.
  - apply fle_false_ge; auto.
Qed.

Lemma np_maximum_zero_mono x y :
  fle x y = true → fle (np_maximum zero x) (np_maximum zero y) = true.
Proof.
  intros Hxy. destruct (fle_not_nan _ _ Hxy) as [Hx Hy].
  unfold np_maximum. rewrite zero_not_nan, !orb_false_r.
  destruct (fle x zero) eqn:Hx0, (fle y zero) eqn:Hy0; try done.
  - apply fle_refl, zero_not_nan.
  - apply fle_false_ge; auto.
  - by rewrite (fle_trans x y zero) in Hx0.
Qed.


(** Python's [min] returns one of its arguments, below both. *)
Lemma py_min_le x y :
  isnan x = false → isnan y = false →
  fle (py_min x y) x = true ∧ fle (py_min x y) y = true.
Proof.
  intros Hx Hy. unfold py_min. rewrite flt_fle by done.
  destruct (fle x y) eqn:Hxy; simpl.
  - split; [by apply fle_refl | done].
  - split; [apply fle_false_ge; auto | by apply fle_refl].
Qed.

Lemma py_min_finite x y :
  isfinite x = true → isfinite y = true → isfinite (py_min x y) = true.
Proof. unfold py_min. by destruct (flt y x). Qed.

(** *** Arrays *)

Lemma cell_elementwise (f : F → F) E i j :
  cell (elementwise f E) i j = f <$> cell E i j.
Proof.
  unfold cell, elementwise. rewrite list_lookup_fmap.
  destruct (E !! i) as [row |]; simpl; [apply list_lookup_fmap | done].
Qed.

Lemma ravel_elementwise (f : F → F) E : ravel (elementwise f E) = f <$> ravel E.
Proof.
  unfold ravel, elementwise. induction E as [| row E IH]; csimpl; [done |].
  by rewrite fmap_app, IH.
Qed.

Lemma rect_elementwise (f : F → F) rows cols E :
  rect rows cols E → rect rows cols (elementwise f E).
Proof.
  unfold rect, elementwise. intros [Hlen Hrows]. split.
  - by rewrite length_fmap.
  - apply Forall_fmap. eapply Forall_impl; [exact Hrows |].
    intros row Hrow. simpl. by rewrite length_fmap.
Qed.

Lemma all_cells_elementwise (P : F → bool) (f : F → F) E :
  (∀ e, P (f e) = true) → all_cells P (elementwise f E).
Proof.
  intros Hf i j c. rewrite cell_elementwise.
  destruct (cell E i j); simpl; [| done]. by intros [= <-].
Qed.

Lemma elem_of_ravel E x : x ∈ ravel E ↔ ∃ i j, cell E i j = Some x.
Proof.
  unfold ravel, cell. rewrite list_elem_of_join. split.
  - intros (row & Hx & Hrow).
    apply list_elem_of_lookup in Hx as [j Hj].
    apply list_elem_of_lookup in Hrow as [i Hi].
    exists i, j. by rewrite Hi.
  - intros (i & j & Hij). destruct (E !! i) as [row |] eqn:Hi; [| done].
    exists row. split; eapply list_elem_of_lookup_2; eauto.
Qed.

Lemma all_cells_ravel (P : F → bool) E :
  all_cells P E ↔ Forall (λ x, P x = true) (ravel E).
Proof.
  rewrite Forall_forall. unfold all_cells. split.
  - intros HP x Hx. apply elem_of_ravel in Hx as (i & j & Hij). eauto.
  - intros HP i j e Hij. apply HP, elem_of_ravel. eauto.
Qed.

Lemma ravel_lookup rows cols E i j :
  rect rows cols E → (j < cols)%nat → ravel E !! flat_index cols i j = cell E i j.
Proof.
  intros [_ Hrows] Hj. apply option_eq. intros x.
  unfold ravel, flat_index. rewrite join_lookup_Some_same_length' by done.
  unfold cell. destruct (E !! i) as [row |]; simpl.
  - split; [by intros (l & [= <-] & ?) | eauto].
  - split; [by intros (l & ? & ?) | done].
Qed.

Lemma ravel_lookup_inv rows cols E k x :
  rect rows cols E → ravel E !! k = Some x →
  ∃ i j, (j < cols)%nat ∧ k = flat_index cols i j ∧ cell E i j = Some x.
Proof.
  intros [_ Hrows] Hk. unfold ravel in Hk.
  apply (join_lookup_Some_same_length cols) in Hk as (i & row & j & Hi & Hj & ->);
    [| done].
  exists i, j. split_and!; [| done |].
  - rewrite Forall_forall in Hrows.
    rewrite <- (Hrows row) by (by eapply list_elem_of_lookup_2).
    by eapply lookup_lt_Some.
  - unfold cell. by rewrite Hi.
Qed.

Lemma unravel_flat_index rows cols i j :
  (j < cols)%nat → unravel_index (flat_index cols i j) (rows, cols) = (i, j).
Proof.
  intros Hj. unfold unravel_index, flat_index. simpl. f_equal.
  - symmetry. apply (Nat.div_unique _ _ _ j); lia.
  - symmetry. apply (Nat.mod_unique _ _ i); lia.
Qed.

Lemma shape_rect rows cols E : rect rows cols E → (0 < rows)%nat → shape E = (rows, cols).
Proof.
  intros [Hlen Hrows] Hpos. unfold shape.
  destruct E as [| row E]; simpl in *; [lia |].
  apply Forall_cons in Hrows as [Hrow _]. congruence.
Qed.

Lemma rect_ravel_nonempty rows cols E :
  rect rows cols E → (0 < rows)%nat → (0 < cols)%nat → ravel E ≠ [].
Proof.
  intros [Hlen Hrows] Hr Hc. destruct E as [| row E]; simpl in *; [lia |].
  apply Forall_cons in Hrows as [Hrow _].
  destruct row; simpl in *; [lia | done].
Qed.

(** *** Reductions *)

(** [np.minimum.reduce] on NaN-free data returns an element below all. *)
Lemma foldl_np_minimum_spec l x :
  isnan x = false → Forall (λ y, notnan y = true) l →
  foldl np_minimum x l ∈ x :: l ∧
  ∀ y, y ∈ x :: l → fle (foldl np_minimum x l) y = true.
Proof.
  revert x. induction l as [| a l IH]; intros x Hx Hl; simpl.
  - split; [by left |]. intros y ->%list_elem_of_singleton. by apply fle_refl.
  - apply Forall_cons in Hl as [Ha Hl]. apply negb_true_iff in Ha.
    unfold np_minimum at 2 4. rewrite Hx, orb_false_r.
    destruct (fle x a) eqn:Hxa.
    + destruct (IH x Hx Hl) as [Hin Hle]. split.
      * apply elem_of_cons in Hin as [-> | Hin]; [by left | by do 2 right].
      * intros y [-> | [-> | Hy]%elem_of_cons]%elem_of_cons.
        -- apply Hle. by left.
        -- apply fle_trans with x; [apply Hle; by left | done].
        -- apply Hle. by right.
    + destruct (IH a Ha Hl) as [Hin Hle]. split.
      * by right.
      * intros y [-> | Hy]%elem_of_cons; [| by apply Hle].
        apply fle_trans with a; [apply Hle; by left | by apply fle_false_ge].
Qed.

Lemma np_min_spec E :
  all_cells notnan E → ravel E ≠ [] → ∃ m, np_min E = Some m ∧ is_min E m.
Proof.
  intros HE Hne. apply all_cells_ravel in HE.
  unfold np_min, reduce, is_min.
  destruct (ravel E) as [| x l] eqn:Hr; [done |].
  apply Forall_cons in HE as [Hx Hl]. apply negb_true_iff in Hx.
  destruct (foldl_np_minimum_spec l x Hx Hl) as [Hin Hle].
  rewrite <- Hr in Hin, Hle.
  exists (foldl np_minimum x l). split_and!; [done | by apply elem_of_ravel |].
  intros i j e He. apply Hle, elem_of_ravel. eauto.
Qed.

(** [np.fmin.reduce] skips NaN: with one non-NaN element in the data it
    returns a non-NaN element below every non-NaN element. *)
Lemma foldl_np_fmin_spec l x :
  Exists (λ y, notnan y = true) (x :: l) →
  isnan (foldl np_fmin x l) = false ∧
  foldl np_fmin x l ∈ x :: l ∧
  ∀ y, y ∈ x :: l → isnan y = false → fle (foldl np_fmin x l) y = true.
Proof.
  revert x. induction l as [| a l IH]; intros x Hex; simpl.
  - apply Exists_cons in Hex as [Hx%negb_true_iff | Hex]; [| by inversion Hex].
    split_and!; [done | by left |].
    intros y ->%list_elem_of_singleton _. by apply fle_refl.
  - assert (∀ z, foldl np_fmin z l ∈ z :: l → z ∈ x :: a :: l →
                 foldl np_fmin z l ∈ x :: a :: l) as Hmem.
    { intros z [-> | Hin]%elem_of_cons Hz; [done | by do 2 right]. }
    unfold np_fmin at 2 4 6. destruct (isnan a) eqn:Ha.
    + (* a NaN is skipped *)
      rewrite orb_true_r.
      destruct (IH x) as (Hn & Hin & Hle).
      { apply Exists_cons in Hex as [Hx | Hex]; [by left |].
        apply Exists_cons in Hex as [Hx | Hex]; [| by right].
        unfold notnan in Hx. by rewrite Ha in Hx. }
      split_and!; [done | apply Hmem; [done | by left] |].
      intros y [-> | [-> | Hy]%elem_of_cons]%elem_of_cons Hy'.
      * apply Hle; [by left | done].
      * congruence.
      * apply Hle; [by right | done].
    + rewrite orb_false_r. destruct (fle x a) eqn:Hxa.
      * destruct (fle_not_nan _ _ Hxa) as [Hx _].
        destruct (IH x) as (Hn & Hin & Hle).
        { left. unfold notnan. by rewrite Hx. }
        split_and!; [done | apply Hmem; [done | by left] |].
        intros y [-> | [-> | Hy]%elem_of_cons]%elem_of_cons Hy'.
        -- apply Hle; [by left | done].
        -- apply fle_trans with x; [apply Hle; [by left | done] | done].
        -- apply Hle; [by right | done].
      * destruct (IH a) as (Hn & Hin & Hle).
        { left. unfold notnan. by rewrite Ha. }
        split_and!; [done | apply Hmem; [done | right; by left] |].
        intros y [-> | Hy]%elem_of_cons Hy'; [| by apply Hle].
        apply fle_trans with a; [apply Hle; [by left | done] |].
        by apply fle_false_ge.
Qed.

(** *** [np.argmax] *)

(** Invariant of the loop: [pre] is the prefix already scanned, [mp] its
    maximum, first reached at index [k]. *)
Lemma argmax_loop_spec rest pre mp k :
  Forall (λ y, notnan y = true) (pre ++ rest) →
  pre !! k = Some mp →
  (∀ j y, pre !! j = Some y → fle y mp = true) →
  (∀ j y, (j < k)%nat → pre !! j = Some y → fle mp y = false) →
  ∃ v, (pre ++ rest) !! argmax_loop mp k (length pre) rest = Some v ∧
       (∀ j y, (pre ++ rest) !! j = Some y → fle y v = true) ∧
       (∀ j y, (j < argmax_loop mp k (length pre) rest)%nat →
               (pre ++ rest) !! j = Some y → fle v y = false).
Proof.
  revert pre mp k. induction rest as [| x rest IH]; intros pre mp k Hnn Hk Hmax Hfirst.
  - simpl. rewrite app_nil_r. eauto.
  - assert (isnan x = false ∧ isnan mp = false) as [Hx Hmp].
    { rewrite Forall_forall in Hnn. split; apply negb_true_iff, Hnn.
      - apply elem_of_app. right. by left.
      - apply elem_of_app. left. by eapply list_elem_of_lookup_2. }
    assert (length (pre ++ [x]) = S (length pre)) as Hlen
      by (rewrite length_app; simpl; lia).
    rewrite (cons_middle x pre rest), app_assoc in Hnn |- *.
    simpl. destruct (fle x mp) eqn:Hxmp; simpl.
    + (* the maximum stays *)
      rewrite <- Hlen. apply IH; [done | | |].
      * by apply lookup_app_l_Some.
      * intros j y [Hy | [_ Hy]]%lookup_app_Some; [eauto |].
        destruct (j - length pre)%nat; simpl in Hy; [| done]. congruence.
      * intros j y Hj Hy. apply (Hfirst j y Hj).
        apply lookup_lt_Some in Hk.
        by rewrite lookup_app_l in Hy by lia.
    + (* a strictly larger element *)
      rewrite Hx, <- Hlen.
      assert (fle mp x = true) as Hmpx by (by apply fle_false_ge).
      apply IH; [done | | |].
      * rewrite lookup_app_r by lia. by rewrite Nat.sub_diag.
      * intros j y [Hy | [_ Hy]]%lookup_app_Some.
        -- eauto using fle_trans.
        -- destruct (j - length pre)%nat; simpl in Hy; [| done].
           injection Hy as <-. by apply fle_refl.
      * intros j y Hj Hy. rewrite lookup_app_l in Hy by lia.
        eapply fle_lt_trans; eauto.
Qed.

Lemma np_argmax_spec l :
  l ≠ [] → Forall (λ y, notnan y = true) l →
  ∃ k v, np_argmax l = Some k ∧ l !! k = Some v ∧
         (∀ j y, l !! j = Some y → fle y v = true) ∧
         (∀ j y, (j < k)%nat → l !! j = Some y → fle v y = false).
Proof.
  intros Hne Hnn. destruct l as [| x l]; [done |]. simpl.
  pose proof Hnn as [Hx%negb_true_iff _]%Forall_cons. rewrite Hx.
  destruct (argmax_loop_spec l [x] x 0%nat) as (v & Hv & Hmax & Hfirst);
    [done | done | | | by eauto 10].
  - intros [| j] y; simpl; [| done]. intros [= <-]. by apply fle_refl.
  - intros j y Hj. lia.
Qed.

(** *** The level expression *)

Lemma all_cells_finite_notnan E : all_cells isfinite E → all_cells notnan E.
Proof. intros HE i j e He. unfold notnan. by rewrite (isfinite_not_nan e) by eauto. Qed.

Lemma is_min_finite E m : all_cells isfinite E → is_min E m → isfinite m = true.
Proof. intros HE [(i & j & Hm) _]. eauto. Qed.

Lemma cell_in_rect rows cols E i j e :
  rect rows cols E → cell E i j = Some e → (i < rows)%nat ∧ (j < cols)%nat.
Proof.
  intros [Hlen Hrows] He. unfold cell in He.
  destruct (E !! i) as [row |] eqn:Hi; [| done]. simpl in He. split.
  - rewrite <- Hlen. by eapply lookup_lt_Some.
  - rewrite Forall_forall in Hrows.
    rewrite <- (Hrows row) by (by eapply list_elem_of_lookup_2).
    by eapply lookup_lt_Some.
Qed.

(** The three broadcast operations amount to [level_at] at every cell. *)
Lemma level_unfold v E m :
  np_min E = Some m →
  level v E = Some (maximum_scalar zero (add_scalar (scalar_sub v E) m)).
Proof. intros Hm. unfold level. by rewrite Hm. Qed.

Lemma cell_level_grid v E m i j :
  cell (maximum_scalar zero (add_scalar (scalar_sub v E) m)) i j
  = (λ e, level_at v e m) <$> cell E i j.
Proof.
  unfold maximum_scalar, add_scalar, scalar_sub. rewrite !cell_elementwise.
  by destruct (cell E i j).
Qed.

Lemma level_cell v E W m i j :
  np_min E = Some m → level v E = Some W →
  cell W i j = (λ e, level_at v e m) <$> cell E i j.
Proof.
  intros Hm. rewrite (level_unfold v E m Hm). intros [= <-].
  apply cell_level_grid.
Qed.

Lemma level_cell_inv v E W m i j c :
  np_min E = Some m → level v E = Some W → cell W i j = Some c →
  ∃ e, cell E i j = Some e ∧ c = level_at v e m.
Proof.
  intros Hm HW. rewrite (level_cell v E W m i j Hm HW).
  destruct (cell E i j) as [e |]; simpl; [| done]. intros [= <-]. eauto.
Qed.

Lemma level_rect v E W rows cols : rect rows cols E → level v E = Some W → rect rows cols W.
Proof.
  unfold level. destruct (np_min E) as [m |]; simpl; [| done]. intros HE [= <-].
  unfold maximum_scalar, add_scalar, scalar_sub. by do 3 apply rect_elementwise.
Qed.

Lemma level_at_nonneg v e m :
  isnan v = false → isfinite e = true → isfinite m = true →
  fle zero (level_at v e m) = true.
Proof.
  intros Hv He Hm. apply np_maximum_zero_ge.
  by apply fadd_not_nan; [apply fsub_not_nan |].
Qed.

(** On a NaN-free, non-empty grid the level is computed, and it is
    [level_at] of the minimum at every cell. *)
Lemma level_spec v E :
  all_cells notnan E → ravel E ≠ [] →
  ∃ m W, np_min E = Some m ∧ is_min E m ∧ level v E = Some W ∧
         ∀ i j, cell W i j = (λ e, level_at v e m) <$> cell E i j.
Proof.
  intros HE Hne. destruct (np_min_spec E HE Hne) as (m & Hm & Hmin).
  exists m, (maximum_scalar zero (add_scalar (scalar_sub v E) m)).
  split_and!; [done | done | by apply level_unfold |].
  intros i j. apply cell_level_grid.
Qed.

Lemma level_nonneg v E :
  isnan v = false → all_cells isfinite E → ravel E ≠ [] →
  ∃ W, level v E = Some W ∧ all_cells (fle zero) W.
Proof.
  intros Hv HE Hne.
  destruct (level_spec v E) as (m & W & Hm & Hmin & HW & Hcell);
    [by apply all_cells_finite_notnan | done |].
  exists W. split; [done |]. intros i j c. rewrite Hcell.
  destruct (cell E i j) as [e |] eqn:He; simpl; [| done]. intros [= <-].
  apply level_at_nonneg; eauto using is_min_finite.
Qed.

Lemma mapM_total {A B} (f : A → option B) (g : A → B) (l : list A) :
  (∀ a, a ∈ l → f a = Some (g a)) → mapM f l = Some (g <$> l).
Proof.
  intros Hf. apply mapM_Some, Forall2_fmap_r, Forall_Forall2_diag.
  by apply Forall_forall.
Qed.

(** The frames of the animation, when the level is computed. *)
Lemma frames_unfold r d steps E m :
  np_min E = Some m →
  frames r d steps E
  = Some ((λ t, maximum_scalar zero
                  (add_scalar
                     (scalar_sub (volume_t r d (Z.of_nat steps) (Z.of_nat t)) E) m))
            <$> seq 1 steps).
Proof.
  intros Hm. unfold frames. apply mapM_total. intros t _.
  unfold level_t. by apply level_unfold.
Qed.


(** ** The claims about the level grid *)

(** The code's cell expression against the specification's: where the
    sum is a number, [np.maximum(0, x)] is the larger of 0 and [x]. *)
Lemma level_at_ok v e m : level_ok v e m (level_at v e m) = true.
Proof.
  unfold level_ok, level_at, spec_level, spec_max, np_maximum.
  pose proof zero_not_nan as Hz. rewrite Hz, orb_false_r.
  destruct (isnan (fadd (fsub v e) m)) eqn:Hx.
  - destruct (fle (fadd (fsub v e) m) zero) eqn:Hle; [| done].
    destruct (fle_not_nan _ _ Hle). congruence.
  - rewrite (flt_fle zero) by done.
    destruct (fle (fadd (fsub v e) m) zero); simpl; apply feq_intro; by apply fle_refl.
Qed.

Lemma levels_at_ok v v' m (E W : list (list F)) :
  v' = v → (∀ i j, cell W i j = (λ e, level_at v e m) <$> cell E i j) →
  levels_ok v' m E W.
Proof.
  intros -> Hcell i j. rewrite Hcell.
  destruct (cell E i j) as [e |]; simpl; [| done].
  eexists. split; [done |]. apply level_at_ok.
Qed.

(** C1. For every NaN-free, non-empty elevation grid [E], rainfall
    intensity [r] and duration [d], the static water level and every
    animation frame are computed, and at every cell they hold
    [max(0, inflowDepth - E[cell] + min(E))] with
    [inflowDepth = (r / 3600 / 1000) * (d * 60) * t], where [t] is 1 for the
    static level and [k / steps] for frame [k], and [min(E)] is the
    global minimum of the grid.  The maximum is the specification's
    ([spec_max]: [x] when [0 < x], otherwise 0); the cell holds that number
    whenever the sum is a number, and NaN when it is not. *)
Theorem water_level_formula (r d : Z) E :
  all_cells notnan E → ravel E ≠ [] →
  ∃ m, is_min E m ∧
    (∃ W, water_level r d E = Some W ∧ levels_ok (inflowDepth r d one) m E W) ∧
    (∀ steps : nat, ∃ fs, frames r d steps E = Some fs ∧ length fs = steps ∧
       ∀ k W, fs !! k = Some W →
       levels_ok
         (inflowDepth r d (fdiv (of_int (Z.of_nat (S k))) (of_int (Z.of_nat steps))))
         m E W).
Proof.
  intros HE Hne.
  destruct (level_spec (inflow_volume r d) E HE Hne) as (m & W & Hm & Hmin & HW & Hcell).
  exists m. split_and!; [done | |].
  - exists W. split; [done |].
    apply (levels_at_ok (inflow_volume r d)); [| done].
    unfold inflowDepth. by rewrite fmul_one_r.
  - intros steps. rewrite (frames_unfold r d steps E m Hm).
    eexists. split_and!; [done | by rewrite length_fmap, length_seq |].
    intros k W' Hk. rewrite list_lookup_fmap in Hk.
    destruct (seq 1 steps !! k) as [t |] eqn:Ht; simpl in Hk; [| done].
    apply lookup_seq in Ht as [-> _]. injection Hk as <-.
    apply (levels_at_ok (volume_t r d (Z.of_nat steps) (Z.of_nat (1 + k)))); [done |].
    intros i j. apply cell_level_grid.
Qed.

(** C4, as amended.  On a finite, non-empty elevation grid every cell of
    the water level is at least 0: for the static level, for every
    animation frame, and for any volume, provided the volume is a number
    (not NaN).  Without finiteness the level can be NaN, which is not at
    least 0. *)
Theorem water_level_nonneg (r d : Z) (steps : nat) E :
  all_cells isfinite E → ravel E ≠ [] →
  isnan (inflow_volume r d) = false →
  forallb (λ t, notnan (volume_t r d (Z.of_nat steps) (Z.of_nat t))) (seq 1 steps) = true →
  (∃ W, water_level r d E = Some W ∧ all_cells (fle zero) W) ∧
  (∃ fs, frames r d steps E = Some fs ∧ length fs = steps ∧
         ∀ W, W ∈ fs → all_cells (fle zero) W) ∧
  (∀ v, isnan v = false → ∃ W, level v E = Some W ∧ all_cells (fle zero) W).
Proof.
  intros HE Hne Hvol Hframes. split_and!.
  - by apply level_nonneg.
  - destruct (np_min_spec E) as (m & Hm & Hmin);
      [by apply all_cells_finite_notnan | done |].
    rewrite (frames_unfold r d steps E m Hm).
    eexists. split_and!; [done | by rewrite length_fmap, length_seq |].
    intros W (t & -> & Ht)%list_elem_of_fmap.
    rewrite forallb_forall in Hframes.
    destruct (level_nonneg (volume_t r d (Z.of_nat steps) (Z.of_nat t)) E)
      as (W & HW & Hnonneg); [| done | done |].
    { apply negb_true_iff, Hframes. by apply list_elem_of_In. }
    rewrite (level_unfold _ E m Hm) in HW. by injection HW as <-.
  - intros v Hv. by apply level_nonneg.
Qed.


(** ** The peak *)

(** On a NaN-free array [max_pos] is the row-major first cell holding the
    maximum, and [max_water] is that maximum. *)
Lemma max_pos_spec W rows cols :
  rect rows cols W → (0 < rows)%nat → (0 < cols)%nat → all_cells notnan W →
  ∃ i j p, max_pos W = Some (i, j) ∧ cell W i j = Some p ∧ max_water W = Some p ∧
    (∀ i' j' c, cell W i' j' = Some c → fle c p = true) ∧
    (∀ i' j' c, cell W i' j' = Some c → feq c p = true →
                (flat_index cols i j ≤ flat_index cols i' j')%nat).
Proof.
  intros HW Hr Hc Hnn.
  destruct (np_argmax_spec (ravel W)) as (k & p & Hk & Hp & Hmax & Hfirst).
  { by eapply rect_ravel_nonempty. }
  { by apply all_cells_ravel. }
  destruct (ravel_lookup_inv rows cols W k p HW Hp) as (i & j & Hj & -> & Hij).
  assert (max_pos W = Some (i, j)) as Hpos.
  { unfold max_pos. rewrite Hk. simpl.
    by rewrite (shape_rect rows cols), unravel_flat_index. }
  exists i, j, p. split_and!; [done | done | | |].
  - unfold max_water. by rewrite Hpos.
  - intros i' j' c Hc'. apply (Hmax (flat_index cols i' j')).
    rewrite (ravel_lookup rows cols); [done | done |].
    by eapply cell_in_rect.
  - intros i' j' c Hc' Htie.
    destruct (decide (flat_index cols i j ≤ flat_index cols i' j')%nat) as [| Hlt];
      [done |].
    assert (fle p c = false) as Hpc.
    { apply (Hfirst (flat_index cols i' j')); [lia |].
      rewrite (ravel_lookup rows cols); [done | done |].
      by eapply cell_in_rect. }
    unfold feq in Htie. apply andb_true_iff in Htie as [_ Htie]. congruence.
Qed.


(** ** Loading *)

Lemma nan_to_num1_not_nan m x : isnan m = false → isnan (nan_to_num1 m x) = false.
Proof.
  intros Hm. unfold nan_to_num1.
  destruct (isnan x) eqn:Hx; [done |].
  destruct (isposinf x); [apply isfinite_not_nan, finfo_max_finite |].
  destruct (isneginf x); [apply isfinite_not_nan, finfo_min_finite | done].
Qed.

(** C8. When the band holds at least one value that is not NaN, loading
    succeeds, every NaN cell is replaced by the minimum [m] of the band's
    non-NaN values, finite cells are kept, the shape is kept, and the
    loaded grid holds no NaN. *)
Theorem load_dem_replaces_nan (band : list (list F)) :
  (∃ i j x, cell band i j = Some x ∧ isnan x = false) →
  ∃ m E, np_nanmin band = Some m ∧ load_dem band = Some E ∧
    isnan m = false ∧
    (∃ i j, cell band i j = Some m) ∧
    (∀ i j x, cell band i j = Some x → isnan x = false → fle m x = true) ∧
    (∀ i j x, cell band i j = Some x → isnan x = true → cell E i j = Some m) ∧
    (∀ i j x, cell band i j = Some x → isfinite x = true → cell E i j = Some x) ∧
    (∀ i j, is_Some (cell E i j) ↔ is_Some (cell band i j)) ∧
    all_cells notnan E.
Proof.
  intros (i0 & j0 & x0 & Hx0 & Hnn0).
  assert (x0 ∈ ravel band) as Hin0 by (apply elem_of_ravel; eauto).
  unfold load_dem, np_nanmin, reduce.
  destruct (ravel band) as [| x l] eqn:Hr; [by apply not_elem_of_nil in Hin0 |].
  destruct (foldl_np_fmin_spec l x) as (Hm & Hin & Hle).
  { apply Exists_exists. exists x0. split; [done |]. unfold notnan. by rewrite Hnn0. }
  rewrite <- Hr in Hin, Hle. set (m := foldl np_fmin x l) in *.
  exists m, (nan_to_num m band). simpl. unfold nan_to_num.
  split_and!; [done | done | done | by apply elem_of_ravel | | | | |].
  - intros i j y Hy Hnn. apply Hle; [| done]. apply elem_of_ravel. eauto.
  - intros i j y Hy Hnan. rewrite cell_elementwise, Hy. simpl.
    unfold nan_to_num1. by rewrite Hnan.
  - intros i j y Hy Hfin. rewrite cell_elementwise, Hy. simpl.
    unfold nan_to_num1. unfold isfinite in Hfin.
    by destruct (isnan y), (isposinf y), (isneginf y).
  - intros i j. rewrite cell_elementwise. apply fmap_is_Some.
  - apply all_cells_elementwise. intros e. unfold notnan.
    by rewrite nan_to_num1_not_nan.
Qed.


End BasicProperties.

(** ** Properties that rest on the monotonicity of rounding *)

Section Properties.
Context {F : Type} `{ArithLaws F}.
Implicit Types (E W : list (list F)) (l : list F) (v m e x y : F).

Local Hint Resolve isfinite_not_nan zero_finite zero_not_nan : core.

Lemma small_int_in_range (z : Z) : Z.abs z ≤ 10000 → Z.abs z ≤ 2 ^ 53.
Proof. intros. assert (10000 ≤ 2 ^ 53) by (vm_compute; discriminate). lia. Qed.


Lemma one_finite : isfinite (one : F) = true.
Proof. apply of_int_finite, small_int_in_range. simpl. lia. Qed.

Lemma level_at_anti v e e' m :
  isnan v = false → isfinite e = true → isfinite e' = true → isfinite m = true →
  fle e e' = true → fle (level_at v e' m) (level_at v e m) = true.
Proof.
  intros Hv He He' Hm Hee'. apply np_maximum_zero_mono.
  apply fadd_mono_l; [| done]. by apply fsub_anti_r.
Qed.

Lemma level_at_mono v v' e m :
  fle v v' = true → isfinite e = true → isfinite m = true →
  fle (level_at v e m) (level_at v' e m) = true.
Proof.
  intros Hv He Hm. apply np_maximum_zero_mono.
  apply fadd_mono_l; [| done]. by apply fsub_mono_l.
Qed.

(** At a cell of minimum elevation the level is above every cell's. *)
Lemma level_at_min_is_max v E W m i j e :
  isnan v = false → all_cells isfinite E →
  np_min E = Some m → level v E = Some W →
  cell E i j = Some e → is_min E e →
  cell W i j = Some (level_at v e m) ∧
  ∀ i' j' c', cell W i' j' = Some c' → fle c' (level_at v e m) = true.
Proof.
  intros Hv HE Hm HW He [_ Hle].
  assert (isfinite m = true) as Hmfin.
  { assert (ravel E ≠ []) as Hne.
    { intros Hnil. assert (e ∈ ravel E) as Hin by (apply elem_of_ravel; eauto).
      rewrite Hnil in Hin. by apply not_elem_of_nil in Hin. }
    destruct (np_min_spec E) as (m' & Hm' & Hmin);
      [by apply all_cells_finite_notnan | done |].
    assert (m' = m) as -> by congruence. eauto using is_min_finite. }
  split; [by rewrite (level_cell v E W m i j Hm HW), He |].
  intros i' j' c' Hc'.
  destruct (level_cell_inv v E W m i' j' c' Hm HW Hc') as (e' & He' & ->).
  apply level_at_anti; eauto.
Qed.

(** The volume of frame [t] is a number when the total volume is finite. *)
Lemma time_fraction_finite steps t :
  1 ≤ steps ≤ 2 ^ 53 → Z.abs t ≤ 2 ^ 53 →
  isfinite (fdiv (of_int t) (of_int steps)) = true.
Proof.
  intros Hs Ht. apply fdiv_bounded.
  - by apply of_int_finite.
  - apply of_int_finite. lia.
  - apply of_int_mono; [by apply small_int_in_range | lia | lia].
Qed.

Lemma volume_t_not_nan r d steps t :
  isfinite (inflow_volume r d) = true → 1 ≤ steps ≤ 2 ^ 53 → Z.abs t ≤ 2 ^ 53 →
  isnan (volume_t r d steps t) = false.
Proof.
  intros Hv Hs Ht. unfold volume_t.
  apply fmul_not_nan; [done | by apply time_fraction_finite].
Qed.

Lemma volume_t_mono r d steps t1 t2 :
  isfinite (inflow_volume r d) = true → fle zero (inflow_volume r d) = true →
  1 ≤ steps ≤ 2 ^ 53 → Z.abs t1 ≤ 2 ^ 53 → Z.abs t2 ≤ 2 ^ 53 → t1 ≤ t2 →
  fle (volume_t r d steps t1) (volume_t r d steps t2) = true.
Proof.
  intros Hfin Hpos Hs Ht1 Ht2 Ht. unfold volume_t.
  apply fmul_mono_r; [done | | |].
  - apply fdiv_mono_l.
    + by apply of_int_finite.
    + by apply of_int_finite.
    + by apply of_int_mono.
    + apply of_int_finite. lia.
    + apply of_int_mono; [by apply small_int_in_range | lia | lia].
  - by apply fmul_not_nan; [| apply time_fraction_finite].
  - by apply fmul_not_nan; [| apply time_fraction_finite].
Qed.

(** ** The claims about monotonicity *)



(** ** The peak value *)

(** The peak comes no later, in row-major order, than any cell of minimum
    elevation. *)
Lemma peak_precedes_min_cells v E rows cols W i j i' j' e :
  isnan v = false → all_cells isfinite E →
  rect rows cols E → (0 < rows)%nat → (0 < cols)%nat →
  level v E = Some W → max_pos W = Some (i, j) →
  cell E i' j' = Some e → is_min E e →
  (flat_index cols i j ≤ flat_index cols i' j')%nat.
Proof.
  intros Hv HE Hrect Hr Hc HW Hpos He Hmin.
  destruct (level_nonneg v E) as (W' & HW' & Hnonneg);
    [done | done | by eapply rect_ravel_nonempty |].
  assert (W' = W) as -> by congruence.
  destruct (max_pos_spec W rows cols) as (i0 & j0 & p & Hpos' & Hp & _ & Hmax & Hfirst);
    [by eapply level_rect | done | done | |].
  { intros i1 j1 c Hc'. unfold notnan.
    by destruct (fle_not_nan _ _ (Hnonneg i1 j1 c Hc')) as [_ ->]. }
  assert (i0 = i ∧ j0 = j) as [-> ->] by (split; congruence).
  destruct (np_min E) as [m |] eqn:Hm; [| by unfold level in HW; rewrite Hm in HW].
  destruct (level_at_min_is_max v E W m i' j' e) as [Hc' Hpeak];
    [done | done | done | done | done | done |].
  apply (Hfirst i' j' _ Hc'). apply feq_intro; eauto.
Qed.



(** ** Resizing *)

Lemma int_finite (n : Z) : Z.abs n ≤ 2 ^ 31 → isfinite (of_int n) = true.
Proof.
  intros. apply of_int_finite.
  assert (2 ^ 31 ≤ 2 ^ 53) by (vm_compute; discriminate). lia.
Qed.

Lemma max_res_finite mode : isfinite (of_int (MAX_RES mode)) = true.
Proof. apply of_int_finite, small_int_in_range. destruct mode; simpl; lia. Qed.

(** [MAX_RES / n] for a dimension [n]. *)
Lemma max_res_div_finite mode (n : nat) :
  (0 < n)%nat → Z.of_nat n ≤ 2 ^ 31 →
  isfinite (fdiv (of_int (MAX_RES mode)) (of_int (Z.of_nat n))) = true.
Proof.
  intros Hn Hn'. apply fdiv_bounded.
  - apply max_res_finite.
  - apply int_finite. lia.
  - assert (2 ^ 31 ≤ 2 ^ 53) by (vm_compute; discriminate).
    apply of_int_mono; [by apply small_int_in_range | lia | lia].
Qed.

Lemma scale_spec mode (rows cols : nat) :
  (0 < rows)%nat → (0 < cols)%nat → Z.of_nat rows ≤ 2 ^ 31 → Z.of_nat cols ≤ 2 ^ 31 →
  isfinite (scale mode rows cols) = true ∧
  fle (scale mode rows cols)
      (fdiv (of_int (MAX_RES mode)) (of_int (Z.of_nat rows))) = true ∧
  fle (scale mode rows cols)
      (fdiv (of_int (MAX_RES mode)) (of_int (Z.of_nat cols))) = true.
Proof.
  intros Hr Hc Hrows Hcols. unfold scale. split.
  - apply py_min_finite; by apply max_res_div_finite.
  - apply py_min_le; by apply isfinite_not_nan, max_res_div_finite.
Qed.

(** A dimension [n] times a scale below [MAX_RES / n] rounds to at most
    [MAX_RES]. *)
Lemma scaled_dim_bounded mode (n : nat) s :
  (0 < n)%nat → Z.of_nat n ≤ 2 ^ 31 → isfinite s = true →
  fle s (fdiv (of_int (MAX_RES mode)) (of_int (Z.of_nat n))) = true →
  cvRound (fmul (of_int (Z.of_nat n)) s) ≤ MAX_RES mode.
Proof.
  intros Hn Hn' Hs Hle.
  assert (2 ^ 31 ≤ 2 ^ 53) as Hpow by (vm_compute; discriminate).
  set (b := fmul (of_int (Z.of_nat n))
                 (fdiv (of_int (MAX_RES mode)) (of_int (Z.of_nat n)))).
  assert (cvRound b = MAX_RES mode) as Hexact.
  { apply cvRound_mul_div; [lia |]. destruct mode; simpl; lia. }
  rewrite <- Hexact. apply cvRound_mono.
  - apply fmul_mono_r; [| done | |].
    + apply of_int_mono; [by apply small_int_in_range | lia | lia].
    + apply fmul_not_nan; [apply int_finite; lia | done].
    + apply fmul_not_nan; [apply int_finite; lia | by apply max_res_div_finite].
  - rewrite Hexact. unfold INT_MIN. destruct mode; simpl; lia.
Qed.

(** When the resize succeeds, both dimensions of the resized grid are
    positive and at most the configured maximum. *)
Lemma resized_dims_in_range mode (rows cols : nat) (height width : Z) :
  (0 < rows)%nat → (0 < cols)%nat → Z.of_nat rows ≤ 2 ^ 31 → Z.of_nat cols ≤ 2 ^ 31 →
  resized_shape mode rows cols = Some (height, width) →
  0 < height ≤ MAX_RES mode ∧ 0 < width ≤ MAX_RES mode.
Proof.
  intros Hr Hc Hrows Hcols.
  destruct (scale_spec mode rows cols) as (Hfin & Hler & Hlec); [done.. |].
  unfold resized_shape, resize_shape.
  destruct (flt zero (scale mode rows cols) && flt zero (scale mode rows cols));
    [| done].
  destruct (_ && _) eqn:Hpos; [| done]. intros [= <- <-].
  apply andb_true_iff in Hpos as [Hw%Z.ltb_lt Hh%Z.ltb_lt].
  split; (split; [done | by apply scaled_dim_bounded]).
Qed.

(** ** Coordinates *)

Lemma length_arange n : length (arange n : list F) = n.
Proof. unfold arange. by rewrite length_fmap, length_seq. Qed.

Lemma length_linspace a b n : length (linspace a b n : list F) = n.
Proof.
  unfold linspace, set_last.
  destruct (1 <? n)%nat; rewrite ?length_insert, length_fmap;
    destruct (0 <? _); try destruct (feq _ _); by rewrite length_fmap, length_arange.
Qed.

(** With two points or more the last one is [stop] itself. *)
Lemma linspace_last a b n : (1 < n)%nat → linspace a b n !! (n - 1)%nat = Some b.
Proof.
  intros Hn. pose proof (length_linspace a b n) as Hlen. revert Hlen.
  unfold linspace. apply Nat.ltb_lt in Hn as Hn'. rewrite Hn'.
  unfold set_last. rewrite length_insert. intros Hlen. rewrite Hlen.
  replace (n - 1)%nat with (pred n) by lia.
  apply list_lookup_insert_eq. lia.
Qed.

Lemma linspace_first_aux (g : F → F) a b n :
  (0 < n)%nat → isnan a = false → feq (g zero) zero = true →
  ∃ x0, (if (1 <? n)%nat
         then set_last b ((λ v, fadd v a) <$> (g <$> arange n))
         else (λ v, fadd v a) <$> (g <$> arange n)) !! 0%nat = Some x0 ∧
        feq x0 a = true.
Proof.
  intros Hn Ha Hg. exists (fadd (g zero) a). split; [| by apply fadd_zero_l].
  assert (((λ v, fadd v a) <$> (g <$> arange n)) !! 0%nat = Some (fadd (g zero) a))
    as Hhead.
  { destruct n as [| n']; [lia | done]. }
  destruct (1 <? n)%nat eqn:Hn1; [| done].
  apply Nat.ltb_lt in Hn1. unfold set_last.
  rewrite list_lookup_insert_ne; [done |].
  rewrite !length_fmap, length_arange. lia.
Qed.

(** The first point equals [start] (up to the sign of zero). *)
Lemma linspace_first a b n :
  (0 < n)%nat → Z.of_nat n ≤ 2 ^ 53 →
  isnan a = false → isfinite (fsub b a) = true →
  ∃ x0, linspace a b n !! 0%nat = Some x0 ∧ feq x0 a = true.
Proof.
  intros Hn Hn53 Ha Hdelta. unfold linspace.
  assert (feq (zero : F) zero = true) as Hzz.
  { apply feq_intro; apply fle_refl, zero_not_nan. }
  destruct (0 <? Z.of_nat n - 1) eqn:Hdiv.
  - apply Z.ltb_lt in Hdiv.
    assert (isfinite (of_int (Z.of_nat n - 1)) = true) as Hdfin
      by (apply of_int_finite; lia).
    assert (fle one (of_int (Z.of_nat n - 1)) = true) as Hd1.
    { apply of_int_mono; [by apply small_int_in_range | lia | lia]. }
    destruct (feq (fdiv _ _) zero) eqn:Hstep.
    + apply linspace_first_aux; [done | done |].
      apply fmul_zero_l; [| done]. by apply fdiv_zero_l.
    + apply linspace_first_aux; [done | done |].
      apply fmul_zero_l; [done |]. by apply fdiv_bounded.
  - apply linspace_first_aux; [done | done |]. by apply fmul_zero_l.
Qed.

Lemma cell_meshgrid_X (x y : list F) i j :
  (i < length y)%nat → cell (meshgrid x y).1 i j = x !! j.
Proof.
  intros Hi. unfold cell, meshgrid. simpl. rewrite list_lookup_fmap.
  apply lookup_lt_is_Some in Hi as [yi ->]. done.
Qed.

Lemma cell_meshgrid_Y (x y : list F) i j :
  (j < length x)%nat → cell (meshgrid x y).2 i j = y !! i.
Proof.
  intros Hj. unfold cell, meshgrid. simpl. rewrite list_lookup_fmap.
  destruct (y !! i) as [yi |]; simpl; [| done].
  rewrite list_lookup_fmap. apply lookup_lt_is_Some in Hj as [xj ->]. done.
Qed.

Lemma rect_meshgrid (x y : list F) :
  rect (length y) (length x) (meshgrid x y).1 ∧
  rect (length y) (length x) (meshgrid x y).2.
Proof.
  unfold rect, meshgrid. simpl. rewrite !length_fmap. split_and!; [done | | done |].
  - apply Forall_fmap, Forall_forall. done.
  - apply Forall_fmap, Forall_forall. intros yi _. simpl. by rewrite length_fmap.
Qed.

(** C7, as amended.  For [R] rows and [C] columns over the bounding box
    left=0, right=10, top=10, bottom=0: X of column 0 is 0 and Y of row 0
    is 10; X of column [C-1] is 10 when there are at least two columns, and
    Y of row [R-1] is 0 when there are at least two rows. *)
Theorem mesh_endpoints (R C : nat) :
  (0 < R)%nat → (0 < C)%nat → Z.of_nat R ≤ 2 ^ 52 → Z.of_nat C ≤ 2 ^ 52 →
  rect R C (mesh bounds_0_10 R C).1 ∧ rect R C (mesh bounds_0_10 R C).2 ∧
  (∀ i, (i < R)%nat →
     (∃ x0, cell (mesh bounds_0_10 R C).1 i 0 = Some x0 ∧ feq x0 (of_int 0) = true) ∧
     ((1 < C)%nat → cell (mesh bounds_0_10 R C).1 i (C - 1) = Some (of_int 10))) ∧
  (∀ j, (j < C)%nat →
     (∃ y0, cell (mesh bounds_0_10 R C).2 0 j = Some y0 ∧ feq y0 (of_int 10) = true) ∧
     ((1 < R)%nat → cell (mesh bounds_0_10 R C).2 (R - 1) j = Some (of_int 0))).
Proof.
  intros HR HC HR52 HC52.
  assert (2 ^ 52 ≤ 2 ^ 53) as Hpow by (vm_compute; discriminate).
  unfold mesh, bounds_0_10. cbn [left right top bottom].
  set (x := linspace (of_int 0) (of_int 10) C).
  set (y := linspace (of_int 10) (of_int 0) R).
  assert (length x = C) as Hx by apply length_linspace.
  assert (length y = R) as Hy by apply length_linspace.
  assert (∀ z, Z.abs z ≤ 10 → isfinite (of_int z : F) = true) as Hfin.
  { intros z Hz. apply of_int_finite, small_int_in_range. lia. }
  assert (∀ z1 z2, Z.abs z1 ≤ 10 → Z.abs z2 ≤ 10 →
            isfinite (fsub (of_int z1) (of_int z2) : F) = true) as Hsub.
  { intros z1 z2 Hz1 Hz2.
    assert (10 ≤ 2 ^ 52) by (vm_compute; discriminate).
    rewrite fsub_of_int by lia. apply of_int_finite, small_int_in_range. lia. }
  destruct (rect_meshgrid x y) as [HrX HrY]. rewrite Hx, Hy in HrX, HrY.
  split_and!; [done | done | |].
  - intros i Hi. rewrite !cell_meshgrid_X by lia. split.
    + apply linspace_first; [done | lia | | apply Hsub; simpl; lia].
      apply isfinite_not_nan, Hfin. simpl. lia.
    + intros HC1. by apply linspace_last.
  - intros j Hj. rewrite !cell_meshgrid_Y by lia. split.
    + apply linspace_first; [done | lia | | apply Hsub; simpl; lia].
      apply isfinite_not_nan, Hfin. simpl. lia.
    + intros HR1. by apply linspace_last.
Qed.

End Properties.

(** ** More of binary64 *)

Lemma SFmul_comm x y : SFmul prec emax x y = SFmul prec emax y x.
Proof.
  destruct x as [sx | sx | | sx mx ex], y as [sy | sy | | sy my ey]; simpl;
    rewrite ?(xorb_comm sx sy); try done.
  by rewrite (Pos.mul_comm mx my), (Z.add_comm ex ey).
Qed.

Lemma b64_fmul_comm (a b : float) : fmul a b = fmul b a.
Proof. apply Prim2SF_inj. cbn [fmul binary64]. rewrite !mul_spec. apply SFmul_comm. Qed.

Lemma b64_fmul_mono_l (a a' b : float) :
  fle zero b = true → fle a a' = true →
  isnan (fmul a b) = false → isnan (fmul a' b) = false →
  fle (fmul a b) (fmul a' b) = true.
Proof.
  intros Hb Ha Hab Hab'. rewrite (b64_fmul_comm a b), (b64_fmul_comm a' b) in *.
  by apply fmul_mono_r.
Qed.

(** A float between two finite floats is finite. *)
Lemma b64_finite_between (lo x hi : float) :
  isfinite lo = true → isfinite hi = true →
  fle lo x = true → fle x hi = true → isfinite x = true.
Proof.
  rewrite !b64_isfinite_spec, !b64_fle_spec.
  by destruct (Prim2SF lo) as [| [] | |], (Prim2SF x) as [| [] | |],
    (Prim2SF hi) as [| [] | |].
Qed.

(** Dividing a finite positive float by itself gives 1. *)
Lemma SFdiv_diag m e :
  bounded prec emax m e = true →
  SFdiv prec emax (S754_finite false m e) (S754_finite false m e) = sf_one.
Proof.
  intros Hv. rewrite SFdiv_finite by done.
  pose proof Hv as (He & _)%bounded_spec.
  rewrite sf_int_finite. cbn [cond_Zopp].
  assert (0 < 2 ^ (e + 1074)) by (apply Z.pow_pos_nonneg; lia).
  rewrite (rnd_sfrac_ext _ _ (2 ^ 1074) 1) by nia.
  rewrite rnd_sfrac_int. change (2 ^ 1074) with (sf_int sf_one).
  by apply rnd64_valid.
Qed.

Lemma b64_fdiv_diag (n : Z) :
  1 ≤ n ≤ 2 ^ 53 → fdiv (b64_of_int n) (b64_of_int n) = (one : float).
Proof.
  intros Hn. apply Prim2SF_inj. cbn [fdiv binary64].
  rewrite div_spec, Prim2SF_of_int, Prim2SF_one.
  destruct (rnd64_int n ltac:(lia)) as [Hfin Hint].
  pose proof (rnd64_valid_binary (n * 2 ^ 1074)) as Hvalid.
  pose proof (rnd64_ge_one n ltac:(lia)) as Hone.
  destruct (SFleb_one _ Hvalid Hfin Hone) as (m & e & Heq & _).
  rewrite Heq in *. by apply SFdiv_diag.
Qed.

(** A quotient of integers that is an integer is computed exactly. *)
Lemma b64_fdiv_exact (a b q : Z) :
  1 ≤ b ≤ 2 ^ 53 → Z.abs a ≤ 2 ^ 53 → a = q * b →
  Prim2SF (fdiv (b64_of_int a) (b64_of_int b)) = rnd64 (q * 2 ^ 1074) ∧
  Z.abs q ≤ 2 ^ 53.
Proof.
  intros Hb Ha Hq. assert (Z.abs q ≤ 2 ^ 53) as Hq53 by nia.
  split; [| done]. cbn [fdiv binary64]. rewrite div_spec, !Prim2SF_of_int.
  destruct (rnd64_int a Ha) as [Hfa Hia].
  destruct (rnd64_int b ltac:(lia)) as [Hfb Hib].
  destruct (rnd64_int q Hq53) as [Hfq Hiq].
  pose proof (rnd64_ge_one b ltac:(lia)) as Hone.
  pose proof (SFdiv_rnd _ _ (rnd64_valid_binary (a * 2 ^ 1074))
                (rnd64_valid_binary (b * 2 ^ 1074)) Hfa Hfb Hone) as Hdiv.
  rewrite Hia, Hib in Hdiv.
  assert (0 < 2 ^ 1074) as HU by done.
  rewrite (rnd_sfrac_ext _ _ (q * 2 ^ 1074) 1) in Hdiv; [| nia | lia |].
  2:{ rewrite Hq. ring. }
  rewrite rnd_sfrac_int in Hdiv.
  apply sf_eqv_inv in Hdiv as [Heq | (s & s' & Hz & Hz')]; [done |].
  (* both are zeros: the quotient of 0 by a positive float is +0 *)
  rewrite Hz' in Hiq. change (sf_int (S754_zero s')) with 0 in Hiq.
  assert (q = 0) as -> by nia. assert (a = 0) as -> by lia.
  change (rnd64 (0 * 2 ^ 1074)) with (S754_zero false).
  destruct (SFleb_one _ (rnd64_valid_binary (b * 2 ^ 1074)) Hfb Hone) as (m & e & -> & _).
  done.
Qed.

(** Division is antitone in a divisor that is at least 1, for a dividend
    that is not negative. *)
Lemma SFdiv_anti_r a c c' :
  valid_binary a = true → valid_binary c = true → valid_binary c' = true →
  sf_finite a = true → SFleb (S754_zero false) a = true →
  sf_finite c = true → sf_finite c' = true →
  SFleb sf_one c = true → SFleb c c' = true →
  SFleb (SFdiv prec emax a c') (SFdiv prec emax a c) = true.
Proof.
  intros Hva Hvc Hvc' Hfa Ha Hfc Hfc' Hone Hcc'.
  assert (SFleb sf_one c' = true) as Hone' by (by eapply SFleb_trans).
  destruct (SFleb_one c Hvc Hfc Hone) as (m & e & _ & Hge).
  destruct (SFleb_one c' Hvc' Hfc' Hone') as (m' & e' & _ & Hge').
  assert (0 < 2 ^ 1074) by done.
  eapply sf_eqv_sfrac_mono; [by apply SFdiv_rnd | by apply SFdiv_rnd | lia | lia |].
  pose proof (SFleb_sf_int c c' Hvc Hvc' Hfc Hfc' Hcc').
  pose proof (SFleb_sf_int (S754_zero false) a eq_refl Hva eq_refl Hfa Ha) as Ha0.
  change (sf_int (S754_zero false)) with 0 in Ha0. nia.
Qed.

Lemma b64_fdiv_anti_r (a c c' : float) :
  isfinite a = true → fle zero a = true →
  isfinite c = true → isfinite c' = true →
  fle one c = true → fle c c' = true →
  fle (fdiv a c') (fdiv a c) = true.
Proof.
  rewrite !b64_isfinite_spec, !b64_fle_spec, Prim2SF_zero, Prim2SF_one.
  cbn [fdiv binary64]. rewrite !div_spec. intros.
  apply SFdiv_anti_r; auto using Prim2SF_valid.
Qed.

(** NaN propagates through the arithmetic and fails every comparison. *)
Lemma b64_isnan_spec (x : float) : isnan x = true ↔ Prim2SF x = S754_nan.
Proof.
  cbn [isnan binary64]. rewrite b64_is_nan_spec.
  by destruct (Prim2SF x).
Qed.

Lemma b64_nan_unique (x y : float) : isnan x = true → isnan y = true → x = y.
Proof.
  rewrite !b64_isnan_spec. intros Hx Hy. apply Prim2SF_inj. congruence.
Qed.

Lemma b64_fsub_nan_r (a b : float) : isnan b = true → isnan (fsub a b) = true.
Proof.
  rewrite !b64_isnan_spec. cbn [fsub binary64]. rewrite sub_spec. intros ->.
  by destruct (Prim2SF a) as [[] | [] | | [] ? ?].
Qed.

Lemma b64_fadd_nan_r (a b : float) : isnan b = true → isnan (fadd a b) = true.
Proof.
  rewrite !b64_isnan_spec. cbn [fadd binary64]. rewrite add_spec. intros ->.
  by destruct (Prim2SF a) as [[] | [] | | [] ? ?].
Qed.

Lemma b64_fle_nan_l (a b : float) : isnan a = true → fle a b = false.
Proof. rewrite b64_isnan_spec, b64_fle_spec. by intros ->. Qed.

Lemma b64_flt_nan_r (a b : float) : isnan b = true → flt a b = false.
Proof.
  rewrite b64_isnan_spec. cbn [flt binary64]. rewrite ltb_spec. intros ->.
  by destruct (Prim2SF a) as [[] | [] | | [] ? ?].
Qed.

(** [int] of an integer-valued float. *)
Lemma py_int_rnd64 (x : float) (q : Z) :
  Z.abs q ≤ 2 ^ 53 → Prim2SF x = rnd64 (q * 2 ^ 1074) → py_int x = Some q.
Proof.
  intros Hq Hx. destruct (rnd64_int q Hq) as [Hfin Hint].
  unfold py_int. rewrite Hx.
  destruct (rnd64 (q * 2 ^ 1074)) as [s | | | s m e] eqn:Hr; try done.
  - change (sf_int (S754_zero s)) with 0 in Hint. f_equal.
    assert (0 < 2 ^ 1074) by done. nia.
  - rewrite Hint. f_equal. by rewrite Z.quot_mul.
Qed.

(** ** Resizing in binary64 *)

Lemma b64_cvRound_of_int (n : Z) : 0 < n < 2 ^ 31 → cvRound (of_int n : float) = n.
Proof.
  intros Hn. assert (2 ^ 31 ≤ 2 ^ 53) by done.
  pose proof (cvRound_mul_div (F:=float) n n) as Hround.
  assert (fdiv (of_int n) (of_int n) = (one : float)) as Hdiag
    by (apply b64_fdiv_diag; lia).
  rewrite Hdiag, fmul_one_r in Hround. apply Hround; lia.
Qed.

(** With a side of at least [MAX_RES] cells the scale is at most 1. *)
Lemma scale_le_one mode (rows cols : nat) :
  (0 < rows)%nat → (0 < cols)%nat → Z.of_nat rows ≤ 2 ^ 31 → Z.of_nat cols ≤ 2 ^ 31 →
  MAX_RES mode ≤ Z.of_nat rows ∨ MAX_RES mode ≤ Z.of_nat cols →
  fle (scale (F:=float) mode rows cols) one = true.
Proof.
  intros Hr Hc Hrows Hcols Hlong. assert (2 ^ 31 ≤ 2 ^ 53) as Hpow by done.
  destruct (scale_spec (F:=float) mode rows cols) as (_ & Hler & Hlec); [done.. |].
  assert (∀ n : nat, (0 < n)%nat → Z.of_nat n ≤ 2 ^ 31 → MAX_RES mode ≤ Z.of_nat n →
            fle (fdiv (of_int (MAX_RES mode)) (of_int (Z.of_nat n)) : float) one = true)
    as Hone.
  { intros n Hn Hn31 Hmax.
    pose proof (fdiv_mono_l (F:=float) (of_int (MAX_RES mode)) (of_int (Z.of_nat n))
                  (of_int (Z.of_nat n))) as Hdiv.
    assert (fdiv (of_int (Z.of_nat n)) (of_int (Z.of_nat n)) = (one : float)) as Hdiag
      by (apply b64_fdiv_diag; lia).
    rewrite Hdiag in Hdiv.
    apply Hdiv.
    - apply max_res_finite.
    - apply of_int_finite. lia.
    - apply of_int_mono; [destruct mode; simpl; lia | lia | done].
    - apply of_int_finite. lia.
    - apply of_int_mono; [by vm_compute | lia | lia]. }
  destruct Hlong as [Hmax | Hmax].
  - eapply fle_trans; [exact Hler | by apply Hone].
  - eapply fle_trans; [exact Hlec | by apply Hone].
Qed.

(** A dimension times a scale of at most 1 does not grow. *)
Lemma scaled_dim_no_growth (n : nat) (s : float) :
  (0 < n)%nat → Z.of_nat n < 2 ^ 31 → isfinite s = true → fle s one = true →
  cvRound (fmul (of_int (Z.of_nat n)) s) ≤ Z.of_nat n.
Proof.
  intros Hn Hn31 Hs Hle. assert (2 ^ 31 ≤ 2 ^ 53) as Hpow by done.
  assert (isfinite (of_int (Z.of_nat n) : float) = true) as Hfin
    by (apply of_int_finite; lia).
  pose proof (b64_cvRound_of_int (Z.of_nat n)) as Hexact.
  rewrite <- Hexact at 2 by lia.
  rewrite <- (fmul_one_r (of_int (Z.of_nat n) : float)) at 2.
  apply cvRound_mono.
  - apply fmul_mono_r; [| done | |].
    + change (zero : float) with (of_int 0 : float). apply of_int_mono; simpl; lia.
    + by apply fmul_not_nan.
    + apply fmul_not_nan; [done | apply one_finite].
  - rewrite fmul_one_r, Hexact by lia. unfold INT_MIN. lia.
Qed.

(** C3, as amended.  In binary64, as the script computes the scale: when
    the resize succeeds, both dimensions of the resized grid are positive
    and at most the configured maximum; and when a side of the grid has at
    least [MAX_RES] cells, neither dimension exceeds the original one (no
    upsampling). *)
Theorem resized_shape_bounded mode (rows cols : nat) (height width : Z) :
  (0 < rows)%nat → (0 < cols)%nat → Z.of_nat rows ≤ 2 ^ 31 → Z.of_nat cols ≤ 2 ^ 31 →
  resized_shape (F:=float) mode rows cols = Some (height, width) →
  (0 < height ≤ MAX_RES mode ∧ 0 < width ≤ MAX_RES mode) ∧
  (MAX_RES mode ≤ Z.of_nat rows ∨ MAX_RES mode ≤ Z.of_nat cols →
   height ≤ Z.of_nat rows ∧ width ≤ Z.of_nat cols).
Proof.
  intros Hr Hc Hrows Hcols Hsome.
  pose proof (resized_dims_in_range mode rows cols height width Hr Hc Hrows Hcols Hsome)
    as [Hh Hw].
  split; [done |]. intros Hlong.
  pose proof (scale_le_one mode rows cols Hr Hc Hrows Hcols Hlong) as Hone.
  destruct (scale_spec (F:=float) mode rows cols) as (Hfin & _ & _); [done.. |].
  assert (MAX_RES mode < 2 ^ 31) as Hmax by (by destruct mode).
  unfold resized_shape, resize_shape in Hsome.
  destruct (flt zero (scale mode rows cols) && flt zero (scale mode rows cols));
    [| done].
  destruct (_ && _); [| done]. injection Hsome as <- <-.
  split.
  - destruct (Z.le_gt_cases (MAX_RES mode) (Z.of_nat rows)); [lia |].
    apply scaled_dim_no_growth; [done | lia | done | done].
  - destruct (Z.le_gt_cases (MAX_RES mode) (Z.of_nat cols)); [lia |].
    apply scaled_dim_no_growth; [done | lia | done | done].
Qed.

(** ** Runs on concrete inputs *)


(** C2, as stated, fails: with intensity 3600 mm/h over 60 minutes the
    inflow depth is 3.6 m, not 1 m (in binary64 and in exact arithmetic),
    cell (0, 1) holds 2.6, not 0, and the peak value is 3.6, not 1.0. *)
Lemma concrete_scenario_as_stated_fails :
  inflow_volume (F:=float) 3600 60 = 0x1.ccccccccccccdp+1%float ∧
  feq (inflow_volume (F:=float) 3600 60) (of_int 1) = false ∧
  xq_red (inflow_volume (F:=xq) 3600 60) = XNum (18 # 5) ∧
  (W ← water_level (F:=float) 3600 60 (of_int_grid dem_2x2); cell W 0 1)
    = Some 0x1.4cccccccccccdp+1%float ∧
  feq 0x1.4cccccccccccdp+1%float (of_int 0) = false ∧
  (W ← water_level (F:=float) 3600 60 (of_int_grid dem_2x2); max_water W)
    = Some 0x1.ccccccccccccdp+1%float.
Proof. split_and!; by vm_compute. Qed.

(** C2, as amended.  For elevation [[0,1],[2,3]], bounds left=0, right=1,
    top=1, bottom=0, intensity 3600 mm/h and duration 60 minutes: the
    inflow depth is 3.6 m, the minimum elevation is 0, the water level grid
    is [[3.6, 2.6], [1.6, 0.6]] (the binary64 numbers nearest to these
    sums; exactly these in rational arithmetic), and the peak is at row 0,
    column 0, with value 3.6, at X = 0 and Y = 1. *)
Theorem concrete_scenario :
  inflow_volume (F:=float) 3600 60 = 0x1.ccccccccccccdp+1%float ∧
  np_min (of_int_grid (F:=float) dem_2x2) = Some 0%float ∧
  water_level (F:=float) 3600 60 (of_int_grid dem_2x2)
    = Some [[0x1.ccccccccccccdp+1; 0x1.4cccccccccccdp+1];
            [0x1.999999999999ap+0; 0x1.3333333333334p-1]]%float ∧
  (W ← water_level (F:=float) 3600 60 (of_int_grid dem_2x2); max_pos W)
    = Some (0, 0)%nat ∧
  (W ← water_level (F:=float) 3600 60 (of_int_grid dem_2x2); max_water W)
    = Some 0x1.ccccccccccccdp+1%float ∧
  cell (mesh (F:=float) bounds_0_1 2 2).1 0 0 = Some 0%float ∧
  cell (mesh (F:=float) bounds_0_1 2 2).2 0 0 = Some 1%float ∧
  xq_red (inflow_volume (F:=xq) 3600 60) = XNum (18 # 5) ∧
  (elementwise xq_red <$> water_level (F:=xq) 3600 60 (of_int_grid dem_2x2))
    = Some [[XNum (18 # 5); XNum (13 # 5)]; [XNum (8 # 5); XNum (3 # 5)]] ∧
  (W ← water_level (F:=xq) 3600 60 (of_int_grid dem_2x2); max_pos W)
    = Some (0, 0)%nat.
Proof. split_and!; by vm_compute. Qed.

(** C4, as stated, fails on a grid that is not finite, and the loader
    produces such grids: in the band [[inf, -inf], [nan, 4]] the smallest
    number that is not NaN is [-inf], which [np.nan_to_num] writes into the
    NaN cell as it is, while it clips the two infinite cells.  On the
    loaded grid the minimum is [-inf], and at the cell that holds it
    [inflow_volume - (-inf) + (-inf)] is NaN, which is not [>= 0]. *)
Lemma infinite_elevation_level_nan :
  load_dem band_with_infinities
  = Some [[0x1.fffffffffffffp+1023; -0x1.fffffffffffffp+1023]; [neg_infinity; 4]]%float ∧
  water_level 300 120
    [[0x1.fffffffffffffp+1023; -0x1.fffffffffffffp+1023]; [neg_infinity; 4]]%float
  = Some [[0; 0]; [nan; 0]]%float ∧
  fle zero nan = false ∧
  ∃ E W : list (list float),
    load_dem band_with_infinities = Some E ∧ all_cells notnan E ∧
    water_level 300 120 E = Some W ∧ ¬ all_cells (fle zero) W.
Proof.
  split_and!; [by vm_compute | by vm_compute | by vm_compute |].
  eexists _, _. split_and!.
  - vm_compute. reflexivity.
  - apply all_cells_ravel. vm_compute. repeat constructor.
  - vm_compute. reflexivity.
  - intros Hall. by specialize (Hall 1%nat 0%nat nan eq_refl).
Qed.

(** C3, as stated, fails: a 50 x 50 grid in mode Ringan is enlarged to
    150 x 150, beyond its original dimensions. *)
Lemma small_grid_is_upsampled :
  resized_shape (F:=float) Ringan 50 50 = Some (150, 150) ∧
  resized_shape (F:=xq) Ringan 50 50 = Some (150, 150) ∧
  Z.of_nat 50 < 150.
Proof. split_and!; by vm_compute. Qed.

(** C7, as stated, fails: with one row and one column, X of column [C-1] is
    0, not 10, and Y of row [R-1] is 10, not 0. *)
Lemma mesh_single_cell :
  cell (mesh (F:=float) bounds_0_10 1 1).1 0 (1 - 1) = Some 0%float ∧
  feq 0%float (of_int 10) = false ∧
  cell (mesh (F:=float) bounds_0_10 1 1).2 (1 - 1) 0 = Some 10%float ∧
  feq 10%float (of_int 0) = false.
Proof. split_and!; by vm_compute. Qed.


(** The total volume is finite in binary64 over the whole range of the
    sliders (it grows with both parameters). *)
Remark slider_volumes_finite :
  isfinite (inflow_volume (F:=float) 10 10) = true ∧
  isfinite (inflow_volume (F:=float) 300 120) = true ∧
  isfinite (inflow_volume (F:=float) 10000 10000) = true.
Proof. split_and!; by vm_compute. Qed.

(** [(a - b) + b == a] is not a law of binary64: it fails at 0.6 and
    1000. *)
Remark sub_add_not_exact :
  sub_add_exact (F:=float) 0x1.3333333333333p-1%float 1000%float = false.
Proof. by vm_compute. Qed.

(** ** The general theorems at concrete inputs *)




Lemma dem_2x2_finite_b64 : all_cells isfinite (of_int_grid (F:=float) dem_2x2).
Proof. apply all_cells_ravel. vm_compute. repeat constructor. Qed.


(** C1 in binary64, at 300 mm/h over 120 minutes on the 2 x 2 grid: the
    inflow depth is 0.6, the cell of elevation 0 holds 0.6 and the cells
    above it, where the sum is negative, hold 0. *)
Lemma water_level_formula_witness :
  (inflowDepth (F:=float) 300 120 one = 0x1.3333333333333p-1%float ∧
   water_level 300 120 (of_int_grid dem_2x2)
   = Some [[0x1.3333333333333p-1; 0]; [0; 0]]%float ∧
   level_ok (F:=float) (inflowDepth 300 120 one) 1%float 0%float (-0x1.999999999999ap-2)%float
   = false ∧
   level_ok (F:=float) (inflowDepth 300 120 one) 0%float 0%float 0%float = false) ∧
  ∃ m : float, is_min (of_int_grid dem_2x2) m ∧
    (∃ W, water_level 300 120 (of_int_grid dem_2x2) = Some W ∧
       levels_ok (inflowDepth 300 120 one) m (of_int_grid dem_2x2) W) ∧
    (∀ steps : nat, ∃ fs,
       frames 300 120 steps (of_int_grid dem_2x2) = Some fs ∧ length fs = steps ∧
       ∀ k W, fs !! k = Some W →
       levels_ok
         (inflowDepth 300 120
            (fdiv (of_int (Z.of_nat (S k))) (of_int (Z.of_nat steps))))
         m (of_int_grid dem_2x2) W).
Proof.
  split; [by vm_compute |].
  apply (water_level_formula (F:=float) 300 120 (of_int_grid dem_2x2)).
  - apply all_cells_ravel. vm_compute. repeat constructor.
  - vm_compute. discriminate.
Defined.

(** C4 in binary64, at 300 mm/h over 120 minutes, 20 frames, on the
    2 x 2 grid. *)
Lemma water_level_nonneg_witness :
  (∃ W : list (list float),
     water_level 300 120 (of_int_grid dem_2x2) = Some W ∧ all_cells (fle zero) W) ∧
  (∃ fs : list (list (list float)),
     frames 300 120 20 (of_int_grid dem_2x2) = Some fs ∧ length fs = 20%nat ∧
     ∀ W, W ∈ fs → all_cells (fle zero) W) ∧
  (∀ v : float, isnan v = false →
     ∃ W, level v (of_int_grid dem_2x2) = Some W ∧ all_cells (fle zero) W).
Proof.
  apply (water_level_nonneg (F:=float) 300 120 20 (of_int_grid dem_2x2)).
  - exact dem_2x2_finite_b64.
  - vm_compute. discriminate.
  - by vm_compute.
  - by vm_compute.
Defined.

(** C8 in binary64, at a band with two NaN cells and an infinite one: the
    NaN cells become 3, the smallest measured value, and the infinite cell
    the largest finite double. *)
Lemma load_dem_replaces_nan_witness :
  load_dem band_with_nan
    = Some [[3; 5; 3]; [0x1.fffffffffffffp+1023; 3; 4]]%float ∧
  ∃ m E, np_nanmin band_with_nan = Some m ∧ load_dem band_with_nan = Some E ∧
    isnan m = false ∧
    (∃ i j, cell band_with_nan i j = Some m) ∧
    (∀ i j x, cell band_with_nan i j = Some x → isnan x = false → fle m x = true) ∧
    (∀ i j x, cell band_with_nan i j = Some x → isnan x = true → cell E i j = Some m) ∧
    (∀ i j x, cell band_with_nan i j = Some x → isfinite x = true → cell E i j = Some x) ∧
    (∀ i j, is_Some (cell E i j) ↔ is_Some (cell band_with_nan i j)) ∧
    all_cells notnan E.
Proof.
  split; [by vm_compute |].
  apply (load_dem_replaces_nan (F:=float) band_with_nan).
  exists 0%nat, 1%nat, 5%float. by vm_compute.
Defined.


(** C3 in binary64, at a 1000 x 2000 grid in mode Ringan: it becomes
    75 x 150, and neither side has grown. *)
Lemma resized_shape_bounded_witness :
  resized_shape (F:=float) Ringan 1000 2000 = Some (75, 150) ∧
  (0 < 75 ≤ MAX_RES Ringan ∧ 0 < 150 ≤ MAX_RES Ringan) ∧
  (MAX_RES Ringan ≤ Z.of_nat 1000 ∨ MAX_RES Ringan ≤ Z.of_nat 2000 →
   75 ≤ Z.of_nat 1000 ∧ 150 ≤ Z.of_nat 2000).
Proof.
  split; [by vm_compute |].
  apply (resized_shape_bounded Ringan 1000 2000 75 150).
  - lia.
  - lia.
  - by vm_compute.
  - by vm_compute.
  - by vm_compute.
Defined.



(** C7 at 3 rows and 4 columns. *)
Lemma mesh_endpoints_witness :
  rect 3 4 (mesh (F:=xq) bounds_0_10 3 4).1 ∧
  rect 3 4 (mesh (F:=xq) bounds_0_10 3 4).2 ∧
  (∀ i, (i < 3)%nat →
     (∃ x0, cell (mesh (F:=xq) bounds_0_10 3 4).1 i 0 = Some x0 ∧
            feq x0 (of_int 0) = true) ∧
     ((1 < 4)%nat → cell (mesh (F:=xq) bounds_0_10 3 4).1 i (4 - 1) = Some (of_int 10))) ∧
  (∀ j, (j < 4)%nat →
     (∃ y0, cell (mesh (F:=xq) bounds_0_10 3 4).2 0 j = Some y0 ∧
            feq y0 (of_int 10) = true) ∧
     ((1 < 3)%nat → cell (mesh (F:=xq) bounds_0_10 3 4).2 (3 - 1) j = Some (of_int 0))).
Proof.
  apply (mesh_endpoints (F:=xq) 3 4).
  - lia.
  - lia.
  - vm_compute. discriminate.
  - vm_compute. discriminate.
Defined.



(** * Further properties of the code *)

(** ** The report *)

Section ReportProperties.
Context {F : Type} `{BasicLaws F}.
Implicit Types (E W : list (list F)) (v m e threshold : F).

Local Hint Resolve isfinite_not_nan zero_finite zero_not_nan : core.

(** The peak of a level grid, with what the report needs of it. *)
Lemma water_level_peak (r d : Z) E rows cols :
  isnan (inflow_volume r d) = false → all_cells isfinite E →
  rect rows cols E → (0 < rows)%nat → (0 < cols)%nat →
  ∃ W i j p, water_level r d E = Some W ∧ rect rows cols W ∧
    max_pos W = Some (i, j) ∧ cell W i j = Some p ∧
    (i < rows)%nat ∧ (j < cols)%nat ∧ isnan p = false ∧
    (∀ i' j' c, cell W i' j' = Some c → fle c p = true).
Proof.
  intros Hv HE Hrect Hr Hc.
  destruct (level_nonneg (inflow_volume r d) E Hv HE) as (W & HW & Hpos).
  { by eapply rect_ravel_nonempty. }
  pose proof (level_rect _ _ _ _ _ Hrect HW) as HrW.
  assert (all_cells notnan W) as HnW.
  { intros i j c Hc'. unfold notnan.
    by destruct (fle_not_nan _ _ (Hpos i j c Hc')) as [_ ->]. }
  destruct (max_pos_spec W rows cols HrW Hr Hc HnW) as (i & j & p & Hp & Hcell & _ & Hmax & _).
  destruct (cell_in_rect _ _ _ _ _ _ HrW Hcell) as [Hi Hj].
  exists W, i, j, p. split_and!; try done.
  specialize (HnW i j p Hcell). unfold notnan in HnW. by destruct (isnan p).
Qed.

(** Among numbers, [a > t] fails exactly when [a <= t]. *)
Lemma flt_false_iff t a :
  isnan t = false → isnan a = false → flt t a = false ↔ fle a t = true.
Proof. intros Ht Ha. rewrite flt_fle by done. by destruct (fle a t). Qed.

(** The report on a finite grid, step by step. *)
Lemma report_unfold (b : Bounds) (r d : Z) threshold E rows cols :
  isnan (inflow_volume r d) = false → all_cells isfinite E →
  rect rows cols E → (0 < rows)%nat → (0 < cols)%nat →
  ∃ W i j p x y, water_level r d E = Some W ∧
    max_pos W = Some (i, j) ∧ cell W i j = Some p ∧ isnan p = false ∧
    (∀ i' j' c, cell W i' j' = Some c → fle c p = true) ∧
    (i < rows)%nat ∧ (j < cols)%nat ∧
    linspace (left b) (right b) cols !! j = Some x ∧
    linspace (top b) (bottom b) rows !! i = Some y ∧
    report b r d threshold E
    = Some (if flt threshold p then Flood p x y else NoFlood).
Proof.
  intros Hv HE Hrect Hr Hc.
  destruct (water_level_peak r d E rows cols Hv HE Hrect Hr Hc)
    as (W & i & j & p & HW & HrW & Hp & Hcell & Hi & Hj & Hnan & Hmax).
  destruct (lookup_lt_is_Some_2 (linspace (left b) (right b) cols) j) as [x Hx];
    [by rewrite length_linspace |].
  destruct (lookup_lt_is_Some_2 (linspace (top b) (bottom b) rows) i) as [y Hy];
    [by rewrite length_linspace |].
  exists W, i, j, p, x, y. split_and!; try done.
  unfold report, mesh. rewrite (shape_rect rows cols E Hrect Hr), HW.
  cbn -[meshgrid linspace cell]. rewrite Hp.
  cbn -[meshgrid linspace cell]. rewrite Hcell.
  cbn -[meshgrid linspace cell].
  destruct (flt threshold p); [| done].
  rewrite cell_meshgrid_X by (by rewrite length_linspace).
  rewrite cell_meshgrid_Y by (by rewrite length_linspace).
  by rewrite Hx, Hy.
Qed.

(** On a finite grid the comparison with the threshold is always reached.
    Its outcome is the alert exactly when some cell of the water level grid
    exceeds the threshold, and the all-clear exactly when every cell is at
    most the threshold; the depth handed to the alert is the level of a
    cell, above the threshold and at least the level of every cell. *)
Lemma report_cases (b : Bounds) (r d : Z) threshold E rows cols :
  isnan (inflow_volume r d) = false → isnan threshold = false →
  all_cells isfinite E → rect rows cols E → (0 < rows)%nat → (0 < cols)%nat →
  ∃ W rep, water_level r d E = Some W ∧ report b r d threshold E = Some rep ∧
    (rep = NoFlood ↔ ∀ i j c, cell W i j = Some c → fle c threshold = true) ∧
    (rep ≠ NoFlood ↔ ∃ i j c, cell W i j = Some c ∧ flt threshold c = true) ∧
    (∀ depth x y, rep = Flood depth x y →
       flt threshold depth = true ∧ (∃ i j, cell W i j = Some depth) ∧
       ∀ i j c, cell W i j = Some c → fle c depth = true).
Proof.
  intros Hv Ht HE Hrect Hr Hc.
  destruct (report_unfold b r d threshold E rows cols Hv HE Hrect Hr Hc)
    as (W & i & j & p & x & y & HW & Hp & Hcell & Hnan & Hmax & _ & _ & _ & _ & Hrep).
  exists W, (if flt threshold p then Flood p x y else NoFlood).
  split; [done |]. split; [done |].
  assert (∀ i' j' c, cell W i' j' = Some c → isnan c = false) as Hnn.
  { intros i' j' c Hc'. by destruct (fle_not_nan _ _ (Hmax i' j' c Hc')). }
  destruct (flt threshold p) eqn:Hflt.
  - assert (fle p threshold = false) as Hpt.
    { rewrite flt_fle in Hflt by done. by destruct (fle p threshold). }
    split_and!.
    + split; [done |]. intros Hall. by rewrite (Hall i j p Hcell) in Hpt.
    + split; [eauto |]. done.
    + intros depth x' y' [= <- <- <-]. eauto.
  - apply flt_false_iff in Hflt; [| done | done].
    split_and!.
    + split; [| done]. intros _ i' j' c Hc'. eauto using fle_trans.
    + split; [done |]. intros (i' & j' & c & Hc' & Hgt).
      rewrite flt_fle in Hgt by eauto.
      by rewrite (fle_trans c p threshold) in Hgt by eauto.
    + done.
Qed.

(** The location handed to an alert is that of the peak: with
    [(i, j) = max_pos], a valid index of the grid, [x] is entry [j] of
    [np.linspace(left, right, cols)] and [y] is entry [i] of
    [np.linspace(top, bottom, rows)]; no lookup is out of range. *)
Lemma report_peak_location (b : Bounds) (r d : Z) threshold E rows cols depth x y :
  isnan (inflow_volume r d) = false → all_cells isfinite E →
  rect rows cols E → (0 < rows)%nat → (0 < cols)%nat →
  report b r d threshold E = Some (Flood depth x y) →
  ∃ W i j, water_level r d E = Some W ∧ max_pos W = Some (i, j) ∧
    (i < rows)%nat ∧ (j < cols)%nat ∧ cell W i j = Some depth ∧
    linspace (left b) (right b) cols !! j = Some x ∧
    linspace (top b) (bottom b) rows !! i = Some y ∧
    cell (mesh b rows cols).1 i j = Some x ∧ cell (mesh b rows cols).2 i j = Some y.
Proof.
  intros Hv HE Hrect Hr Hc Hrep.
  destruct (report_unfold b r d threshold E rows cols Hv HE Hrect Hr Hc)
    as (W & i & j & p & x' & y' & HW & Hp & Hcell & _ & _ & Hi & Hj & Hx & Hy & Hrep').
  rewrite Hrep in Hrep'. destruct (flt threshold p); [| done].
  injection Hrep' as -> -> ->.
  exists W, i, j. split_and!; try done.
  - unfold mesh. by rewrite cell_meshgrid_X by (by rewrite length_linspace).
  - unfold mesh. by rewrite cell_meshgrid_Y by (by rewrite length_linspace).
Qed.

End ReportProperties.

(** ** Empty and unclean inputs *)

Section Edge.
Context {F : Type} `{Arith F}.
Implicit Types (E W : list (list F)) (l : list F).

Lemma length_ravel_rect rows cols E : rect rows cols E → length (ravel E) = (rows * cols)%nat.
Proof.
  intros [<- Hrows]. unfold ravel. induction E as [| row E IH]; [done |].
  apply Forall_cons in Hrows as [Hrow Hrows]. csimpl.
  rewrite length_app, IH, Hrow by done. lia.
Qed.

Lemma ravel_empty_iff rows cols E :
  rect rows cols E → ravel E = [] ↔ rows = 0%nat ∨ cols = 0%nat.
Proof.
  intros Hrect. rewrite <- length_zero_iff_nil, (length_ravel_rect rows cols) by done.
  lia.
Qed.

Lemma cell_is_Some rows cols E i j :
  rect rows cols E → (i < rows)%nat → (j < cols)%nat → is_Some (cell E i j).
Proof.
  intros [Hlen Hrows] Hi Hj. unfold cell.
  destruct (lookup_lt_is_Some_2 E i) as [row Hrow]; [lia |].
  rewrite Hrow. simpl. apply lookup_lt_is_Some_2.
  rewrite Forall_forall in Hrows. rewrite (Hrows row); [done |].
  by eapply list_elem_of_lookup_2.
Qed.

(** The index found by the loop of [np.argmax] is the running one or a
    later position of the data. *)
Lemma argmax_loop_range l mp k i :
  argmax_loop mp k i l = k ∨ (i ≤ argmax_loop mp k i l < i + length l)%nat.
Proof.
  revert mp k i. induction l as [| x l IH]; intros mp k i; simpl; [by left |].
  destruct (negb (fle x mp)).
  - destruct (isnan x); [right; lia |].
    destruct (IH x i (S i)) as [-> | ?]; right; lia.
  - destruct (IH mp k (S i)) as [-> | ?]; [by left | right; lia].
Qed.

Lemma np_argmax_lt l k : np_argmax l = Some k → (k < length l)%nat.
Proof.
  destruct l as [| x l]; [done |]. simpl. intros [= <-].
  destruct (isnan x); [lia |].
  destruct (argmax_loop_range l x 0 1) as [-> | ?]; lia.
Qed.

Lemma level_None v E : level v E = None ↔ ravel E = [].
Proof.
  unfold level, np_min, reduce. by destruct (ravel E).
Qed.

Lemma max_pos_in_range rows cols W :
  rect rows cols W → (0 < rows)%nat → (0 < cols)%nat →
  ∃ i j, max_pos W = Some (i, j) ∧ (i < rows)%nat ∧ (j < cols)%nat.
Proof.
  intros Hrect Hr Hc. unfold max_pos.
  pose proof (length_ravel_rect rows cols W Hrect) as Hlen.
  destruct (np_argmax (ravel W)) as [k |] eqn:Hk.
  - apply np_argmax_lt in Hk. rewrite Hlen in Hk.
    rewrite (shape_rect rows cols W Hrect Hr). simpl.
    eexists _, _. split; [done |]. unfold unravel_index. simpl. split.
    + apply Nat.Div0.div_lt_upper_bound. lia.
    + apply Nat.mod_upper_bound. lia.
  - destruct (ravel W) eqn:Hrav; [| done]. simpl in Hlen. lia.
Qed.

(** X3.  Whatever the cells hold (NaN and infinities included), the water
    level, the frames and the report raise an exception exactly when the
    grid has no cell: zero rows or zero columns. *)
Theorem estimate_raises_iff_empty (b : Bounds) (r d : Z) (threshold : F)
    (steps : nat) E rows cols :
  rect rows cols E → (0 < steps)%nat →
  (water_level r d E = None ↔ rows = 0%nat ∨ cols = 0%nat) ∧
  (frames r d steps E = None ↔ rows = 0%nat ∨ cols = 0%nat) ∧
  (report b r d threshold E = None ↔ rows = 0%nat ∨ cols = 0%nat).
Proof.
  intros Hrect Hsteps.
  pose proof (ravel_empty_iff rows cols E Hrect) as Hempty.
  split_and!.
  - unfold water_level. by rewrite level_None.
  - rewrite <- Hempty. unfold frames, level_t. split.
    + intros Hnone. destruct (ravel E) eqn:Hrav; [done |]. exfalso.
      destruct (np_min E) as [m |] eqn:Hm; [| by unfold np_min in Hm; rewrite Hrav in Hm].
      rewrite (mapM_total _ (λ t, maximum_scalar zero
                 (add_scalar (scalar_sub (volume_t r d (Z.of_nat steps) (Z.of_nat t)) E) m)))
        in Hnone; [done |].
      intros t _. by apply level_unfold.
    + intros Hnil. destruct steps as [| steps]; [lia |].
      simpl. by rewrite (proj2 (level_None _ E) Hnil).
  - rewrite <- Hempty. unfold report. split.
    + intros Hnone. destruct (ravel E) eqn:Hrav; [done |]. exfalso.
      assert (0 < rows ∧ 0 < cols)%nat as [Hr Hc].
      { destruct (decide (rows = 0%nat ∨ cols = 0%nat)) as [Hz | Hnz]; [| lia].
        by apply Hempty in Hz. }
      destruct (water_level r d E) as [W |] eqn:HW.
      2:{ unfold water_level in HW. apply level_None in HW. by rewrite Hrav in HW. }
      pose proof (level_rect _ _ _ _ _ Hrect HW) as HrW.
      destruct (max_pos_in_range rows cols W HrW Hr Hc) as (i & j & Hp & Hi & Hj).
      destruct (cell_is_Some rows cols W i j HrW Hi Hj) as [p Hcell].
      rewrite (shape_rect rows cols E Hrect Hr) in Hnone.
      unfold mesh in Hnone. cbn -[meshgrid linspace cell] in Hnone.
      rewrite Hp in Hnone. cbn -[meshgrid linspace cell] in Hnone.
      rewrite Hcell in Hnone. cbn -[meshgrid linspace cell] in Hnone.
      destruct (flt threshold p); [| done].
      rewrite cell_meshgrid_X, cell_meshgrid_Y in Hnone by (by rewrite length_linspace).
      destruct (lookup_lt_is_Some_2 (linspace (left b) (right b) cols) j) as [x Hx];
        [by rewrite length_linspace |].
      destruct (lookup_lt_is_Some_2 (linspace (top b) (bottom b) rows) i) as [y Hy];
        [by rewrite length_linspace |].
      by rewrite Hx, Hy in Hnone.
    + intros Hnil. unfold water_level. by rewrite (proj2 (level_None _ E) Hnil).
Qed.

End Edge.

(** ** Loading *)

Section Loading.
Context {F : Type} `{BasicLaws F}.
Implicit Types (E W band : list (list F)) (v m e x : F).

Local Hint Resolve isfinite_not_nan zero_finite zero_not_nan : core.

(** [np.nanmin] of a band with a measured value. *)
Lemma np_nanmin_spec band :
  (∃ i j x, cell band i j = Some x ∧ isnan x = false) →
  ∃ m, np_nanmin band = Some m ∧ isnan m = false ∧
    (∃ i j, cell band i j = Some m) ∧
    (∀ i j x, cell band i j = Some x → isnan x = false → fle m x = true).
Proof.
  intros (i0 & j0 & x0 & Hx0 & Hnn0).
  assert (x0 ∈ ravel band) as Hin0 by (apply elem_of_ravel; eauto).
  unfold np_nanmin, reduce.
  destruct (ravel band) as [| x l] eqn:Hr; [by apply not_elem_of_nil in Hin0 |].
  destruct (foldl_np_fmin_spec l x) as (Hm & Hin & Hle).
  { apply Exists_exists. exists x0. split; [done |]. unfold notnan. by rewrite Hnn0. }
  rewrite <- Hr in Hin, Hle. eexists. split_and!; [done | done | by apply elem_of_ravel |].
  intros i j y Hy Hnn. apply Hle; [| done]. apply elem_of_ravel. eauto.
Qed.

Lemma elementwise_id (f : F → F) E :
  (∀ i j x, cell E i j = Some x → f x = x) → elementwise f E = E.
Proof.
  intros Hf. unfold elementwise. apply list_eq. intros i.
  rewrite list_lookup_fmap. destruct (E !! i) as [row |] eqn:Hrow; [| done].
  simpl. f_equal. apply list_eq. intros j. rewrite list_lookup_fmap.
  destruct (row !! j) as [x |] eqn:Hx; [| done]. simpl. f_equal.
  apply (Hf i j). unfold cell. by rewrite Hrow.
Qed.

Lemma nan_to_num1_finite m x : isfinite m = true → isfinite (nan_to_num1 m x) = true.
Proof.
  intros Hm. unfold nan_to_num1.
  destruct (isnan x) eqn:Hnan; [done |].
  destruct (isposinf x) eqn:Hpos; [apply finfo_max_finite |].
  destruct (isneginf x) eqn:Hneg; [apply finfo_min_finite |].
  unfold isfinite. by rewrite Hnan, Hpos, Hneg.
Qed.

(** X4.  Loading a band with a measured value clips its infinite cells to
    the largest and the smallest finite number of the type.  The loaded
    grid is finite throughout when the least measured value is finite, as
    it is when no cell of the band is infinite. *)
Theorem load_dem_finite band :
  (∃ i j x, cell band i j = Some x ∧ isnan x = false) →
  ∃ m E, np_nanmin band = Some m ∧ load_dem band = Some E ∧
    (∀ i j x, cell band i j = Some x → isnan x = false → isposinf x = true →
       cell E i j = Some finfo_max) ∧
    (∀ i j x, cell band i j = Some x → isnan x = false → isposinf x = false →
       isneginf x = true → cell E i j = Some finfo_min) ∧
    (isfinite m = true → all_cells isfinite E) ∧
    ((∀ i j x, cell band i j = Some x → isnan x = false → isfinite x = true) →
     isfinite m = true).
Proof.
  intros Hex. destruct (np_nanmin_spec band Hex) as (m & Hm & Hnan & (i & j & Hcell) & Hle).
  exists m, (nan_to_num m band). unfold load_dem. rewrite Hm. simpl.
  split_and!; [done | done | | | |].
  - intros i' j' x Hx Hnn Hpos. unfold nan_to_num. rewrite cell_elementwise, Hx. simpl.
    unfold nan_to_num1. by rewrite Hnn, Hpos.
  - intros i' j' x Hx Hnn Hpos Hneg. unfold nan_to_num. rewrite cell_elementwise, Hx.
    simpl. unfold nan_to_num1. by rewrite Hnn, Hpos, Hneg.
  - intros Hfin. apply all_cells_elementwise. intros e. by apply nan_to_num1_finite.
  - intros Hall. eauto.
Qed.

Lemma load_dem_clean E :
  all_cells isfinite E → ravel E ≠ [] → load_dem E = Some E.
Proof.
  intros HE Hne. unfold load_dem, np_nanmin, reduce.
  destruct (ravel E) as [| x l]; [done |]. simpl. f_equal.
  apply elementwise_id. intros i j y Hy. specialize (HE i j y Hy).
  unfold nan_to_num1. unfold isfinite in HE.
  by destruct (isnan y), (isposinf y), (isneginf y).
Qed.

(** X5.  Loading is idempotent: a grid that came out of [load_dem] with a
    finite replacement value is returned unchanged when loaded again. *)
Theorem load_dem_idempotent band m E :
  np_nanmin band = Some m → isfinite m = true → load_dem band = Some E →
  load_dem E = Some E.
Proof.
  intros Hm Hfin. unfold load_dem. rewrite Hm. simpl. intros [= <-].
  apply load_dem_clean.
  - apply all_cells_elementwise. intros e. by apply nan_to_num1_finite.
  - unfold nan_to_num. rewrite ravel_elementwise.
    unfold np_nanmin, reduce in Hm. by destruct (ravel band).
Qed.

End Loading.

Section NoData.
Context {F : Type} `{ArithLaws F}.
Implicit Types (E W band : list (list F)) (v m e x : F).

Local Hint Resolve isfinite_not_nan zero_finite zero_not_nan : core.

(** X6.  In [banjir_new3.py], where the level is computed on the loaded
    band itself (lines 20 and 34), unmeasured cells are flooded deepest.
    When the band holds NaN and finite values only, a cell that was NaN in
    the band holds, in the water level grid of the loaded elevation, a
    level that no cell exceeds, for every volume.  (The other script
    resizes the loaded band before it computes the level.) *)
Theorem nodata_cells_attain_peak band v :
  (∃ i j x, cell band i j = Some x ∧ isnan x = false) →
  (∀ i j x, cell band i j = Some x → isnan x = false → isfinite x = true) →
  isnan v = false →
  ∃ E W, load_dem band = Some E ∧ level v E = Some W ∧
    ∀ i j x, cell band i j = Some x → isnan x = true →
    ∃ c, cell W i j = Some c ∧
         ∀ i' j' c', cell W i' j' = Some c' → fle c' c = true.
Proof.
  intros Hex Hnoinf Hv.
  destruct (np_nanmin_spec band Hex) as (m & Hm & Hnan & (i0 & j0 & Hcell0) & Hle).
  assert (isfinite m = true) as Hmfin by eauto.
  set (E := nan_to_num m band).
  assert (load_dem band = Some E) as Hload by (unfold load_dem; by rewrite Hm).
  assert (all_cells isfinite E) as HE.
  { apply all_cells_elementwise. intros e. by apply nan_to_num1_finite. }
  assert (∀ i j e, cell E i j = Some e → fle m e = true) as Hmin.
  { intros i j e. unfold E, nan_to_num. rewrite cell_elementwise.
    destruct (cell band i j) as [x |] eqn:Hx; [| done]. simpl. intros [= <-].
    unfold nan_to_num1. destruct (isnan x) eqn:Hxnan; [by apply fle_refl |].
    specialize (Hnoinf i j x Hx Hxnan). unfold isfinite in Hnoinf.
    rewrite Hxnan in Hnoinf. destruct (isposinf x), (isneginf x); try done.
    by apply (Hle i j). }
  assert (∀ i j x, cell band i j = Some x → isnan x = true → cell E i j = Some m)
    as Hrepl.
  { intros i j x Hx Hxnan. unfold E, nan_to_num. rewrite cell_elementwise, Hx. simpl.
    unfold nan_to_num1. by rewrite Hxnan. }
  assert (ravel E ≠ []) as Hne.
  { unfold E, nan_to_num. rewrite ravel_elementwise.
    unfold np_nanmin, reduce in Hm. by destruct (ravel band). }
  destruct (level_spec v E) as (m' & W & Hm' & _ & HW & _);
    [by apply all_cells_finite_notnan | done |].
  exists E, W. split; [done |]. split; [done |].
  intros i j x Hx Hxnan.
  destruct (level_at_min_is_max v E W m' i j m Hv HE Hm' HW (Hrepl i j x Hx Hxnan))
    as [Hc Hmax]; [| eauto].
  split; [eauto | done].
Qed.

End NoData.

(** ** The message *)

Lemma message_unfold (b : Bounds) (r d : Z) (threshold : float) E :
  message b r d threshold E
  = (λ rep, match rep with
            | Flood depth x y => st_error (format_2f depth) (format_2f x) (format_2f y)
            | NoFlood => st_success
            end) <$> report b r d threshold E.
Proof. unfold message. by destruct (report b r d threshold E). Qed.

(** The formatting on the samples: half a hundredth is rounded to the
    even neighbour, the sign of a value that rounds to zero is kept, and a
    depth just above the threshold 0.1 is printed as [0.10]. *)
Remark format_2f_on_samples :
  Forall (λ p : float * string, format_2f p.1 = p.2) format_2f_samples.
Proof.
  unfold format_2f_samples.
  repeat (apply Forall_cons_2; [vm_compute; reflexivity |]). apply Forall_nil_2.
Qed.

(** X1.  For a float64 band with finite cells the message is always
    produced.  It is the all-clear exactly when every cell of the water
    level grid is at most the threshold, and the alert exactly when some
    cell exceeds it.  The depth printed in an alert is [format(depth,
    ".2f")] for [depth] the level of a cell that exceeds the threshold and
    is at least the level of every cell: these hold of [depth], not of the
    two decimals printed. *)
Theorem report_classifies (b : Bounds) (r d : Z) (threshold : float)
    (E : list (list float)) rows cols :
  isnan (inflow_volume (F:=float) r d) = false → isnan threshold = false →
  all_cells isfinite E → rect rows cols E → (0 < rows)%nat → (0 < cols)%nat →
  ∃ W msg, water_level r d E = Some W ∧ message b r d threshold E = Some msg ∧
    (msg = st_success ↔ ∀ i j c, cell W i j = Some c → fle c threshold = true) ∧
    (msg ≠ st_success ↔ ∃ i j c, cell W i j = Some c ∧ flt threshold c = true) ∧
    (∀ sd sx sy, msg = st_error sd sx sy →
       ∃ depth, sd = format_2f depth ∧ flt threshold depth = true ∧
         (∃ i j, cell W i j = Some depth) ∧
         ∀ i j c, cell W i j = Some c → fle c depth = true).
Proof.
  intros Hv Ht HE Hrect Hr Hc.
  destruct (report_cases b r d threshold E rows cols Hv Ht HE Hrect Hr Hc)
    as (W & rep & HW & Hrep & Hclear & Halert & Hdepth).
  rewrite message_unfold, Hrep. simpl. eexists W, _.
  split; [done |]. split; [done |].
  destruct rep as [depth x y |].
  - split_and!.
    + rewrite <- Hclear. by split.
    + rewrite <- Halert. by split.
    + intros sd sx sy [= <- _ _]. exists depth. split; [done |]. by eapply Hdepth.
  - split_and!.
    + rewrite <- Hclear. by split.
    + rewrite <- Halert. by split.
    + done.
Qed.

(** X2.  The coordinates printed in an alert are [format(x, ".2f")] and
    [format(y, ".2f")] for the location of the peak: with [(i, j) =
    max_pos], a valid index of the grid, [x] is entry [j] of
    [np.linspace(left, right, cols)] and [y] is entry [i] of
    [np.linspace(top, bottom, rows)]; no lookup is out of range. *)
Theorem report_location (b : Bounds) (r d : Z) (threshold : float)
    (E : list (list float)) rows cols sd sx sy :
  isnan (inflow_volume (F:=float) r d) = false → all_cells isfinite E →
  rect rows cols E → (0 < rows)%nat → (0 < cols)%nat →
  message b r d threshold E = Some (st_error sd sx sy) →
  ∃ W i j depth x y, water_level r d E = Some W ∧ max_pos W = Some (i, j) ∧
    (i < rows)%nat ∧ (j < cols)%nat ∧ cell W i j = Some depth ∧
    linspace (left b) (right b) cols !! j = Some x ∧
    linspace (top b) (bottom b) rows !! i = Some y ∧
    cell (mesh b rows cols).1 i j = Some x ∧ cell (mesh b rows cols).2 i j = Some y ∧
    sd = format_2f depth ∧ sx = format_2f x ∧ sy = format_2f y.
Proof.
  intros Hv HE Hrect Hr Hc. rewrite message_unfold.
  destruct (report b r d threshold E) as [[depth x y |] |] eqn:Hrep; simpl; [| done..].
  intros [= <- <- <-].
  destruct (report_peak_location b r d threshold E rows cols depth x y
              Hv HE Hrect Hr Hc Hrep)
    as (W & i & j & HW & Hp & Hi & Hj & Hcell & Hx & Hy & HX & HY).
  exists W, i, j, depth, x, y. by split_and!.
Qed.

(** ** The inflow volume *)

Section Inflow.
Context {F : Type} `{ArithLaws F}.

Local Hint Resolve isfinite_not_nan zero_finite zero_not_nan : core.

Lemma of_int_ge_one (n : Z) : 1 ≤ n ≤ 2 ^ 53 → fle one (of_int n : F) = true.
Proof. intros Hn. apply of_int_mono; [by apply small_int_in_range | lia | lia]. Qed.

Lemma rainfall_intensity_finite (r : Z) :
  Z.abs r ≤ 2 ^ 53 → isfinite (rainfall_intensity r : F) = true.
Proof.
  intros Hr. assert (10000 ≤ 2 ^ 53) by done. unfold rainfall_intensity.
  apply fdiv_bounded; [apply fdiv_bounded | |].
  - by apply of_int_finite.
  - apply of_int_finite. simpl. lia.
  - apply of_int_ge_one. lia.
  - apply of_int_finite. simpl. lia.
  - apply of_int_ge_one. lia.
Qed.

Lemma rainfall_intensity_mono (r r' : Z) :
  Z.abs r ≤ 2 ^ 53 → Z.abs r' ≤ 2 ^ 53 → r ≤ r' →
  fle (rainfall_intensity r : F) (rainfall_intensity r') = true.
Proof.
  intros Hr Hr' Hrr'. assert (10000 ≤ 2 ^ 53) by done. unfold rainfall_intensity.
  assert (∀ z, Z.abs z ≤ 2 ^ 53 →
            isfinite (fdiv (of_int z) (of_int 3600) : F) = true) as Hfin.
  { intros z Hz. apply fdiv_bounded; [by apply of_int_finite | |].
    - apply of_int_finite. simpl. lia.
    - apply of_int_ge_one. lia. }
  apply fdiv_mono_l; [by apply Hfin | by apply Hfin | | |].
  - apply fdiv_mono_l.
    + by apply of_int_finite.
    + by apply of_int_finite.
    + by apply of_int_mono.
    + apply of_int_finite. simpl. lia.
    + apply of_int_ge_one. lia.
  - apply of_int_finite. simpl. lia.
  - apply of_int_ge_one. lia.
Qed.

Lemma rainfall_intensity_nonneg (r : Z) :
  0 ≤ r ≤ 2 ^ 53 → fle zero (rainfall_intensity r : F) = true.
Proof.
  intros Hr. assert (10000 ≤ 2 ^ 53) by done.
  apply fle_trans with (rainfall_intensity 0).
  - assert (feq (rainfall_intensity 0 : F) zero = true) as Hz.
    { unfold rainfall_intensity. apply fdiv_zero_l.
      - apply fdiv_zero_l.
        + apply feq_intro; apply fle_refl, zero_not_nan.
        + apply of_int_finite. simpl. lia.
        + apply of_int_ge_one. lia.
      - apply of_int_finite. simpl. lia.
      - apply of_int_ge_one. lia. }
    unfold feq in Hz. by apply andb_true_iff in Hz as [_ ?].
  - apply rainfall_intensity_mono; simpl; lia.
Qed.

Lemma inflow_volume_not_nan (r d : Z) :
  Z.abs r ≤ 2 ^ 53 → Z.abs (d * 60) ≤ 2 ^ 53 → isnan (inflow_volume r d : F) = false.
Proof.
  intros Hr Hd. unfold inflow_volume, duration.
  apply fmul_not_nan; [by apply rainfall_intensity_finite | by apply of_int_finite].
Qed.

(** The volume grows with the duration. *)
Lemma inflow_volume_mono_d (r d d' : Z) :
  0 ≤ r ≤ 2 ^ 53 → Z.abs (d * 60) ≤ 2 ^ 53 → Z.abs (d' * 60) ≤ 2 ^ 53 → d ≤ d' →
  fle (inflow_volume r d : F) (inflow_volume r d') = true.
Proof.
  intros Hr Hd Hd' Hdd'. unfold inflow_volume, duration.
  apply fmul_mono_r.
  - by apply rainfall_intensity_nonneg.
  - apply of_int_mono; [done | done | lia].
  - apply (inflow_volume_not_nan r d); lia.
  - apply (inflow_volume_not_nan r d'); lia.
Qed.

End Inflow.

(** In binary64 the volume grows with the intensity as well. *)
Lemma inflow_volume_mono (r r' d d' : Z) :
  0 ≤ r ≤ r' → r' ≤ 2 ^ 53 → 0 ≤ d ≤ d' → d' * 60 ≤ 2 ^ 53 →
  fle (inflow_volume (F:=float) r d) (inflow_volume r' d') = true.
Proof.
  intros Hr Hr' Hd Hd'.
  apply fle_trans with (inflow_volume r' d).
  - unfold inflow_volume, duration. apply b64_fmul_mono_l.
    + change (zero : float) with (of_int 0 : float). apply of_int_mono; simpl; lia.
    + apply rainfall_intensity_mono; lia.
    + apply (inflow_volume_not_nan r d); lia.
    + apply (inflow_volume_not_nan r' d); lia.
  - apply inflow_volume_mono_d; lia.
Qed.

Lemma slider_volume_bounds (r d : Z) :
  10 ≤ r ≤ 10000 → 10 ≤ d ≤ 10000 →
  isfinite (inflow_volume (F:=float) r d) = true ∧
  fle zero (inflow_volume (F:=float) r d) = true ∧
  flt zero (inflow_volume (F:=float) r d) = true.
Proof.
  intros Hr Hd. assert (10000 * 60 ≤ 2 ^ 53) by done. assert (10000 ≤ 2 ^ 53) by done.
  pose proof (inflow_volume_mono 10 r 10 d ltac:(lia) ltac:(lia) ltac:(lia) ltac:(lia))
    as Hlo.
  pose proof (inflow_volume_mono r 10000 d 10000 ltac:(lia) ltac:(lia) ltac:(lia) ltac:(lia))
    as Hhi.
  assert (isfinite (inflow_volume (F:=float) 10 10) = true) as Hflo by (by vm_compute).
  assert (isfinite (inflow_volume (F:=float) 10000 10000) = true) as Hfhi
    by (by vm_compute).
  assert (fle (inflow_volume (F:=float) 10 10) zero = false) as Hpos by (by vm_compute).
  set (v := inflow_volume r d) in *.
  destruct (fle_not_nan _ _ Hlo) as [_ Hnan].
  assert (fle v zero = false) as Hv0.
  { destruct (fle v zero) eqn:Hv; [| done].
    by rewrite (fle_trans _ _ _ Hlo Hv) in Hpos. }
  split_and!.
  - by apply (b64_finite_between _ v _ Hflo Hfhi).
  - apply fle_false_ge; [done | apply zero_not_nan | done].
  - rewrite flt_fle by (done || apply zero_not_nan). by rewrite Hv0.
Qed.

(** X7.  Over the whole range of the sliders (intensity and duration from
    10 to 10000) the inflow volume is a finite positive number, and it
    grows with the intensity and with the duration. *)
Theorem inflow_volume_slider (r r' d d' : Z) :
  10 ≤ r ≤ r' → r' ≤ 10000 → 10 ≤ d ≤ d' → d' ≤ 10000 →
  isfinite (inflow_volume (F:=float) r d) = true ∧
  flt zero (inflow_volume (F:=float) r d) = true ∧
  fle (inflow_volume (F:=float) r d) (inflow_volume r' d') = true.
Proof.
  intros Hr Hr' Hd Hd'.
  destruct (slider_volume_bounds r d) as (Hfin & _ & Hpos); [lia | lia |].
  split_and!; [done | done |].
  assert (10000 * 60 ≤ 2 ^ 53) by done. assert (10000 ≤ 2 ^ 53) by done.
  apply inflow_volume_mono; lia.
Qed.

(** ** The animation *)

Lemma last_seq (start len : nat) :
  (0 < len)%nat → last (seq start len) = Some (start + len - 1)%nat.
Proof.
  intros Hlen. destruct len as [| len]; [lia |].
  rewrite seq_S, last_snoc. f_equal. lia.
Qed.

Lemma volume_t_last (r d steps : Z) :
  1 ≤ steps ≤ 2 ^ 53 → volume_t (F:=float) r d steps steps = inflow_volume r d.
Proof.
  intros Hsteps. unfold volume_t.
  change (of_int steps : float) with (b64_of_int steps).
  rewrite b64_fdiv_diag by done. apply fmul_one_r.
Qed.

(** X8.  The last frame of the animation is the static water level grid:
    at [t = steps] the time fraction [t / steps] is exactly 1 and
    multiplying by it changes nothing (binary64, any grid). *)
Theorem last_frame_is_static (r d : Z) (steps : nat) (E : list (list float)) fs :
  (0 < steps)%nat → Z.of_nat steps ≤ 2 ^ 53 →
  frames r d steps E = Some fs →
  ∃ W, last fs = Some W ∧ water_level r d E = Some W ∧ length fs = steps.
Proof.
  intros Hsteps H53 Hfs.
  destruct (np_min E) as [m |] eqn:Hm.
  2:{ destruct steps as [| n]; [lia |]. unfold frames, level_t, level in Hfs.
      simpl in Hfs. by rewrite Hm in Hfs. }
  rewrite (frames_unfold r d steps E m Hm) in Hfs. injection Hfs as <-.
  rewrite fmap_last, last_seq by done.
  replace (1 + steps - 1)%nat with steps by lia. simpl.
  eexists. split; [done |]. split.
  - unfold water_level. rewrite (level_unfold _ E m Hm). do 4 f_equal.
    symmetry. apply volume_t_last. lia.
  - by rewrite length_fmap, length_seq.
Qed.

(** The frames on a finite grid, for slider inputs. *)
Lemma frame_volumes (r d : Z) (steps : nat) (t t' : Z) :
  10 ≤ r ≤ 10000 → 10 ≤ d ≤ 10000 → (0 < steps)%nat → Z.of_nat steps ≤ 2 ^ 53 →
  0 ≤ t ≤ t' → t' ≤ Z.of_nat steps →
  isnan (volume_t (F:=float) r d (Z.of_nat steps) t) = false ∧
  fle (volume_t (F:=float) r d (Z.of_nat steps) t)
      (volume_t r d (Z.of_nat steps) t') = true ∧
  fle (volume_t (F:=float) r d (Z.of_nat steps) t) (inflow_volume r d) = true.
Proof.
  intros Hr Hd Hsteps H53 Ht Ht'.
  destruct (slider_volume_bounds r d Hr Hd) as (Hfin & Hnonneg & _).
  split_and!.
  - apply volume_t_not_nan; [done | lia | lia].
  - apply volume_t_mono; try done; lia.
  - rewrite <- (volume_t_last r d (Z.of_nat steps)) by lia.
    apply volume_t_mono; try done; lia.
Qed.

(** X9.  For every slider input and every number of frames, on a finite
    grid: all frames are computed, none holds a negative level or a NaN,
    a later frame is nowhere below an earlier one, and no frame exceeds the
    static water level. *)
Theorem animation_well_behaved (r d : Z) (steps : nat) (E : list (list float)) :
  10 ≤ r ≤ 10000 → 10 ≤ d ≤ 10000 → (0 < steps)%nat → Z.of_nat steps ≤ 2 ^ 53 →
  all_cells isfinite E → ravel E ≠ [] →
  ∃ fs Wstatic, frames r d steps E = Some fs ∧ length fs = steps ∧
    water_level r d E = Some Wstatic ∧
    (∀ k W, fs !! k = Some W → all_cells (fle zero) W) ∧
    (∀ k k' W W' i j c c', (k ≤ k')%nat → fs !! k = Some W → fs !! k' = Some W' →
       cell W i j = Some c → cell W' i j = Some c' → fle c c' = true) ∧
    (∀ k W i j c c', fs !! k = Some W →
       cell W i j = Some c → cell Wstatic i j = Some c' → fle c c' = true).
Proof.
  intros Hr Hd Hsteps H53 HE Hne.
  destruct (np_min_spec E (all_cells_finite_notnan E HE) Hne) as (m & Hm & Hmin).
  pose proof (is_min_finite E m HE Hmin) as Hmfin.
  rewrite (frames_unfold r d steps E m Hm). unfold water_level.
  rewrite (level_unfold _ E m Hm).
  eexists _, _. split; [done |]. split; [by rewrite length_fmap, length_seq |].
  split; [done |].
  assert (∀ k W, ((λ t, maximum_scalar zero
            (add_scalar (scalar_sub (volume_t r d (Z.of_nat steps) (Z.of_nat t)) E) m))
            <$> seq 1 steps) !! k = Some W →
          (k < steps)%nat ∧
          W = maximum_scalar zero
                (add_scalar (scalar_sub (volume_t r d (Z.of_nat steps) (Z.of_nat (S k))) E) m))
    as Hframe.
  { intros k W. rewrite list_lookup_fmap.
    destruct (seq 1 steps !! k) as [t |] eqn:Ht; [| done].
    apply lookup_seq in Ht as [-> Hk]. cbn -[volume_t]. by intros [= <-]. }
  split_and!.
  - intros k W [Hk ->]%Hframe i j c. rewrite cell_level_grid.
    destruct (cell E i j) as [e |] eqn:He; [| done].
    cbn -[fle zero level_at volume_t]. intros [= <-].
    apply level_at_nonneg; [| eauto | done].
    apply (frame_volumes r d steps (Z.of_nat (S k)) (Z.of_nat (S k))); try done; lia.
  - intros k k' W W' i j c c' Hkk' [Hk ->]%Hframe [Hk' ->]%Hframe.
    rewrite !cell_level_grid.
    destruct (cell E i j) as [e |] eqn:He; [| done].
    cbn -[fle zero level_at volume_t]. intros [= <-] [= <-].
    apply level_at_mono; [| eauto | done].
    apply (frame_volumes r d steps (Z.of_nat (S k)) (Z.of_nat (S k'))); try done; lia.
  - intros k W i j c c' [Hk ->]%Hframe. rewrite !cell_level_grid.
    destruct (cell E i j) as [e |] eqn:He; [| done].
    cbn -[fle zero level_at volume_t]. intros [= <-] [= <-].
    apply level_at_mono; [| eauto | done].
    apply (frame_volumes r d steps (Z.of_nat (S k)) (Z.of_nat (S k))); try done; lia.
Qed.

(** ** More rain *)

(** X10.  More rain never lowers the water: for slider inputs with
    [r <= r'] and [d <= d'], on a finite grid, every cell of the water
    level grid for [(r', d')] is at least the cell for [(r, d)], and an
    alert raised for [(r, d)] is raised for [(r', d')] too. *)
Theorem more_rain_more_water (b : Bounds) (r r' d d' : Z) (threshold : float)
    (E : list (list float)) rows cols :
  10 ≤ r ≤ r' → r' ≤ 10000 → 10 ≤ d ≤ d' → d' ≤ 10000 →
  isnan threshold = false →
  all_cells isfinite E → rect rows cols E → (0 < rows)%nat → (0 < cols)%nat →
  ∃ W W', water_level r d E = Some W ∧ water_level r' d' E = Some W' ∧
    (∀ i j c c', cell W i j = Some c → cell W' i j = Some c' → fle c c' = true) ∧
    (∀ depth x y, report b r d threshold E = Some (Flood depth x y) →
       ∃ depth' x' y', report b r' d' threshold E = Some (Flood depth' x' y') ∧
                       fle depth depth' = true).
Proof.
  intros Hr Hr' Hd Hd' Ht HE Hrect Hrows Hcols.
  destruct (slider_volume_bounds r d) as (Hfin & _ & _); [lia.. |].
  destruct (slider_volume_bounds r' d') as (Hfin' & _ & _); [lia.. |].
  assert (fle (inflow_volume (F:=float) r d) (inflow_volume r' d') = true) as Hmono.
  { assert (10000 ≤ 2 ^ 53) by done. assert (10000 * 60 ≤ 2 ^ 53) by done.
    apply inflow_volume_mono; lia. }
  destruct (report_unfold b r d threshold E rows cols) as
    (W & i & j & p & x & y & HW & _ & Hcell & Hnan & _ & _ & _ & _ & _ & Hrep);
    [by apply isfinite_not_nan | done..|].
  destruct (report_unfold b r' d' threshold E rows cols) as
    (W' & i' & j' & p' & x' & y' & HW' & _ & Hcell' & Hnan' & Hmax' & _ & _ & _ & _ & Hrep');
    [by apply isfinite_not_nan | done..|].
  assert (∀ i j c c', cell W i j = Some c → cell W' i j = Some c' → fle c c' = true)
    as Hcells.
  { intros i0 j0 c c' Hc Hc'.
    assert (ravel E ≠ []) as Hne by (by eapply rect_ravel_nonempty).
    destruct (np_min_spec E (all_cells_finite_notnan E HE) Hne) as (m & Hm & Hmin).
    unfold water_level in HW, HW'.
    destruct (level_cell_inv _ E W m i0 j0 c Hm HW Hc) as (e & He & ->).
    destruct (level_cell_inv _ E W' m i0 j0 c' Hm HW' Hc') as (e' & He' & ->).
    assert (e' = e) as -> by congruence.
    apply level_at_mono; [done | eauto | by eapply is_min_finite]. }
  exists W, W'. split_and!; [done | done | done |].
  intros depth x0 y0 Hflood. rewrite Hflood in Hrep.
  destruct (flt threshold p) eqn:Hflt; [| done]. injection Hrep as -> _ _.
  (* the peak for (r', d') is at least the level of the old peak's cell *)
  assert (fle p p' = true) as Hpp'.
  { pose proof (level_rect _ _ _ _ _ Hrect HW) as HrW.
    pose proof (level_rect _ _ _ _ _ Hrect HW') as HrW'.
    destruct (cell_in_rect _ _ _ _ _ _ HrW Hcell) as [Hi Hj].
    destruct (cell_is_Some rows cols W' i j HrW' Hi Hj) as [c' Hc'].
    apply fle_trans with c'; eauto. }
  rewrite Hrep'. rewrite flt_fle in Hflt |- * by done.
  destruct (fle p' threshold) eqn:Hp't.
  - by rewrite (fle_trans p p' threshold) in Hflt.
  - simpl. eauto.
Qed.

(** ** Timing *)

(** X11.  The frame duration in milliseconds, times the number of frames,
    is the chosen animation time in milliseconds: with 10 or 20 frames
    [durasi_animasi * 1000 / steps] is an integer, the division is exact
    and [int] truncates nothing. *)
Theorem frame_duration_exact (mode : Mode) (durasi_animasi : Z) :
  0 ≤ durasi_animasi ≤ 10 ^ 12 →
  ∃ ms, frame_duration durasi_animasi (Z.of_nat (ANIM_STEPS mode)) = Some ms ∧
        ms * Z.of_nat (ANIM_STEPS mode) = durasi_animasi * 1000.
Proof.
  intros Hd. assert (10 ^ 12 * 1000 ≤ 2 ^ 53) by done.
  set (q := match mode with Ringan => durasi_animasi * 100
                          | Detail => durasi_animasi * 50 end).
  assert (durasi_animasi * 1000 = q * Z.of_nat (ANIM_STEPS mode)) as Hq
    by (unfold q; destruct mode; simpl; lia).
  exists q. split; [| lia].
  unfold frame_duration.
  destruct (b64_fdiv_exact (durasi_animasi * 1000) (Z.of_nat (ANIM_STEPS mode)) q)
    as [Hdiv Hq53]; [destruct mode; simpl; lia | lia | done |].
  by apply py_int_rnd64.
Qed.

(** ** Resizing *)

Lemma resize_dim_exact (mode : Mode) (n : nat) :
  (0 < n)%nat → Z.of_nat n ≤ 2 ^ 31 →
  cvRound (fmul (of_int (Z.of_nat n))
             (fdiv (of_int (MAX_RES mode)) (of_int (Z.of_nat n)) : float))
  = MAX_RES mode.
Proof.
  intros Hn Hn31. apply cvRound_mul_div; [lia |]. destruct mode; simpl; lia.
Qed.

(** X12.  The resize always fits the longer side of the grid to the
    maximum: when it succeeds, the side that was not shorter has length
    exactly [MAX_RES], whether the grid was larger or smaller than that. *)
Theorem resize_longer_side (mode : Mode) (rows cols : nat) (height width : Z) :
  (0 < rows)%nat → (0 < cols)%nat → Z.of_nat rows ≤ 2 ^ 31 → Z.of_nat cols ≤ 2 ^ 31 →
  resized_shape (F:=float) mode rows cols = Some (height, width) →
  ((cols ≤ rows)%nat → height = MAX_RES mode) ∧
  ((rows ≤ cols)%nat → width = MAX_RES mode).
Proof.
  intros Hr Hc Hr31 Hc31 Hsome.
  assert (2 ^ 31 ≤ 2 ^ 53) as H3153 by done.
  set (a := fdiv (of_int (MAX_RES mode)) (of_int (Z.of_nat rows)) : float).
  set (b := fdiv (of_int (MAX_RES mode)) (of_int (Z.of_nat cols)) : float).
  assert (isfinite a = true) as Ha by (by apply max_res_div_finite).
  assert (isfinite b = true) as Hb by (by apply max_res_div_finite).
  assert (∀ n m : nat, (0 < n)%nat → (n ≤ m)%nat → Z.of_nat m ≤ 2 ^ 31 →
            fle (fdiv (of_int (MAX_RES mode)) (of_int (Z.of_nat m)) : float)
                (fdiv (of_int (MAX_RES mode)) (of_int (Z.of_nat n))) = true) as Hanti.
  { intros n m Hn Hnm Hm. apply b64_fdiv_anti_r.
    - apply max_res_finite.
    - change (zero : float) with (of_int 0 : float).
      apply of_int_mono; destruct mode; simpl; lia.
    - apply of_int_finite. lia.
    - apply of_int_finite. lia.
    - apply of_int_ge_one. lia.
    - apply of_int_mono; lia. }
  unfold resized_shape, resize_shape, scale in Hsome. fold a b in Hsome.
  destruct (flt zero (py_min a b) && flt zero (py_min a b)); [| done].
  destruct (_ && _) eqn:Hpos; [| done]. injection Hsome as <- <-.
  apply andb_true_iff in Hpos as [Hw%Z.ltb_lt Hh%Z.ltb_lt].
  unfold py_min in *. rewrite flt_fle in * by (by apply isfinite_not_nan).
  split.
  - intros Hcr. pose proof (Hanti cols rows Hc Hcr Hr31) as Hab.
    change (fle a b = true) in Hab. rewrite Hab. cbn [negb].
    by apply resize_dim_exact.
  - intros Hrc. pose proof (Hanti rows cols Hr Hrc Hc31) as Hba.
    change (fle b a = true) in Hba.
    destruct (fle a b) eqn:Hab; cbn [negb]; [| by apply resize_dim_exact].
    (* the two scales compare equal *)
    pose proof (resize_dim_exact mode cols Hc Hc31) as Hexact. fold b in Hexact.
    assert (isfinite (of_int (Z.of_nat cols) : float) = true) as Hcf
      by (apply of_int_finite; lia).
    assert (fle zero (of_int (Z.of_nat cols) : float) = true) as Hc0.
    { change (zero : float) with (of_int 0 : float). apply of_int_mono; simpl; lia. }
    assert (isnan (fmul (of_int (Z.of_nat cols)) a : float) = false) as Hna
      by (by apply fmul_not_nan).
    assert (isnan (fmul (of_int (Z.of_nat cols)) b : float) = false) as Hnb
      by (by apply fmul_not_nan).
    cbn [negb] in Hw.
    change (cvRound (fmul (of_int (Z.of_nat cols)) a) = MAX_RES mode).
    assert (cvRound (fmul (of_int (Z.of_nat cols)) a)
            ≤ cvRound (fmul (of_int (Z.of_nat cols)) b)) as H1.
    { apply cvRound_mono; [by apply fmul_mono_r |].
      rewrite Hexact. unfold INT_MIN. destruct mode; simpl; lia. }
    assert (cvRound (fmul (of_int (Z.of_nat cols)) b)
            ≤ cvRound (fmul (of_int (Z.of_nat cols)) a)) as H2.
    { apply cvRound_mono; [by apply fmul_mono_r |]. unfold INT_MIN. lia. }
    lia.
Qed.

(** ** Bands without data *)

Section MissingData.
Context {F : Type} `{BasicLaws F}.






Lemma np_minimum_nan a b :
  isnan a = true ∨ isnan b = true → isnan (np_minimum a b) = true.
Proof.
  unfold np_minimum. intros Hab. destruct (isnan a) eqn:Ha.
  - by rewrite orb_true_r.
  - destruct Hab as [| Hb]; [done |]. rewrite orb_false_r.
    destruct (fle a b) eqn:Hle; [| done].
    destruct (fle_not_nan a b Hle). congruence.
Qed.

Lemma foldl_np_minimum_nan l x :
  isnan x = true ∨ Exists (λ y, isnan y = true) l →
  isnan (foldl np_minimum x l) = true.
Proof.
  revert x. induction l as [| a l IH]; intros x; simpl.
  - intros [| []%Exists_nil]. done.
  - rewrite Exists_cons. intros Hx. apply IH.
    destruct Hx as [Hx | [Ha | Hl]]; [| | by right].
    + left. apply np_minimum_nan. by left.
    + left. apply np_minimum_nan. by right.
Qed.

Lemma np_min_nan E i j c :
  cell E i j = Some c → isnan c = true → ∃ m, np_min E = Some m ∧ isnan m = true.
Proof.
  intros Hc Hnan. assert (c ∈ ravel E) as Hin by (apply elem_of_ravel; eauto).
  unfold np_min, reduce. destruct (ravel E) as [| x l]; [by apply not_elem_of_nil in Hin |].
  eexists. split; [done |]. apply foldl_np_minimum_nan.
  apply elem_of_cons in Hin as [<- | Hin]; [by left | right].
  apply Exists_exists. eauto.
Qed.

End MissingData.

(** X14.  One NaN elevation poisons the estimate: [np.min] is then NaN,
    every cell of every water level grid is NaN, whatever the volume, and
    since NaN exceeds no threshold the report is that nothing is flooded. *)
Theorem nan_poisons_estimate (b : Bounds) (r d : Z) (threshold : float)
    (E : list (list float)) rows cols :
  rect rows cols E →
  (∃ i j c, cell E i j = Some c ∧ isnan c = true) →
  (∀ v, ∃ W, level v E = Some W ∧ all_cells isnan W) ∧
  report b r d threshold E = Some NoFlood.
Proof.
  intros Hrect (i0 & j0 & c0 & Hc0 & Hnan0).
  destruct (cell_in_rect _ _ _ _ _ _ Hrect Hc0) as [Hi0 Hj0].
  assert (0 < rows)%nat as Hrows by lia. assert (0 < cols)%nat as Hcols by lia.
  destruct (np_min_nan E i0 j0 c0 Hc0 Hnan0) as (m & Hm & Hmn).
  assert (∀ v, ∃ W, level v E = Some W ∧ all_cells isnan W) as Hlevel.
  { intros v. destruct (level v E) as [W |] eqn:HW.
    2:{ unfold level in HW. by rewrite Hm in HW. }
    exists W. split; [done |]. intros i j w Hw.
    destruct (level_cell_inv v E W m i j w Hm HW Hw) as (e & _ & ->).
    unfold level_at, np_maximum.
    pose proof (b64_fadd_nan_r (fsub v e) m Hmn) as Hx.
    by rewrite (b64_fle_nan_l _ zero Hx). }
  split; [done |].
  destruct (Hlevel (inflow_volume r d)) as (W & HW & Hall).
  pose proof (level_rect _ _ _ _ _ Hrect HW) as HrW.
  destruct (max_pos_in_range rows cols W HrW Hrows Hcols) as (i & j & Hp & Hi & Hj).
  destruct (cell_is_Some rows cols W i j HrW Hi Hj) as [p Hcell].
  unfold report, water_level. rewrite HW. cbn -[mesh cell]. rewrite Hp.
  cbn -[mesh cell]. rewrite Hcell. cbn -[mesh cell].
  change (threshold <? p)%float with (flt threshold p).
  by rewrite (b64_flt_nan_r threshold p) by eauto.
Qed.

(** ** No rain *)

Lemma b64_fsub_zero_l (e : float) :
  isfinite e = true →
  sf_finite (Prim2SF (fsub zero e)) = true ∧
  sf_int (Prim2SF (fsub zero e)) = - sf_int (Prim2SF e).
Proof.
  rewrite b64_isfinite_spec. cbn [fsub binary64]. rewrite sub_spec, Prim2SF_zero.
  destruct (Prim2SF e) as [[] | [] | | [] m ex]; try done; intros _; split; try done.
  all: unfold SFsub, sf_int, cond_Zopp; simpl; lia.
Qed.

Lemma b64_level_dry (e m : float) :
  isfinite e = true → isfinite m = true → fle m e = true →
  fle (fadd (fsub zero e) m) zero = true.
Proof.
  intros He Hm Hme. destruct (b64_fsub_zero_l e He) as [Hfin Hint].
  rewrite b64_isfinite_spec in He, Hm. rewrite b64_fle_spec in Hme.
  pose proof (SFleb_sf_int _ _ (Prim2SF_valid m) (Prim2SF_valid e) Hm He Hme) as Hle.
  rewrite b64_fle_spec, Prim2SF_zero. cbn [fadd binary64]. rewrite add_spec.
  eapply (sf_eqv_mono _ _ _ 0).
  - apply SFadd_rnd64; auto using Prim2SF_valid.
  - by apply sf_eqv_refl.
  - lia.
Qed.

(** A cell whose elevation exceeds the float sum of volume and minimum. *)
Lemma b64_level_dry_above (v e m : float) :
  isfinite v = true → isfinite e = true → isfinite m = true →
  flt (fadd v m) e = true → fle (fadd (fsub v e) m) zero = true.
Proof.
  intros Hv He Hm Hlt.
  assert (isnan (fadd v m) = false) as Hsum
    by (apply fadd_not_nan; [by apply isfinite_not_nan | done]).
  rewrite (flt_fle _ _ Hsum (isfinite_not_nan _ He)) in Hlt.
  apply negb_true_iff in Hlt.
  pose proof Hv as Hv'. pose proof He as He'. pose proof Hm as Hm'.
  rewrite b64_isfinite_spec in Hv', He', Hm'.
  (* exactly, [v + m < e] *)
  assert (sf_int (Prim2SF v) + sf_int (Prim2SF m) < sf_int (Prim2SF e)) as Hexact.
  { destruct (Z.lt_ge_cases (sf_int (Prim2SF v) + sf_int (Prim2SF m))
                (sf_int (Prim2SF e))) as [| Hge]; [done |].
    assert (fle e (fadd v m) = true) as Hle; [| congruence].
    rewrite b64_fle_spec. cbn [fadd binary64]. rewrite add_spec.
    eapply (sf_eqv_mono _ _ (sf_int (Prim2SF e))
              (sf_int (Prim2SF v) + sf_int (Prim2SF m))).
    - pose proof (rnd64_sf_int (Prim2SF e) (Prim2SF_valid e) He') as [? ?]. by split.
    - apply SFadd_rnd64; auto using Prim2SF_valid.
    - lia. }
  (* hence [v - e <= 0 - m] after rounding *)
  assert (fle (fsub v e) (fsub zero m) = true) as Hsub.
  { rewrite b64_fle_spec. cbn [fsub binary64]. rewrite !sub_spec, Prim2SF_zero.
    eapply (sf_eqv_mono _ _ (sf_int (Prim2SF v) - sf_int (Prim2SF e))
              (sf_int (S754_zero false) - sf_int (Prim2SF m))).
    - apply SFsub_rnd64; auto using Prim2SF_valid.
    - apply SFsub_rnd64; auto using Prim2SF_valid.
    - change (sf_int (S754_zero false)) with 0. lia. }
  apply fle_trans with (fadd (fsub zero m) m).
  - by apply fadd_mono_l.
  - apply b64_level_dry; [done | done |]. apply fle_refl. by apply isfinite_not_nan.
Qed.

Lemma level_at_dry (v e m : float) :
  fle (fadd (fsub v e) m) zero = true → feq (level_at v e m) zero = true.
Proof.
  intros Hle. unfold level_at, np_maximum. rewrite Hle. simpl.
  apply feq_intro; by apply fle_refl.
Qed.

(** X15.  Dry cells, for a float64 grid with finite cells.  Without inflow
    nothing is flooded: for a volume that is zero or below, every cell of
    the water level grid is zero.  And for any finite volume, a cell whose
    elevation exceeds the sum of the volume and the minimum elevation
    (computed as a float) is zero.  Zero is meant as a number: the cell
    compares equal to 0, its sign is not determined. *)
Theorem dry_cells_are_zero (v : float) (E W : list (list float)) :
  all_cells isfinite E → level v E = Some W →
  (fle v zero = true → ∀ i j c, cell W i j = Some c → feq c zero = true) ∧
  (isfinite v = true →
   ∀ m i j e c, np_min E = Some m → cell E i j = Some e → cell W i j = Some c →
     flt (fadd v m) e = true → feq c zero = true).
Proof.
  intros HE HW.
  assert (ravel E ≠ []) as Hne
    by (intros Hnil; pose proof (proj2 (level_None v E) Hnil); congruence).
  destruct (np_min_spec E (all_cells_finite_notnan E HE) Hne) as (m & Hm & Hmin).
  pose proof (is_min_finite E m HE Hmin) as Hmf.
  split.
  - intros Hv i j c Hc.
    destruct (level_cell_inv v E W m i j c Hm HW Hc) as (e & He & ->).
    assert (isfinite e = true) as Hef by eauto.
    assert (fle m e = true) as Hme by (destruct Hmin as [_ Hmin]; eauto).
    apply level_at_dry.
    apply fle_trans with (fadd (fsub zero e) m).
    + apply fadd_mono_l; [| done]. by apply fsub_mono_l.
    + by apply b64_level_dry.
  - intros Hv m' i j e c Hm' He Hc Hlt.
    assert (m' = m) as -> by congruence.
    destruct (level_cell_inv v E W m i j c Hm HW Hc) as (e' & He' & ->).
    assert (e' = e) as -> by congruence.
    apply level_at_dry, b64_level_dry_above; eauto.
Qed.

(** ** The further properties at concrete inputs *)

Lemma dem_2x2_rect_b64 : rect 2 2 (of_int_grid (F:=float) dem_2x2).
Proof. split; [done |]. vm_compute. repeat constructor. Qed.

Lemma band_with_nan_rect : rect 2 3 band_with_nan.
Proof. split; [done |]. vm_compute. repeat constructor. Qed.

Lemma band_with_nan_measured :
  ∃ i j x, cell band_with_nan i j = Some x ∧ isnan x = false.
Proof. exists 0%nat, 1%nat, 5%float. by vm_compute. Qed.

(** X1 in binary64: 300 mm/h over 120 minutes on the 2 x 2 grid, with
    the threshold 0.1.  The alert prints the depth 0.60 at X=0.00,
    Y=1.00. *)
Lemma report_classifies_witness :
  message bounds_0_1 300 120 0x1.999999999999ap-4%float (of_int_grid dem_2x2)
  = Some (st_error "0.60" "0.00" "1.00") ∧
  ∃ (W : list (list float)) msg,
    water_level 300 120 (of_int_grid dem_2x2) = Some W ∧
    message bounds_0_1 300 120 0x1.999999999999ap-4%float (of_int_grid dem_2x2)
      = Some msg ∧
    (msg = st_success ↔
       ∀ i j c, cell W i j = Some c → fle c 0x1.999999999999ap-4%float = true) ∧
    (msg ≠ st_success ↔
       ∃ i j c, cell W i j = Some c ∧ flt 0x1.999999999999ap-4%float c = true) ∧
    (∀ sd sx sy, msg = st_error sd sx sy →
       ∃ depth, sd = format_2f depth ∧
         flt 0x1.999999999999ap-4%float depth = true ∧
         (∃ i j, cell W i j = Some depth) ∧
         ∀ i j c, cell W i j = Some c → fle c depth = true).
Proof.
  split; [by vm_compute |].
  apply (report_classifies bounds_0_1 300 120 0x1.999999999999ap-4%float
           (of_int_grid dem_2x2) 2 2).
  - by vm_compute.
  - by vm_compute.
  - exact dem_2x2_finite_b64.
  - exact dem_2x2_rect_b64.
  - lia.
  - lia.
Defined.

(** X2 in binary64, same inputs: the alert names the upper left corner,
    X = 0 and Y = 1, printed as 0.00 and 1.00. *)
Lemma report_location_witness :
  ∃ (W : list (list float)) i j depth x y,
    water_level 300 120 (of_int_grid dem_2x2) = Some W ∧
    max_pos W = Some (i, j) ∧ (i < 2)%nat ∧ (j < 2)%nat ∧
    cell W i j = Some depth ∧
    linspace (left bounds_0_1) (right bounds_0_1) 2 !! j = Some x ∧
    linspace (top bounds_0_1) (bottom bounds_0_1) 2 !! i = Some y ∧
    cell (mesh bounds_0_1 2 2).1 i j = Some x ∧
    cell (mesh bounds_0_1 2 2).2 i j = Some y ∧
    "0.60" = format_2f depth ∧ "0.00" = format_2f x ∧ "1.00" = format_2f y.
Proof.
  apply (report_location bounds_0_1 300 120 0x1.999999999999ap-4%float
           (of_int_grid dem_2x2) 2 2).
  - by vm_compute.
  - exact dem_2x2_finite_b64.
  - exact dem_2x2_rect_b64.
  - lia.
  - lia.
  - by vm_compute.
Defined.

(** X3 in binary64, at an array of shape (2, 0). *)
Lemma estimate_raises_iff_empty_witness :
  (water_level (F:=float) 300 120 [[]; []] = None ↔ 2%nat = 0%nat ∨ 0%nat = 0%nat) ∧
  (frames (F:=float) 300 120 20 [[]; []] = None ↔ 2%nat = 0%nat ∨ 0%nat = 0%nat) ∧
  (report (F:=float) bounds_0_1 300 120 0x1.999999999999ap-4%float [[]; []] = None
     ↔ 2%nat = 0%nat ∨ 0%nat = 0%nat).
Proof.
  apply (estimate_raises_iff_empty (F:=float) bounds_0_1 300 120
           0x1.999999999999ap-4%float 20 [[]; []] 2 0).
  - split; [done |]. repeat constructor.
  - lia.
Defined.

(** X4 in binary64, at the band with two NaN cells and an infinite one. *)
Lemma load_dem_finite_witness :
  ∃ (m : float) E, np_nanmin band_with_nan = Some m ∧ load_dem band_with_nan = Some E ∧
    (∀ i j x, cell band_with_nan i j = Some x → isnan x = false → isposinf x = true →
       cell E i j = Some finfo_max) ∧
    (∀ i j x, cell band_with_nan i j = Some x → isnan x = false → isposinf x = false →
       isneginf x = true → cell E i j = Some finfo_min) ∧
    (isfinite m = true → all_cells isfinite E) ∧
    ((∀ i j x, cell band_with_nan i j = Some x → isnan x = false → isfinite x = true) →
     isfinite m = true).
Proof.
  apply (load_dem_finite (F:=float) band_with_nan).
  exists 0%nat, 1%nat, 5%float. by vm_compute.
Defined.

(** X5 in binary64: loading the loaded band again changes nothing. *)
Lemma load_dem_idempotent_witness :
  load_dem [[3; 5; 3]; [0x1.fffffffffffffp+1023; 3; 4]]%float
  = Some [[3; 5; 3]; [0x1.fffffffffffffp+1023; 3; 4]]%float.
Proof.
  apply (load_dem_idempotent (F:=float) band_with_nan 3%float).
  - by vm_compute.
  - by vm_compute.
  - by vm_compute.
Defined.

(** X6 in binary64, at a band with two unmeasured cells and the volume
    0.6. *)
Lemma nodata_cells_attain_peak_witness :
  ∃ E W : list (list float),
    load_dem [[nan; 5]; [3; nan]]%float = Some E ∧
    level 0x1.3333333333333p-1%float E = Some W ∧
    ∀ i j x, cell [[nan; 5]; [3; nan]]%float i j = Some x → isnan x = true →
    ∃ c, cell W i j = Some c ∧
         ∀ i' j' c', cell W i' j' = Some c' → fle c' c = true.
Proof.
  apply (nodata_cells_attain_peak (F:=float) [[nan; 5]; [3; nan]]%float
           0x1.3333333333333p-1%float).
  - exists 0%nat, 1%nat, 5%float. by vm_compute.
  - assert (all_cells (λ x : float, isnan x || isfinite x)
              [[nan; 5]; [3; nan]]%float) as Hall.
    { apply all_cells_ravel. vm_compute. repeat constructor. }
    intros i j x Hx Hnan. specialize (Hall i j x Hx). cbv beta in Hall.
    by rewrite Hnan in Hall.
  - by vm_compute.
Defined.

(** X7: the default setting, 300 mm/h over 120 minutes, against 1000 mm/h
    over 600 minutes. *)
Lemma inflow_volume_slider_witness :
  isfinite (inflow_volume (F:=float) 300 120) = true ∧
  flt zero (inflow_volume (F:=float) 300 120) = true ∧
  fle (inflow_volume (F:=float) 300 120) (inflow_volume 1000 600) = true.
Proof. apply (inflow_volume_slider 300 1000 120 600); lia. Defined.

(** X8 in binary64: 20 frames on the 2 x 2 grid. *)
Lemma last_frame_is_static_witness :
  ∃ (fs : list (list (list float))) W,
    frames 300 120 20 (of_int_grid dem_2x2) = Some fs ∧
    last fs = Some W ∧ water_level 300 120 (of_int_grid dem_2x2) = Some W ∧
    length fs = 20%nat.
Proof.
  destruct (frames (F:=float) 300 120 20 (of_int_grid dem_2x2)) as [fs |] eqn:Hfs;
    [| by vm_compute in Hfs].
  destruct (last_frame_is_static 300 120 20 (of_int_grid dem_2x2) fs)
    as (W & Hlast & HW & Hlen); [lia | by vm_compute | done |].
  by exists fs, W.
Defined.

(** X9 in binary64: 20 frames on the 2 x 2 grid at the default setting. *)
Lemma animation_well_behaved_witness :
  ∃ (fs : list (list (list float))) Wstatic,
    frames 300 120 20 (of_int_grid dem_2x2) = Some fs ∧ length fs = 20%nat ∧
    water_level 300 120 (of_int_grid dem_2x2) = Some Wstatic ∧
    (∀ k W, fs !! k = Some W → all_cells (fle zero) W) ∧
    (∀ k k' W W' i j c c', (k ≤ k')%nat → fs !! k = Some W → fs !! k' = Some W' →
       cell W i j = Some c → cell W' i j = Some c' → fle c c' = true) ∧
    (∀ k W i j c c', fs !! k = Some W →
       cell W i j = Some c → cell Wstatic i j = Some c' → fle c c' = true).
Proof.
  apply (animation_well_behaved 300 120 20 (of_int_grid dem_2x2)).
  - lia.
  - lia.
  - lia.
  - by vm_compute.
  - exact dem_2x2_finite_b64.
  - vm_compute. discriminate.
Defined.

(** X10 in binary64: 300 mm/h over 120 minutes against 1000 mm/h over 600
    minutes on the 2 x 2 grid. *)
Lemma more_rain_more_water_witness :
  ∃ W W' : list (list float),
    water_level 300 120 (of_int_grid dem_2x2) = Some W ∧
    water_level 1000 600 (of_int_grid dem_2x2) = Some W' ∧
    (∀ i j c c', cell W i j = Some c → cell W' i j = Some c' → fle c c' = true) ∧
    (∀ depth x y,
       report bounds_0_1 300 120 0x1.999999999999ap-4%float (of_int_grid dem_2x2)
         = Some (Flood depth x y) →
       ∃ depth' x' y',
         report bounds_0_1 1000 600 0x1.999999999999ap-4%float (of_int_grid dem_2x2)
           = Some (Flood depth' x' y') ∧ fle depth depth' = true).
Proof.
  apply (more_rain_more_water bounds_0_1 300 1000 120 600 0x1.999999999999ap-4%float
           (of_int_grid dem_2x2) 2 2).
  - lia.
  - lia.
  - lia.
  - lia.
  - by vm_compute.
  - exact dem_2x2_finite_b64.
  - exact dem_2x2_rect_b64.
  - lia.
  - lia.
Defined.

(** X11: ten seconds in ten frames, 1000 ms each. *)
Lemma frame_duration_exact_witness :
  frame_duration 10 (Z.of_nat (ANIM_STEPS Ringan)) = Some 1000 ∧
  ∃ ms, frame_duration 10 (Z.of_nat (ANIM_STEPS Ringan)) = Some ms ∧
        ms * Z.of_nat (ANIM_STEPS Ringan) = 10 * 1000.
Proof.
  split; [by vm_compute |].
  apply (frame_duration_exact Ringan 10). split; [lia | by vm_compute].
Defined.

(** X12 in binary64: a 20 x 10 grid becomes 150 x 75 in mode Ringan. *)
Lemma resize_longer_side_witness :
  resized_shape (F:=float) Ringan 20 10 = Some (150, 75) ∧
  ((10 ≤ 20)%nat → 150 = MAX_RES Ringan) ∧ ((20 ≤ 10)%nat → 75 = MAX_RES Ringan).
Proof.
  split; [by vm_compute |].
  apply (resize_longer_side Ringan 20 10 150 75).
  - lia.
  - lia.
  - by vm_compute.
  - by vm_compute.
  - by vm_compute.
Defined.


(** X14 in binary64, at a band used without loading. *)
Lemma nan_poisons_estimate_witness :
  (∀ v : float, ∃ W, level v band_with_nan = Some W ∧ all_cells isnan W) ∧
  report bounds_0_1 300 120 0x1.999999999999ap-4%float band_with_nan = Some NoFlood.
Proof.
  apply (nan_poisons_estimate bounds_0_1 300 120 0x1.999999999999ap-4%float
           band_with_nan 2 3).
  - exact band_with_nan_rect.
  - exists 0%nat, 0%nat, nan. by vm_compute.
Defined.

(** X15 in binary64, on the 2 x 2 grid: with the volume zero every cell
    is zero, and with the volume 0.6 the cell of elevation 1, above
    0.6 + 0, is zero. *)
Lemma dry_cells_are_zero_witness :
  level 0x1.3333333333333p-1%float (of_int_grid dem_2x2)
  = Some [[0x1.3333333333333p-1; 0]; [0; 0]]%float ∧
  (∀ W : list (list float), level zero (of_int_grid dem_2x2) = Some W →
     ∀ i j c, cell W i j = Some c → feq c zero = true) ∧
  feq (F:=float) 0%float zero = true.
Proof.
  split; [by vm_compute |]. split.
  - intros W HW.
    apply (dry_cells_are_zero zero (of_int_grid dem_2x2) W dem_2x2_finite_b64 HW).
    by vm_compute.
  - pose proof (dry_cells_are_zero 0x1.3333333333333p-1%float (of_int_grid dem_2x2)
                  [[0x1.3333333333333p-1; 0]; [0; 0]]%float dem_2x2_finite_b64)
      as Hdry.
    apply (proj2 (Hdry ltac:(by vm_compute)) ltac:(by vm_compute)
             0%float 0%nat 1%nat 1%float 0%float); by vm_compute.
Defined.
